(** * LnkFileInfo: the decoder of Windows shortcut (LNK) files

    A shallow embedding of [LnkFileInfo] (version 2.0.1 of lnkfileinfo.hpp)
    and the properties of its decoding pipeline.

    Conventions of the embedding.
    - [uint8_t], [uint16_t] and [uint32_t] values are integers in [Z]; every
      place where the C++ narrows or does 32-bit unsigned arithmetic has its
      wrap-around written out with [cast].
    - [size_t] is taken 64 bits wide.  Every [size_t] that [refresh] forms
      is the sum of a 32-bit value, a few small constants and string lengths,
      hence far below [2^64]: its arithmetic is exact and is written in [Z].
      A reader can also be given an offset so large that a sum of its bounds
      check passes [SIZE_MAX] and wraps around: the properties that this
      would break have the hypothesis that it does not.
    - [std::vector<uint8_t>] is [list byte]; [std::string] is [list byte]
      (the bytes of the UTF-8 text).
    - A C++ exception is an [outcome]; the member functions that only read
      are computations in [Read], which also records every bounds-checked
      request and every raw [std::vector::at] access they make; [refresh],
      which assigns the members of [*this] one by one, is a [Method]: the
      members written before a [throw] stay written.
    - Loops run on fuel that is computed from their arguments; every loop is
      proved never to run out of it. *)

From Stdlib Require Import ZArith List Bool Lia String.
From Stdlib.Strings Require Import Byte.
Import ListNotations.
Local Open Scope Z_scope.

(** ** Exceptions and outcomes *)

(** The exceptions the class can raise: its own [IoError] and
    [InvalidLnkFile], and the [std::out_of_range] of [std::vector::at]. *)
Inductive Exception : Type :=
| IoError (what : string)
| InvalidLnkFile (what : string)
| std_out_of_range.

Inductive outcome (A : Type) : Type :=
| Returned (a : A)
| Thrown (e : Exception)
| OutOfFuel.
Arguments Returned {A} a.
Arguments Thrown {A} e.
Arguments OutOfFuel {A}.

(** What a reading function does to the buffer: [Request i w] is a call
    [readInteger<T>(bytes, i)] with [sizeof(T) = w]; [At k] is the raw
    access [bytes.at(k)]. *)
Inductive Event : Type :=
| Request (i w : Z)
| At (k : Z).

Definition Read (A : Type) : Type := (list Event * outcome A)%type.

Definition events {A} (m : Read A) : list Event := fst m.
Definition value {A} (m : Read A) : outcome A := snd m.

Definition ret {A} (a : A) : Read A := ([], Returned a).
Definition throw {A} (e : Exception) : Read A := ([], Thrown e).
Definition exhausted {A} : Read A := ([], OutOfFuel).
Definition emit (e : Event) : Read unit := ([e], Returned tt).

Definition bind {A B} (m : Read A) (f : A -> Read B) : Read B :=
  match snd m with
  | Returned a => (fst m ++ fst (f a), snd (f a))
  | Thrown e => (fst m, Thrown e)
  | OutOfFuel => (fst m, OutOfFuel)
  end.

Declare Scope read_scope.
Delimit Scope read_scope with read.
Notation "x <- m ;; k" := (bind m (fun x => k))
  (at level 61, m at next level, right associativity) : read_scope.
Notation "' p <- m ;; k" := (bind m (fun x => let 'p := x in k))
  (at level 61, p pattern, m at next level, right associativity) : read_scope.
Notation "m ;; k" := (bind m (fun _ => k))
  (at level 61, right associativity) : read_scope.

(** ** Integers, characters and strings *)

Inductive IntegerType : Type := uint8_t | uint16_t | uint32_t.

Definition sizeof (T : IntegerType) : Z :=
  match T with uint8_t => 1 | uint16_t => 2 | uint32_t => 4 end.

(** Conversion to the unsigned type [T]: reduction modulo [2^(8*sizeof T)]. *)
Definition cast (T : IntegerType) (z : Z) : Z := z mod 2 ^ (8 * sizeof T).

(** Conversion of a 32-bit unsigned member to [int], as the accessors
    [iconIndex] and [targetVolumeSerial] do. *)
Definition to_int (z : Z) : Z :=
  let u := cast uint32_t z in if u <? 2 ^ 31 then u else u - 2 ^ 32.

Definition std_string : Type := list byte.

Definition size {A} (v : list A) : Z := Z.of_nat (List.length v).

(** The largest [size_t]: a sum of offsets that does not pass it does not
    wrap around. *)
Definition SIZE_MAX : Z := 2 ^ 64 - 1.

Definition byte_value (b : byte) : Z := Z.of_N (Byte.to_N b).

(** Conversion of an integer to [char]: its low eight bits. *)
Definition to_char (z : Z) : byte :=
  match Byte.of_N (Z.to_N (z mod 256)) with
  | Some b => b
  | None => x00
  end.

(** ** [readInteger] *)

(** [bytes.at(k)]: the element, or [std::out_of_range]. *)
Definition vector_at (bytes : list byte) (k : Z) : Read Z :=
  (emit (At k) ;;
   if k <? 0 then throw std_out_of_range
   else match nth_error bytes (Z.to_nat k) with
        | Some b => ret (byte_value b)
        | None => throw std_out_of_range
        end)%read.

(** The loop [for(size_t j = 0; j < sizeof(T); j++)] of [readInteger], with
    [n] iterations left. *)
Fixpoint readInteger_for (T : IntegerType) (bytes : list byte) (i : Z)
    (n : nat) (j : Z) (result : Z) : Read Z :=
  match n with
  | O => ret result
  | S n' =>
      (b <- vector_at bytes (i + j) ;;
       readInteger_for T bytes i n' (j + 1)
         (cast T (result + b * Z.shiftl 1 (j * 8))))%read
  end.

(** The bounds check adds in [size_t]; the sum is written in [Z], which is
    exact for [i + sizeof T <= SIZE_MAX]. *)
Definition readInteger (T : IntegerType) (bytes : list byte) (i : Z) : Read Z :=
  (emit (Request i (sizeof T)) ;;
   if i + sizeof T >? size bytes
   then throw (InvalidLnkFile "Index out of range")
   else readInteger_for T bytes i (Z.to_nat (sizeof T)) 0 0)%read.

(** ** [readNullTerminatedString] *)

(** The [while] loop of [readNullTerminatedString]. *)
Fixpoint readNullTerminatedString_while (bytes : list byte) (fuel : nat)
    (i : Z) (result : std_string) : Read std_string :=
  match fuel with
  | O => exhausted
  | S fuel' =>
      (currentCharacter <- readInteger uint8_t bytes i ;;
       if currentCharacter =? 0 then ret result
       else if currentCharacter <? 0x80
       then readNullTerminatedString_while bytes fuel' (i + 1)
              (result ++ [to_char currentCharacter])
       else readNullTerminatedString_while bytes fuel' (i + 1)
              (result ++ [to_char (Z.lor 0xc0 (Z.shiftr currentCharacter 6));
                          to_char (Z.lor 0x80 (Z.land currentCharacter 0x3f))]))%read
  end.

(** Every iteration but the last reads a byte inside the buffer, one place
    further: [length bytes + 1] iterations are never all used. *)
Definition readNullTerminatedString (bytes : list byte) (i : Z) : Read std_string :=
  readNullTerminatedString_while bytes (S (List.length bytes)) i [].

(** ** [readUtf16Codepoint] *)

Definition GENERIC_SURROGATE_MASK : Z := 0xF800.
Definition GENERIC_SURROGATE_VALUE : Z := 0xD800.
Definition HIGH_SURROGATE_VALUE : Z := 0xD800.
Definition LOW_SURROGATE_VALUE : Z := 0xDC00.
Definition SURROGATE_MASK : Z := 0xFC00.
Definition SURROGATE_CODEPOINT_MASK : Z := 0x03FF.
Definition SURROGATE_CODEPOINT_BITS : Z := 10.
Definition SURROGATE_CODEPOINT_OFFSET : Z := 0x10000.
Definition INVALID_CODEPOINT : Z := 0xFFFD.

(** The loop [for(int j = numberOfBytes; j > 0; j--)] that writes the UTF-8
    bytes of [codepoint], last byte first, each put in front of [result]. *)
Fixpoint utf8_for (numberOfBytes : Z) (j : nat) (codepoint : Z)
    (continuationMask continuationValue : Z) (result : std_string) : std_string :=
  match j with
  | O => result
  | S j' =>
      let '(continuationMask, continuationValue) :=
        if Nat.eqb j 1 then
          match numberOfBytes with
          | 1 => (0x7F, 0x00)
          | 2 => (0x1F, 0xC0)
          | 3 => (0x0F, 0xE0)
          | 4 => (0x07, 0xF0)
          | _ => (continuationMask, continuationValue)
          end
        else (continuationMask, continuationValue) in
      let cont := to_char (Z.lor (Z.land codepoint continuationMask) continuationValue) in
      utf8_for numberOfBytes j' (Z.shiftr codepoint 6)
        continuationMask continuationValue (cont :: result)
  end.

Definition readUtf16Codepoint (bytes : list byte) (i end_ : Z)
    : Read (std_string * Z) :=
  (high <- readInteger uint16_t bytes i ;;
   let bytesRead := 2 in
   '(codepoint, bytesRead) <-
     (if negb (Z.land high GENERIC_SURROGATE_MASK =? GENERIC_SURROGATE_VALUE)
      then ret (high, bytesRead)
      else if negb (Z.land high SURROGATE_MASK =? HIGH_SURROGATE_VALUE)
                || (end_ <? i + 4)
      then ret (INVALID_CODEPOINT, bytesRead)
      else
        low <- readInteger uint16_t bytes (i + 2) ;;
        if negb (Z.land low SURROGATE_MASK =? LOW_SURROGATE_VALUE)
        then ret (INVALID_CODEPOINT, bytesRead)
        else ret (cast uint32_t
                    (Z.lor (Z.shiftl (Z.land high SURROGATE_CODEPOINT_MASK)
                                     SURROGATE_CODEPOINT_BITS)
                           (Z.land low SURROGATE_CODEPOINT_MASK)
                     + SURROGATE_CODEPOINT_OFFSET),
                  bytesRead + 2)) ;;
   let numberOfBytes :=
     if codepoint >? 0xFFFF then 4
     else if codepoint >? 0x7FF then 3
     else if codepoint >? 0x7F then 2 else 1 in
   ret (utf8_for numberOfBytes (Z.to_nat numberOfBytes) codepoint 0x3F 0x80 [],
        bytesRead))%read.

(** ** [readStringWithPrependedLength] and [readFixedLengthString] *)

(** The loop [while(i <= end)] of [readStringWithPrependedLength]. *)
Fixpoint readStringWithPrependedLength_while (bytes : list byte) (end_ : Z)
    (fuel : nat) (i : Z) (result : std_string) : Read std_string :=
  if i <=? end_ then
    match fuel with
    | O => exhausted
    | S fuel' =>
        ('(codepoint, bytesRead) <- readUtf16Codepoint bytes i end_ ;;
         readStringWithPrependedLength_while bytes end_ fuel' (i + bytesRead)
           (result ++ codepoint))%read
    end
  else ret result.

(** Each iteration moves [i] at least two bytes towards [end], from [i + 2]:
    as many iterations as the length prefix counts code units suffice. *)
Definition readStringWithPrependedLength (bytes : list byte) (i : Z)
    : Read (std_string * Z) :=
  (n <- readInteger uint16_t bytes i ;;
   let end_ := i + n * 2 in
   let i := i + 2 in
   result <- readStringWithPrependedLength_while bytes end_ (Z.to_nat n) i [] ;;
   ret (result, end_ + 2))%read.

(** The loop [while(i < length)] of [readFixedLengthString]. *)
Fixpoint readFixedLengthString_while (bytes : list byte) (offset length : Z)
    (fuel : nat) (i : Z) (result : std_string) : Read std_string :=
  if i <? length then
    match fuel with
    | O => exhausted
    | S fuel' =>
        ('(codepoint, bytesRead) <-
           readUtf16Codepoint bytes (i + offset + 2) (size bytes) ;;
         readFixedLengthString_while bytes offset length fuel' (i + bytesRead)
           (result ++ codepoint))%read
    end
  else ret result.

Definition readFixedLengthString (bytes : list byte) (offset length : Z)
    : Read std_string :=
  readFixedLengthString_while bytes offset length (Z.to_nat length) 0 [].

(** ** The object *)

(** [enum Attribute: uint16_t]. *)
Definition ReadOnly : Z := 0x0001.
Definition Hidden : Z := 0x0002.
Definition System : Z := 0x0004.
Definition VolumeLabel : Z := 0x0008.
Definition Directory : Z := 0x0010.
Definition Archive : Z := 0x0020.
Definition NtfsEfs : Z := 0x0040.
Definition Normal : Z := 0x0080.
Definition Temporary : Z := 0x0100.
Definition Sparse : Z := 0x0200.
Definition ReparsePointData : Z := 0x0400.
Definition Compressed : Z := 0x0800.
Definition Offline : Z := 0x1000.

(** [enum VolumeType: uint8_t]: a value of the underlying type. *)
Definition VolumeType : Type := Z.
Definition Unknown : VolumeType := 0.
Definition NoRootDirectory : VolumeType := 1.
Definition Removable : VolumeType := 2.
Definition HardDrive : VolumeType := 3.
Definition NetworkDrive : VolumeType := 4.
Definition CdRom : VolumeType := 5.
Definition RamDrive : VolumeType := 6.

(** [enum Flag]. *)
Definition HasShellIdList : Z := 0x01.
Definition PointsToFileDir : Z := 0x02.
Definition HasDescription : Z := 0x04.
Definition HasRelativePath : Z := 0x08.
Definition HasWorkingDirectory : Z := 0x10.
Definition HasCommandLineArgs : Z := 0x20.
Definition HasCustomIcon : Z := 0x40.

(** The data members, in the order of their declaration. *)
Record LnkFileInfo : Type := mkLnkFileInfo {
  _filePath : std_string;
  _absoluteFilePath : std_string;
  _targetPath : std_string;
  _targetVolumeName : std_string;
  _description : std_string;
  _relativeTargetPath : std_string;
  _workingDirectory : std_string;
  _commandLineArgs : std_string;
  _iconPath : std_string;
  _targetSize : Z;
  _iconIndex : Z;
  _targetVolumeSerial : Z;
  _targetAttributes : Z;
  _targetVolumeType : VolumeType;
  _targetIsOnNetwork : bool
}.

Definition set_absoluteFilePath (v : std_string) (o : LnkFileInfo) : LnkFileInfo :=
  mkLnkFileInfo (_filePath o) v (_targetPath o) (_targetVolumeName o)
    (_description o) (_relativeTargetPath o) (_workingDirectory o)
    (_commandLineArgs o) (_iconPath o) (_targetSize o) (_iconIndex o)
    (_targetVolumeSerial o) (_targetAttributes o) (_targetVolumeType o)
    (_targetIsOnNetwork o).
Definition set_targetPath (v : std_string) (o : LnkFileInfo) : LnkFileInfo :=
  mkLnkFileInfo (_filePath o) (_absoluteFilePath o) v (_targetVolumeName o)
    (_description o) (_relativeTargetPath o) (_workingDirectory o)
    (_commandLineArgs o) (_iconPath o) (_targetSize o) (_iconIndex o)
    (_targetVolumeSerial o) (_targetAttributes o) (_targetVolumeType o)
    (_targetIsOnNetwork o).
Definition set_targetVolumeName (v : std_string) (o : LnkFileInfo) : LnkFileInfo :=
  mkLnkFileInfo (_filePath o) (_absoluteFilePath o) (_targetPath o) v
    (_description o) (_relativeTargetPath o) (_workingDirectory o)
    (_commandLineArgs o) (_iconPath o) (_targetSize o) (_iconIndex o)
    (_targetVolumeSerial o) (_targetAttributes o) (_targetVolumeType o)
    (_targetIsOnNetwork o).
Definition set_description (v : std_string) (o : LnkFileInfo) : LnkFileInfo :=
  mkLnkFileInfo (_filePath o) (_absoluteFilePath o) (_targetPath o)
    (_targetVolumeName o) v (_relativeTargetPath o) (_workingDirectory o)
    (_commandLineArgs o) (_iconPath o) (_targetSize o) (_iconIndex o)
    (_targetVolumeSerial o) (_targetAttributes o) (_targetVolumeType o)
    (_targetIsOnNetwork o).
Definition set_relativeTargetPath (v : std_string) (o : LnkFileInfo) : LnkFileInfo :=
  mkLnkFileInfo (_filePath o) (_absoluteFilePath o) (_targetPath o)
    (_targetVolumeName o) (_description o) v (_workingDirectory o)
    (_commandLineArgs o) (_iconPath o) (_targetSize o) (_iconIndex o)
    (_targetVolumeSerial o) (_targetAttributes o) (_targetVolumeType o)
    (_targetIsOnNetwork o).
Definition set_workingDirectory (v : std_string) (o : LnkFileInfo) : LnkFileInfo :=
  mkLnkFileInfo (_filePath o) (_absoluteFilePath o) (_targetPath o)
    (_targetVolumeName o) (_description o) (_relativeTargetPath o) v
    (_commandLineArgs o) (_iconPath o) (_targetSize o) (_iconIndex o)
    (_targetVolumeSerial o) (_targetAttributes o) (_targetVolumeType o)
    (_targetIsOnNetwork o).
Definition set_commandLineArgs (v : std_string) (o : LnkFileInfo) : LnkFileInfo :=
  mkLnkFileInfo (_filePath o) (_absoluteFilePath o) (_targetPath o)
    (_targetVolumeName o) (_description o) (_relativeTargetPath o)
    (_workingDirectory o) v (_iconPath o) (_targetSize o) (_iconIndex o)
    (_targetVolumeSerial o) (_targetAttributes o) (_targetVolumeType o)
    (_targetIsOnNetwork o).
Definition set_iconPath (v : std_string) (o : LnkFileInfo) : LnkFileInfo :=
  mkLnkFileInfo (_filePath o) (_absoluteFilePath o) (_targetPath o)
    (_targetVolumeName o) (_description o) (_relativeTargetPath o)
    (_workingDirectory o) (_commandLineArgs o) v (_targetSize o) (_iconIndex o)
    (_targetVolumeSerial o) (_targetAttributes o) (_targetVolumeType o)
    (_targetIsOnNetwork o).
Definition set_targetSize (v : Z) (o : LnkFileInfo) : LnkFileInfo :=
  mkLnkFileInfo (_filePath o) (_absoluteFilePath o) (_targetPath o)
    (_targetVolumeName o) (_description o) (_relativeTargetPath o)
    (_workingDirectory o) (_commandLineArgs o) (_iconPath o) v (_iconIndex o)
    (_targetVolumeSerial o) (_targetAttributes o) (_targetVolumeType o)
    (_targetIsOnNetwork o).
Definition set_iconIndex (v : Z) (o : LnkFileInfo) : LnkFileInfo :=
  mkLnkFileInfo (_filePath o) (_absoluteFilePath o) (_targetPath o)
    (_targetVolumeName o) (_description o) (_relativeTargetPath o)
    (_workingDirectory o) (_commandLineArgs o) (_iconPath o) (_targetSize o) v
    (_targetVolumeSerial o) (_targetAttributes o) (_targetVolumeType o)
    (_targetIsOnNetwork o).
Definition set_targetVolumeSerial (v : Z) (o : LnkFileInfo) : LnkFileInfo :=
  mkLnkFileInfo (_filePath o) (_absoluteFilePath o) (_targetPath o)
    (_targetVolumeName o) (_description o) (_relativeTargetPath o)
    (_workingDirectory o) (_commandLineArgs o) (_iconPath o) (_targetSize o)
    (_iconIndex o) v (_targetAttributes o) (_targetVolumeType o)
    (_targetIsOnNetwork o).
Definition set_targetAttributes (v : Z) (o : LnkFileInfo) : LnkFileInfo :=
  mkLnkFileInfo (_filePath o) (_absoluteFilePath o) (_targetPath o)
    (_targetVolumeName o) (_description o) (_relativeTargetPath o)
    (_workingDirectory o) (_commandLineArgs o) (_iconPath o) (_targetSize o)
    (_iconIndex o) (_targetVolumeSerial o) v (_targetVolumeType o)
    (_targetIsOnNetwork o).
Definition set_targetVolumeType (v : VolumeType) (o : LnkFileInfo) : LnkFileInfo :=
  mkLnkFileInfo (_filePath o) (_absoluteFilePath o) (_targetPath o)
    (_targetVolumeName o) (_description o) (_relativeTargetPath o)
    (_workingDirectory o) (_commandLineArgs o) (_iconPath o) (_targetSize o)
    (_iconIndex o) (_targetVolumeSerial o) (_targetAttributes o) v
    (_targetIsOnNetwork o).
Definition set_targetIsOnNetwork (v : bool) (o : LnkFileInfo) : LnkFileInfo :=
  mkLnkFileInfo (_filePath o) (_absoluteFilePath o) (_targetPath o)
    (_targetVolumeName o) (_description o) (_relativeTargetPath o)
    (_workingDirectory o) (_commandLineArgs o) (_iconPath o) (_targetSize o)
    (_iconIndex o) (_targetVolumeSerial o) (_targetAttributes o)
    (_targetVolumeType o) v.

(** ** Member functions that write [*this] *)

(** A member function run on an object: the object as it leaves it, the
    reads it made, and how it ended. *)
Definition Method (A : Type) : Type := LnkFileInfo -> LnkFileInfo * Read A.

Definition object_after {A} (r : LnkFileInfo * Read A) : LnkFileInfo := fst r.
Definition reads_of {A} (r : LnkFileInfo * Read A) : list Event := events (snd r).
Definition result_of {A} (r : LnkFileInfo * Read A) : outcome A := value (snd r).

Definition mret {A} (a : A) : Method A := fun this => (this, ret a).
Definition mthrow {A} (e : Exception) : Method A := fun this => (this, throw e).
Definition read {A} (r : Read A) : Method A := fun this => (this, r).
Definition get_this : Method LnkFileInfo := fun this => (this, ret this).
Definition assign (f : LnkFileInfo -> LnkFileInfo) : Method unit :=
  fun this => (f this, ret tt).

Definition mbind {A B} (m : Method A) (f : A -> Method B) : Method B :=
  fun this =>
    let r := m this in
    match value (snd r) with
    | Returned a =>
        let r' := f a (fst r) in
        (fst r', (events (snd r) ++ events (snd r'), value (snd r')))
    | Thrown e => (fst r, (events (snd r), Thrown e))
    | OutOfFuel => (fst r, (events (snd r), OutOfFuel))
    end.

Declare Scope method_scope.
Delimit Scope method_scope with method.
Notation "x <- m ;; k" := (mbind m (fun x => k))
  (at level 61, m at next level, right associativity) : method_scope.
Notation "' p <- m ;; k" := (mbind m (fun x => let 'p := x in k))
  (at level 61, p pattern, m at next level, right associativity) : method_scope.
Notation "m ;; k" := (mbind m (fun _ => k))
  (at level 61, right associativity) : method_scope.

(** ** [refresh] *)

(** [refresh] on the content of the file at [_filePath]: [None] when the
    stream could not be opened, [Some bytes] for the bytes read. *)
Definition refresh (file : option (list byte)) : Method unit :=
  ((* Open the file *)
   bytes <- match file with
            | None => mthrow (IoError "Failed to open file")
            | Some bytes => mret bytes
            end ;;
   (* Check the headers *)
   magic <- read (readInteger uint8_t bytes 0) ;;
   (if negb (magic =? 0x4C)
    then mthrow (InvalidLnkFile "Invalid header") else mret tt) ;;
   extra <- read (readInteger uint16_t bytes 76) ;;
   let start := cast uint16_t (78 + extra) in
   fileinfoHeader <- read (readInteger uint8_t bytes (start + 4)) ;;
   (if negb (fileinfoHeader =? 0x1C) && negb (fileinfoHeader =? 0x24)
    then mthrow (InvalidLnkFile "Invalid fileinfo header") else mret tt) ;;
   (* Target info *)
   attributes <- read (readInteger uint16_t bytes 24) ;;
   assign (set_targetAttributes attributes) ;;
   targetSize <- read (readInteger uint32_t bytes 52) ;;
   assign (set_targetSize targetSize) ;;
   network <- read (readInteger uint8_t bytes (start + 8)) ;;
   assign (set_targetIsOnNetwork (negb (Z.land network 0x02 =? 0))) ;;
   (* Path and volume info *)
   this <- get_this ;;
   pathOffset <-
     (if _targetIsOnNetwork this then
        relative <- read (readInteger uint32_t bytes (start + 20)) ;;
        let volumeOffset := cast uint32_t (start + relative) in
        assign (set_targetVolumeType NetworkDrive) ;;
        assign (set_targetVolumeSerial 0) ;;
        volumeName <-
          read (readNullTerminatedString bytes (cast uint32_t (volumeOffset + 20))) ;;
        assign (set_targetVolumeName volumeName) ;;
        let pathOffset := cast uint32_t (volumeOffset + 21) + size volumeName in
        targetDrive <- read (readNullTerminatedString bytes pathOffset) ;;
        let pathOffset := pathOffset + (size targetDrive + 1) in
        remainder <- read (readNullTerminatedString bytes pathOffset) ;;
        assign (set_targetPath (targetDrive ++ [x5c] ++ remainder)) ;;
        mret pathOffset
      else
        relative <- read (readInteger uint32_t bytes (start + 12)) ;;
        let volumeOffset := cast uint32_t (start + relative) in
        volumeType <- read (readInteger uint32_t bytes (cast uint32_t (volumeOffset + 4))) ;;
        assign (set_targetVolumeType (cast uint8_t volumeType)) ;;
        serial <- read (readInteger uint32_t bytes (cast uint32_t (volumeOffset + 8))) ;;
        assign (set_targetVolumeSerial serial) ;;
        volumeName <-
          read (readNullTerminatedString bytes (cast uint32_t (volumeOffset + 16))) ;;
        assign (set_targetVolumeName volumeName) ;;
        relative <- read (readInteger uint32_t bytes (start + 16)) ;;
        let pathOffset := cast uint32_t (start + relative) in
        targetPath <- read (readNullTerminatedString bytes pathOffset) ;;
        assign (set_targetPath targetPath) ;;
        mret pathOffset) ;;
   (if fileinfoHeader =? 0x24 then
      this <- get_this ;;
      targetPath <-
        read (readFixedLengthString bytes (pathOffset + size (_targetPath this))
                (size (_targetPath this) * 2)) ;;
      assign (set_targetPath targetPath)
    else mret tt) ;;
   (* Additional info *)
   flags <- read (readInteger uint8_t bytes 20) ;;
   relative <- read (readInteger uint32_t bytes start) ;;
   let nextLocation := cast uint32_t (start + relative) in
   nextLocation <-
     (if negb (Z.land flags HasDescription =? 0) then
        data <- read (readStringWithPrependedLength bytes nextLocation) ;;
        assign (set_description (fst data)) ;;
        mret (snd data)
      else mret nextLocation) ;;
   nextLocation <-
     (if negb (Z.land flags HasRelativePath =? 0) then
        data <- read (readStringWithPrependedLength bytes nextLocation) ;;
        assign (set_relativeTargetPath (fst data)) ;;
        mret (snd data)
      else mret nextLocation) ;;
   nextLocation <-
     (if negb (Z.land flags HasWorkingDirectory =? 0) then
        data <- read (readStringWithPrependedLength bytes nextLocation) ;;
        assign (set_workingDirectory (fst data)) ;;
        mret (snd data)
      else mret nextLocation) ;;
   nextLocation <-
     (if negb (Z.land flags HasCommandLineArgs =? 0) then
        data <- read (readStringWithPrependedLength bytes nextLocation) ;;
        assign (set_commandLineArgs (fst data)) ;;
        mret (snd data)
      else mret nextLocation) ;;
   (if negb (Z.land flags HasCustomIcon =? 0) then
      data <- read (readStringWithPrependedLength bytes nextLocation) ;;
      assign (set_iconPath (fst data)) ;;
      iconIndex <- read (readInteger uint32_t bytes 56) ;;
      assign (set_iconIndex iconIndex)
    else mret tt))%method.

(** ** The constructor and the accessors *)

(** The object when the constructor's body starts.  [_filePath] is
    initialised from the argument and the other strings are empty; the six
    scalar members have no initialiser, and hold what their [storage] held. *)
Definition uninitialised (storage : LnkFileInfo) (filePath : std_string)
    : LnkFileInfo :=
  mkLnkFileInfo filePath [] [] [] [] [] [] [] []
    (_targetSize storage) (_iconIndex storage) (_targetVolumeSerial storage)
    (_targetAttributes storage) (_targetVolumeType storage)
    (_targetIsOnNetwork storage).

(** [explicit LnkFileInfo(std::string filePath)].  [absolute] is what
    [std::filesystem::absolute] makes of the path: [None] when it throws.
    The object exists only when the body returns. *)
Definition LnkFileInfo_ctor (storage : LnkFileInfo) (filePath : std_string)
    (file : option (list byte)) (absolute : option std_string)
    : outcome LnkFileInfo :=
  let r := refresh file (uninitialised storage filePath) in
  match result_of r with
  | Returned _ =>
      match absolute with
      | Some path => Returned (set_absoluteFilePath path (object_after r))
      | None => Thrown (IoError "filesystem error")
      end
  | Thrown e => Thrown e
  | OutOfFuel => OutOfFuel
  end.

Definition absoluteFilePath (this : LnkFileInfo) : std_string := _absoluteFilePath this.
Definition absoluteTargetPath (this : LnkFileInfo) : std_string := _targetPath this.
Definition commandLineArgs (this : LnkFileInfo) : std_string := _commandLineArgs this.
Definition description (this : LnkFileInfo) : std_string := _description this.
Definition filePath (this : LnkFileInfo) : std_string := _filePath this.
Definition hasCustomIcon (this : LnkFileInfo) : bool :=
  negb (size (_iconPath this) =? 0).
Definition iconPath (this : LnkFileInfo) : std_string := _iconPath this.
Definition iconIndex (this : LnkFileInfo) : Z := to_int (_iconIndex this).
Definition relativeTargetPath (this : LnkFileInfo) : std_string :=
  _relativeTargetPath this.
Definition targetHasAttribute (this : LnkFileInfo) (attribute : Z) : bool :=
  negb (Z.land (_targetAttributes this) attribute =? 0).
Definition targetIsOnNetwork (this : LnkFileInfo) : bool := _targetIsOnNetwork this.
Definition targetSize (this : LnkFileInfo) : Z := _targetSize this.
Definition targetVolumeSerial (this : LnkFileInfo) : Z :=
  to_int (_targetVolumeSerial this).
Definition targetVolumeType (this : LnkFileInfo) : VolumeType :=
  _targetVolumeType this.
Definition targetVolumeName (this : LnkFileInfo) : std_string :=
  _targetVolumeName this.
Definition workingDirectory (this : LnkFileInfo) : std_string :=
  _workingDirectory this.

(** [operator==] and [operator!=]: two objects are equal when their
    absolute file paths are the same string. *)
Fixpoint std_string_eqb (s s' : std_string) : bool :=
  match s, s' with
  | [], [] => true
  | c :: s, c' :: s' => Byte.eqb c c' && std_string_eqb s s'
  | _, _ => false
  end.

Definition operator_eq (this other : LnkFileInfo) : bool :=
  std_string_eqb (_absoluteFilePath this) (_absoluteFilePath other).
Definition operator_ne (this other : LnkFileInfo) : bool :=
  negb (operator_eq this other).

(** * Version 1.0.1 of the class

    The earlier version of lnkfileinfo.hpp, in which [refresh] catches the
    exceptions of the decoding and resets the object.  The integer types,
    [std::string], the enumerations [VolumeType] and [Flag] and the loop
    that writes the UTF-8 bytes of a code point are those of version 2.0.1
    above.  Version 1.0.1 keeps no trace of its reads here. *)

Module V1.

(** The exceptions: the [std::runtime_error] that the class throws, and the
    [std::out_of_range] of [std::vector::at], which is not a
    [std::runtime_error]. *)
Inductive Exception : Type :=
| std_runtime_error (what : string)
| std_out_of_range.

Inductive outcome (A : Type) : Type :=
| Returned (a : A)
| Thrown (e : Exception)
| OutOfFuel.
Arguments Returned {A} a.
Arguments Thrown {A} e.
Arguments OutOfFuel {A}.

Definition Read (A : Type) : Type := outcome A.

Definition ret {A} (a : A) : Read A := Returned a.
Definition throw {A} (e : Exception) : Read A := Thrown e.
Definition exhausted {A} : Read A := OutOfFuel.

Definition bind {A B} (m : Read A) (f : A -> Read B) : Read B :=
  match m with
  | Returned a => f a
  | Thrown e => Thrown e
  | OutOfFuel => OutOfFuel
  end.

Declare Scope v1_read_scope.
Delimit Scope v1_read_scope with v1_read.
Notation "x <- m ;; k" := (bind m (fun x => k))
  (at level 61, m at next level, right associativity) : v1_read_scope.
Notation "' p <- m ;; k" := (bind m (fun x => let 'p := x in k))
  (at level 61, p pattern, m at next level, right associativity) : v1_read_scope.

(** [bytes.at(k)]. *)
Definition vector_at (bytes : list byte) (k : Z) : Read Z :=
  if k <? 0 then throw std_out_of_range
  else match nth_error bytes (Z.to_nat k) with
       | Some b => ret (byte_value b)
       | None => throw std_out_of_range
       end.

(** [readInteger]: as in version 2.0.1, but for the exception thrown. *)
Fixpoint readInteger_for (T : IntegerType) (bytes : list byte) (i : Z)
    (n : nat) (j : Z) (result : Z) : Read Z :=
  match n with
  | O => ret result
  | S n' =>
      (b <- vector_at bytes (i + j) ;;
       readInteger_for T bytes i n' (j + 1)
         (cast T (result + b * Z.shiftl 1 (j * 8))))%v1_read
  end.

Definition readInteger (T : IntegerType) (bytes : list byte) (i : Z) : Read Z :=
  if i + sizeof T >? size bytes
  then throw (std_runtime_error "Index out of range")
  else readInteger_for T bytes i (Z.to_nat (sizeof T)) 0 0.

(** [readNullTerminatedString]: the bytes up to the terminator, as they
    are; the fuel is as in version 2.0.1. *)
Fixpoint readNullTerminatedString_while (bytes : list byte) (fuel : nat)
    (i : Z) (result : std_string) : Read std_string :=
  match fuel with
  | O => exhausted
  | S fuel' =>
      (currentCharacter <- readInteger uint8_t bytes i ;;
       if currentCharacter =? 0 then ret result
       else readNullTerminatedString_while bytes fuel' (i + 1)
              (result ++ [to_char currentCharacter]))%v1_read
  end.

Definition readNullTerminatedString (bytes : list byte) (i : Z) : Read std_string :=
  readNullTerminatedString_while bytes (S (List.length bytes)) i [].

(** The loop [for(i += 2; i <= end; i += 2)] of [readFixedLengthString],
    which in this version reads a string with its length before it.  A
    surrogate pair moves [i] two bytes further inside the body. *)
Fixpoint readFixedLengthString_for (bytes : list byte) (end_ : Z)
    (fuel : nat) (i : Z) (result : std_string) : Read std_string :=
  if i <=? end_ then
    match fuel with
    | O => exhausted
    | S fuel' =>
        (high <- readInteger uint16_t bytes i ;;
         '(codepoint, i) <-
           (if negb (Z.land high GENERIC_SURROGATE_MASK =? GENERIC_SURROGATE_VALUE)
            then ret (high, i)
            else if negb (Z.land high SURROGATE_MASK =? HIGH_SURROGATE_VALUE)
                      || (end_ <? i + 4)
            then ret (INVALID_CODEPOINT, i)
            else
              low <- readInteger uint16_t bytes (i + 2) ;;
              if negb (Z.land low SURROGATE_MASK =? LOW_SURROGATE_VALUE)
              then ret (INVALID_CODEPOINT, i)
              else ret (cast uint32_t
                          (Z.lor (Z.shiftl (Z.land high SURROGATE_CODEPOINT_MASK)
                                           SURROGATE_CODEPOINT_BITS)
                                 (Z.land low SURROGATE_CODEPOINT_MASK)
                           + SURROGATE_CODEPOINT_OFFSET),
                        i + 2)) ;;
         let numberOfBytes :=
           if codepoint >? 0xFFFF then 4
           else if codepoint >? 0x7FF then 3
           else if codepoint >? 0x7F then 2 else 1 in
         readFixedLengthString_for bytes end_ fuel' (i + 2)
           (result ++ utf8_for numberOfBytes (Z.to_nat numberOfBytes) codepoint
                        0x3F 0x80 []))%v1_read
    end
  else ret result.

(** Each iteration moves [i] at least two bytes towards [end], from
    [i + 2]: as many iterations as the length counts code units suffice. *)
Definition readFixedLengthString (bytes : list byte) (i : Z)
    : Read (std_string * Z) :=
  (n <- readInteger uint16_t bytes i ;;
   let end_ := i + n * 2 in
   result <- readFixedLengthString_for bytes end_ (Z.to_nat n) (i + 2) [] ;;
   ret (result, end_ + 2))%v1_read.

(** The data members, in the order of their declaration. *)
Record LnkFileInfo : Type := mkLnkFileInfo {
  _filePath : std_string;
  _isValid : bool;
  _targetAttributes : Z;
  _targetSize : Z;
  _targetIsOnNetwork : bool;
  _iconIndex : Z;
  _targetPath : std_string;
  _targetVolumeType : VolumeType;
  _targetVolumeSerial : Z;
  _targetVolumeName : std_string;
  _description : std_string;
  _relativeTargetPath : std_string;
  _workingDirectory : std_string;
  _commandLineArgs : std_string;
  _iconPath : std_string
}.

Definition set_isValid (v : bool) (o : LnkFileInfo) : LnkFileInfo :=
  mkLnkFileInfo (_filePath o) v (_targetAttributes o) (_targetSize o)
  (_targetIsOnNetwork o) (_iconIndex o) (_targetPath o) (_targetVolumeType o)
  (_targetVolumeSerial o) (_targetVolumeName o) (_description o)
  (_relativeTargetPath o) (_workingDirectory o) (_commandLineArgs o)
  (_iconPath o).
Definition set_targetAttributes (v : Z) (o : LnkFileInfo) : LnkFileInfo :=
  mkLnkFileInfo (_filePath o) (_isValid o) v (_targetSize o)
  (_targetIsOnNetwork o) (_iconIndex o) (_targetPath o) (_targetVolumeType o)
  (_targetVolumeSerial o) (_targetVolumeName o) (_description o)
  (_relativeTargetPath o) (_workingDirectory o) (_commandLineArgs o)
  (_iconPath o).
Definition set_targetSize (v : Z) (o : LnkFileInfo) : LnkFileInfo :=
  mkLnkFileInfo (_filePath o) (_isValid o) (_targetAttributes o) v
  (_targetIsOnNetwork o) (_iconIndex o) (_targetPath o) (_targetVolumeType o)
  (_targetVolumeSerial o) (_targetVolumeName o) (_description o)
  (_relativeTargetPath o) (_workingDirectory o) (_commandLineArgs o)
  (_iconPath o).
Definition set_targetIsOnNetwork (v : bool) (o : LnkFileInfo) : LnkFileInfo :=
  mkLnkFileInfo (_filePath o) (_isValid o) (_targetAttributes o)
  (_targetSize o) v (_iconIndex o) (_targetPath o) (_targetVolumeType o)
  (_targetVolumeSerial o) (_targetVolumeName o) (_description o)
  (_relativeTargetPath o) (_workingDirectory o) (_commandLineArgs o)
  (_iconPath o).
Definition set_iconIndex (v : Z) (o : LnkFileInfo) : LnkFileInfo :=
  mkLnkFileInfo (_filePath o) (_isValid o) (_targetAttributes o)
  (_targetSize o) (_targetIsOnNetwork o) v (_targetPath o)
  (_targetVolumeType o) (_targetVolumeSerial o) (_targetVolumeName o)
  (_description o) (_relativeTargetPath o) (_workingDirectory o)
  (_commandLineArgs o) (_iconPath o).
Definition set_targetPath (v : std_string) (o : LnkFileInfo) : LnkFileInfo :=
  mkLnkFileInfo (_filePath o) (_isValid o) (_targetAttributes o)
  (_targetSize o) (_targetIsOnNetwork o) (_iconIndex o) v (_targetVolumeType o)
  (_targetVolumeSerial o) (_targetVolumeName o) (_description o)
  (_relativeTargetPath o) (_workingDirectory o) (_commandLineArgs o)
  (_iconPath o).
Definition set_targetVolumeType (v : VolumeType) (o : LnkFileInfo) : LnkFileInfo :=
  mkLnkFileInfo (_filePath o) (_isValid o) (_targetAttributes o)
  (_targetSize o) (_targetIsOnNetwork o) (_iconIndex o) (_targetPath o) v
  (_targetVolumeSerial o) (_targetVolumeName o) (_description o)
  (_relativeTargetPath o) (_workingDirectory o) (_commandLineArgs o)
  (_iconPath o).
Definition set_targetVolumeSerial (v : Z) (o : LnkFileInfo) : LnkFileInfo :=
  mkLnkFileInfo (_filePath o) (_isValid o) (_targetAttributes o)
  (_targetSize o) (_targetIsOnNetwork o) (_iconIndex o) (_targetPath o)
  (_targetVolumeType o) v (_targetVolumeName o) (_description o)
  (_relativeTargetPath o) (_workingDirectory o) (_commandLineArgs o)
  (_iconPath o).
Definition set_targetVolumeName (v : std_string) (o : LnkFileInfo) : LnkFileInfo :=
  mkLnkFileInfo (_filePath o) (_isValid o) (_targetAttributes o)
  (_targetSize o) (_targetIsOnNetwork o) (_iconIndex o) (_targetPath o)
  (_targetVolumeType o) (_targetVolumeSerial o) v (_description o)
  (_relativeTargetPath o) (_workingDirectory o) (_commandLineArgs o)
  (_iconPath o).
Definition set_description (v : std_string) (o : LnkFileInfo) : LnkFileInfo :=
  mkLnkFileInfo (_filePath o) (_isValid o) (_targetAttributes o)
  (_targetSize o) (_targetIsOnNetwork o) (_iconIndex o) (_targetPath o)
  (_targetVolumeType o) (_targetVolumeSerial o) (_targetVolumeName o) v
  (_relativeTargetPath o) (_workingDirectory o) (_commandLineArgs o)
  (_iconPath o).
Definition set_relativeTargetPath (v : std_string) (o : LnkFileInfo) : LnkFileInfo :=
  mkLnkFileInfo (_filePath o) (_isValid o) (_targetAttributes o)
  (_targetSize o) (_targetIsOnNetwork o) (_iconIndex o) (_targetPath o)
  (_targetVolumeType o) (_targetVolumeSerial o) (_targetVolumeName o)
  (_description o) v (_workingDirectory o) (_commandLineArgs o) (_iconPath o).
Definition set_workingDirectory (v : std_string) (o : LnkFileInfo) : LnkFileInfo :=
  mkLnkFileInfo (_filePath o) (_isValid o) (_targetAttributes o)
  (_targetSize o) (_targetIsOnNetwork o) (_iconIndex o) (_targetPath o)
  (_targetVolumeType o) (_targetVolumeSerial o) (_targetVolumeName o)
  (_description o) (_relativeTargetPath o) v (_commandLineArgs o) (_iconPath o).
Definition set_commandLineArgs (v : std_string) (o : LnkFileInfo) : LnkFileInfo :=
  mkLnkFileInfo (_filePath o) (_isValid o) (_targetAttributes o)
  (_targetSize o) (_targetIsOnNetwork o) (_iconIndex o) (_targetPath o)
  (_targetVolumeType o) (_targetVolumeSerial o) (_targetVolumeName o)
  (_description o) (_relativeTargetPath o) (_workingDirectory o) v
  (_iconPath o).
Definition set_iconPath (v : std_string) (o : LnkFileInfo) : LnkFileInfo :=
  mkLnkFileInfo (_filePath o) (_isValid o) (_targetAttributes o)
  (_targetSize o) (_targetIsOnNetwork o) (_iconIndex o) (_targetPath o)
  (_targetVolumeType o) (_targetVolumeSerial o) (_targetVolumeName o)
  (_description o) (_relativeTargetPath o) (_workingDirectory o)
  (_commandLineArgs o) v.

(** Member functions that write [*this]. *)
Definition Method (A : Type) : Type := LnkFileInfo -> LnkFileInfo * Read A.

Definition object_after {A} (r : LnkFileInfo * Read A) : LnkFileInfo := fst r.
Definition result_of {A} (r : LnkFileInfo * Read A) : outcome A := snd r.

Definition mret {A} (a : A) : Method A := fun this => (this, ret a).
Definition mthrow {A} (e : Exception) : Method A := fun this => (this, throw e).
Definition read {A} (r : Read A) : Method A := fun this => (this, r).
Definition get_this : Method LnkFileInfo := fun this => (this, ret this).
Definition assign (f : LnkFileInfo -> LnkFileInfo) : Method unit :=
  fun this => (f this, ret tt).

Definition mbind {A B} (m : Method A) (f : A -> Method B) : Method B :=
  fun this =>
    let r := m this in
    match snd r with
    | Returned a => f a (fst r)
    | Thrown e => (fst r, Thrown e)
    | OutOfFuel => (fst r, OutOfFuel)
    end.

Declare Scope v1_method_scope.
Delimit Scope v1_method_scope with v1_method.
Notation "x <- m ;; k" := (mbind m (fun x => k))
  (at level 61, m at next level, right associativity) : v1_method_scope.
Notation "m ;; k" := (mbind m (fun _ => k))
  (at level 61, right associativity) : v1_method_scope.

(** The [try] block of [refresh], on the content of the file at
    [_filePath]: [None] when the stream could not be opened.  The
    conversion of the 32-bit volume type to the enumeration, which here has
    no fixed underlying type, is taken to keep the value as an [int]. *)
Definition refresh_try (file : option (list byte)) : Method unit :=
  ((* Open the file *)
   bytes <- match file with
            | None => mthrow (std_runtime_error "Failed to open file")
            | Some bytes => mret bytes
            end ;;
   (* Check the headers *)
   magic <- read (readInteger uint8_t bytes 0) ;;
   (if negb (magic =? 0x4C)
    then mthrow (std_runtime_error "Invalid header") else mret tt) ;;
   extra <- read (readInteger uint16_t bytes 76) ;;
   let start := cast uint16_t (78 + extra) in
   fileinfoHeader <- read (readInteger uint8_t bytes (start + 4)) ;;
   (if negb (fileinfoHeader =? 0x1C)
    then mthrow (std_runtime_error "Invalid fileinfo header") else mret tt) ;;
   (* Target info *)
   attributes <- read (readInteger uint16_t bytes 24) ;;
   assign (set_targetAttributes attributes) ;;
   targetSize <- read (readInteger uint32_t bytes 52) ;;
   assign (set_targetSize targetSize) ;;
   network <- read (readInteger uint8_t bytes (start + 8)) ;;
   assign (set_targetIsOnNetwork (negb (Z.land network 0x02 =? 0))) ;;
   (* Path and volume info *)
   this <- get_this ;;
   (if _targetIsOnNetwork this then
      relative <- read (readInteger uint32_t bytes (start + 20)) ;;
      let volumeOffset := cast uint32_t (start + relative) in
      assign (set_targetVolumeType NetworkDrive) ;;
      assign (set_targetVolumeSerial 0) ;;
      volumeName <-
        read (readNullTerminatedString bytes (cast uint32_t (volumeOffset + 20))) ;;
      assign (set_targetVolumeName volumeName) ;;
      let pathOffset := cast uint32_t (volumeOffset + 21) + size volumeName in
      targetDrive <- read (readNullTerminatedString bytes pathOffset) ;;
      remainder <-
        read (readNullTerminatedString bytes (pathOffset + 1 + size targetDrive)) ;;
      assign (set_targetPath (targetDrive ++ [x5c] ++ remainder))
    else
      relative <- read (readInteger uint32_t bytes (start + 12)) ;;
      let volumeOffset := cast uint32_t (start + relative) in
      volumeType <- read (readInteger uint32_t bytes (cast uint32_t (volumeOffset + 4))) ;;
      assign (set_targetVolumeType (to_int volumeType)) ;;
      serial <- read (readInteger uint32_t bytes (cast uint32_t (volumeOffset + 8))) ;;
      assign (set_targetVolumeSerial serial) ;;
      volumeName <-
        read (readNullTerminatedString bytes (cast uint32_t (volumeOffset + 16))) ;;
      assign (set_targetVolumeName volumeName) ;;
      pathOffset <- read (readInteger uint32_t bytes (start + 16)) ;;
      targetPath <-
        read (readNullTerminatedString bytes (cast uint32_t (start + pathOffset))) ;;
      assign (set_targetPath targetPath)) ;;
   (* Additional info *)
   flags <- read (readInteger uint8_t bytes 20) ;;
   relative <- read (readInteger uint32_t bytes start) ;;
   let nextLocation := cast uint32_t (start + relative) in
   nextLocation <-
     (if negb (Z.land flags HasDescription =? 0) then
        data <- read (readFixedLengthString bytes nextLocation) ;;
        assign (set_description (fst data)) ;;
        mret (snd data)
      else mret nextLocation) ;;
   nextLocation <-
     (if negb (Z.land flags HasRelativePath =? 0) then
        data <- read (readFixedLengthString bytes nextLocation) ;;
        assign (set_relativeTargetPath (fst data)) ;;
        mret (snd data)
      else mret nextLocation) ;;
   nextLocation <-
     (if negb (Z.land flags HasWorkingDirectory =? 0) then
        data <- read (readFixedLengthString bytes nextLocation) ;;
        assign (set_workingDirectory (fst data)) ;;
        mret (snd data)
      else mret nextLocation) ;;
   nextLocation <-
     (if negb (Z.land flags HasCommandLineArgs =? 0) then
        data <- read (readFixedLengthString bytes nextLocation) ;;
        assign (set_commandLineArgs (fst data)) ;;
        mret (snd data)
      else mret nextLocation) ;;
   (if negb (Z.land flags HasCustomIcon =? 0) then
      data <- read (readFixedLengthString bytes nextLocation) ;;
      assign (set_iconPath (fst data)) ;;
      iconIndex <- read (readInteger uint32_t bytes 56) ;;
      assign (set_iconIndex iconIndex)
    else mret tt))%v1_method.

(** The handler [catch(const std::runtime_error&)]: "Reset everything to
    avoid garbage values". *)
Definition refresh_catch : Method unit :=
  (assign (set_isValid false) ;;
   assign (set_targetAttributes 0) ;;
   assign (set_targetSize 0) ;;
   assign (set_targetIsOnNetwork false) ;;
   assign (set_iconIndex 0) ;;
   assign (set_targetPath []) ;;
   assign (set_targetVolumeType Unknown) ;;
   assign (set_targetVolumeSerial 0) ;;
   assign (set_targetVolumeName []) ;;
   assign (set_iconPath []) ;;
   assign (set_commandLineArgs []) ;;
   assign (set_workingDirectory []) ;;
   assign (set_relativeTargetPath []) ;;
   assign (set_description []))%v1_method.

(** [refresh]: the [try] block, and the handler for a
    [std::runtime_error]; any other exception goes through. *)
Definition refresh (file : option (list byte)) : Method unit :=
  fun this =>
    let r := refresh_try file this in
    match snd r with
    | Thrown (std_runtime_error _) => refresh_catch (fst r)
    | _ => r
    end.

(** [LnkFileInfo()]. *)
Definition LnkFileInfo_default : LnkFileInfo :=
  mkLnkFileInfo [] false 0 0 false 0 [] Unknown 0 [] [] [] [] [] [].

(** The object when the body of [LnkFileInfo(const std::string &filePath)]
    starts: [_filePath] and [_isValid] are initialised, the strings are
    empty, and the five other scalar members hold what their [storage]
    held. *)
Definition uninitialised (storage : LnkFileInfo) (filePath : std_string)
    : LnkFileInfo :=
  mkLnkFileInfo filePath true (_targetAttributes storage) (_targetSize storage)
    (_targetIsOnNetwork storage) (_iconIndex storage) []
    (_targetVolumeType storage) (_targetVolumeSerial storage) [] [] [] [] [] [].

(** [LnkFileInfo(const std::string &filePath)]. *)
Definition LnkFileInfo_ctor (storage : LnkFileInfo) (filePath : std_string)
    (file : option (list byte)) : outcome LnkFileInfo :=
  let r := refresh file (uninitialised storage filePath) in
  match snd r with
  | Returned _ => Returned (fst r)
  | Thrown e => Thrown e
  | OutOfFuel => OutOfFuel
  end.

Definition isValid (this : LnkFileInfo) : bool := _isValid this.
Definition filePath (this : LnkFileInfo) : std_string := _filePath this.

End V1.

(** * Specification-side definitions *)

(** ** The bytes of a buffer *)

(** The byte at offset [k], for offsets inside the buffer. *)
Definition byte_at (bytes : list byte) (k : Z) : Z :=
  byte_value (nth (Z.to_nat k) bytes x00).

(** The little-endian value of the [sizeof T] bytes at offset [i]. *)
Definition little_endian (T : IntegerType) (bytes : list byte) (i : Z) : Z :=
  match T with
  | uint8_t => byte_at bytes i
  | uint16_t => byte_at bytes i + 2 ^ 8 * byte_at bytes (i + 1)
  | uint32_t =>
      byte_at bytes i + 2 ^ 8 * byte_at bytes (i + 1)
      + 2 ^ 16 * byte_at bytes (i + 2) + 2 ^ 24 * byte_at bytes (i + 3)
  end.

(** The [n] bytes of the buffer from [offset] on (fewer when it ends
    before). *)
Definition slice (bytes : list byte) (offset n : Z) : list byte :=
  firstn (Z.to_nat n) (skipn (Z.to_nat offset) bytes).

(** The [sizeof T] bytes that store [v], low byte first. *)
Definition little_endian_bytes (T : IntegerType) (v : Z) : list byte :=
  map (fun k => to_char (v / 2 ^ (8 * Z.of_nat k))) (seq 0 (Z.to_nat (sizeof T))).

(** ** The texts stored in a buffer *)

(** The bytes before the first zero byte. *)
Fixpoint before_zero (bytes : list byte) : list byte :=
  match bytes with
  | [] => []
  | b :: rest => if byte_value b =? 0 then [] else b :: before_zero rest
  end.

(** The Latin-1 text stored at [offset]: the bytes from [offset] to the
    first zero byte after it, or to the end of the buffer when there is
    none. *)
Definition stored_text (bytes : list byte) (offset : Z) : list byte :=
  before_zero (skipn (Z.to_nat offset) bytes).

(** ** The header fields of a buffer *)

(** The fields that [refresh] reads first, as functions of the buffer. *)
Definition linkInfoStart (bytes : list byte) : Z :=
  cast uint16_t (78 + little_endian uint16_t bytes 76).
Definition structureSize (bytes : list byte) : Z :=
  little_endian uint8_t bytes (linkInfoStart bytes + 4).
Definition networkFlag (bytes : list byte) : bool :=
  negb (Z.land (little_endian uint8_t bytes (linkInfoStart bytes + 8)) 0x02 =? 0).
Definition flagByte (bytes : list byte) : Z := little_endian uint8_t bytes 20.

(** The offset of the Latin-1 target path of a local link. *)
Definition localPathOffset (bytes : list byte) : Z :=
  cast uint32_t (linkInfoStart bytes
                 + little_endian uint32_t bytes (linkInfoStart bytes + 16)).

(** The offset of the volume table of a local link. *)
Definition localVolumeOffset (bytes : list byte) : Z :=
  cast uint32_t (linkInfoStart bytes
                 + little_endian uint32_t bytes (linkInfoStart bytes + 12)).

(** The offset of the share table of a network link, and of the share name
    twenty bytes into it. *)
Definition networkVolumeOffset (bytes : list byte) : Z :=
  cast uint32_t (linkInfoStart bytes
                 + little_endian uint32_t bytes (linkInfoStart bytes + 20)).
Definition shareNameOffset (bytes : list byte) : Z :=
  cast uint32_t (networkVolumeOffset bytes + 20).

(** ** The string section of a buffer *)

(** Whether a bit of the flag byte is set. *)
Definition hasFlag (bytes : list byte) (flag : Z) : bool :=
  negb (Z.land (flagByte bytes) flag =? 0).

(** The offset after the length-prefixed string at [location]: two bytes of
    count, and two bytes for each code unit counted. *)
Definition afterString (bytes : list byte) (location : Z) : Z :=
  location + 2 + 2 * little_endian uint16_t bytes location.

(** The offsets of the five strings: the section starts where the LinkInfo
    structure ends, and a string that is present is followed by the next
    one. *)
Definition descriptionOffset (bytes : list byte) : Z :=
  cast uint32_t (linkInfoStart bytes
                 + little_endian uint32_t bytes (linkInfoStart bytes)).
Definition relativePathOffset (bytes : list byte) : Z :=
  if hasFlag bytes HasDescription
  then afterString bytes (descriptionOffset bytes) else descriptionOffset bytes.
Definition workingDirectoryOffset (bytes : list byte) : Z :=
  if hasFlag bytes HasRelativePath
  then afterString bytes (relativePathOffset bytes) else relativePathOffset bytes.
Definition commandLineArgsOffset (bytes : list byte) : Z :=
  if hasFlag bytes HasWorkingDirectory
  then afterString bytes (workingDirectoryOffset bytes)
  else workingDirectoryOffset bytes.
Definition iconPathOffset (bytes : list byte) : Z :=
  if hasFlag bytes HasCommandLineArgs
  then afterString bytes (commandLineArgsOffset bytes)
  else commandLineArgsOffset bytes.

(** ** The fields that the format requires of a buffer *)

(** A field: its offset and its width in bytes. *)
Definition Field : Type := (Z * Z)%type.

(** A null-terminated text and its terminator. *)
Definition text_field (bytes : list byte) (offset : Z) : Field :=
  (offset, size (stored_text bytes offset) + 1).

(** A length-prefixed string: the count of code units, and the code units. *)
Definition prefixed_string_fields (bytes : list byte) (location : Z) : list Field :=
  [(location, 2); (location + 2, 2 * little_endian uint16_t bytes location)].

(** The strings of the string section whose flags are set, one after the
    other from [cursor] on. *)
Fixpoint string_section_fields (bytes : list byte) (flags : list Z) (cursor : Z)
    : list Field :=
  match flags with
  | [] => []
  | flag :: flags' =>
      if hasFlag bytes flag
      then prefixed_string_fields bytes cursor
           ++ string_section_fields bytes flags' (afterString bytes cursor)
      else string_section_fields bytes flags' cursor
  end.

(** The fields of the header, of the LinkInfo structure, and of the volume
    or share table.  The sum that gives the start of the LinkInfo structure
    goes through [sum16], and the sums that give an offset from it go
    through [sum32].  A network link has the share name, the drive after its
    terminator, and the remainder after the terminator of the drive; its
    path in the extended format is not among the fields.  A local link has
    the volume type, serial and name, the path, and in the extended format
    the path in UTF-16 after the terminator of the path, two bytes for each
    of its characters. *)
Definition link_fields (sum16 sum32 : Z -> Z) (bytes : list byte) : list Field :=
  let start := sum16 (78 + little_endian uint16_t bytes 76) in
  [(0, 1); (76, 2); (start + 4, 1); (24, 2); (52, 4); (start + 8, 1)]
  ++ (if negb (Z.land (little_endian uint8_t bytes (start + 8)) 0x02 =? 0) then
        let volumeOffset :=
          sum32 (start + little_endian uint32_t bytes (start + 20)) in
        let share := sum32 (volumeOffset + 20) in
        let drive := sum32 (volumeOffset + 21) + size (stored_text bytes share) in
        let remainder := drive + size (stored_text bytes drive) + 1 in
        [(start + 20, 4); text_field bytes share; text_field bytes drive;
         text_field bytes remainder]
      else
        let volumeOffset :=
          sum32 (start + little_endian uint32_t bytes (start + 12)) in
        let path := sum32 (start + little_endian uint32_t bytes (start + 16)) in
        [(start + 12, 4); (sum32 (volumeOffset + 4), 4);
         (sum32 (volumeOffset + 8), 4); text_field bytes (sum32 (volumeOffset + 16));
         (start + 16, 4); text_field bytes path]
        ++ (if little_endian uint8_t bytes (start + 4) =? 0x24
            then [(path + size (stored_text bytes path) + 1,
                   2 * size (stored_text bytes path))]
            else [])).

(** The fields of the string section: the flag byte, the size of the
    LinkInfo structure, after which the section starts, the strings whose
    flags are set, and the icon index of a link with a custom icon. *)
Definition section_fields (sum16 sum32 : Z -> Z) (bytes : list byte) : list Field :=
  let start := sum16 (78 + little_endian uint16_t bytes 76) in
  [(20, 1); (start, 4)]
  ++ string_section_fields bytes
       [HasDescription; HasRelativePath; HasWorkingDirectory; HasCommandLineArgs;
        HasCustomIcon]
       (sum32 (start + little_endian uint32_t bytes start))
  ++ (if hasFlag bytes HasCustomIcon then [(56, 4)] else []).

Definition located_fields (sum16 sum32 : Z -> Z) (bytes : list byte) : list Field :=
  link_fields sum16 sum32 bytes ++ section_fields sum16 sum32 bytes.

(** The fields that the format requires, at the offsets that it gives: the
    sums are the sums of integers. *)
Definition required_fields (bytes : list byte) : list Field :=
  located_fields (fun z => z) (fun z => z) bytes.

(** A truncated buffer: some required field passes its end. *)
Definition truncated (bytes : list byte) : Prop :=
  exists offset width,
    In (offset, width) (required_fields bytes) /\ size bytes < offset + width.

(** A field that lies inside the buffer. *)
Definition held (bytes : list byte) (field : Field) : Prop :=
  fst field + snd field <= size bytes.

(** ** Unicode *)

(** A Unicode scalar value: a code point up to U+10FFFF that is not a
    surrogate. *)
Definition is_scalar_value (cp : Z) : Prop :=
  0 <= cp <= 0x10FFFF /\ ~ (0xD800 <= cp <= 0xDFFF).

(** The UTF-16 code units of a code point: itself, or the high and the low
    surrogate of the pair for a code point above U+FFFF. *)
Definition utf16_encode (cp : Z) : list Z :=
  if cp <? 0x10000 then [cp]
  else [0xD800 + (cp - 0x10000) / 0x400; 0xDC00 + (cp - 0x10000) mod 0x400].

(** Code units as bytes, low byte first. *)
Definition utf16le (units : list Z) : list byte :=
  flat_map (fun u => [to_char (u mod 256); to_char (u / 256)]) units.

(** The UTF-8 encoding of a code point, by the table of RFC 3629. *)
Definition utf8_encode (cp : Z) : std_string :=
  if cp <? 0x80 then [to_char cp]
  else if cp <? 0x800 then
    [to_char (0xC0 + cp / 0x40); to_char (0x80 + cp mod 0x40)]
  else if cp <? 0x10000 then
    [to_char (0xE0 + cp / 0x1000); to_char (0x80 + cp / 0x40 mod 0x40);
     to_char (0x80 + cp mod 0x40)]
  else
    [to_char (0xF0 + cp / 0x40000); to_char (0x80 + cp / 0x1000 mod 0x40);
     to_char (0x80 + cp / 0x40 mod 0x40); to_char (0x80 + cp mod 0x40)].

(** The ranges of the surrogate code units. *)
Definition is_surrogate (u : Z) : bool := (0xD800 <=? u) && (u <=? 0xDFFF).
Definition is_high_surrogate (u : Z) : bool := (0xD800 <=? u) && (u <=? 0xDBFF).
Definition is_low_surrogate (u : Z) : bool := (0xDC00 <=? u) && (u <=? 0xDFFF).

(** What [readUtf16Codepoint] returns at offset [i], in closed form. *)
Definition utf16_step (bytes : list byte) (i end_ : Z) : outcome (std_string * Z) :=
  if i + 2 >? size bytes then Thrown (InvalidLnkFile "Index out of range")
  else
    let high := little_endian uint16_t bytes i in
    if negb (is_surrogate high) then Returned (utf8_encode high, 2)
    else if negb (is_high_surrogate high) || (end_ <? i + 4)
    then Returned (utf8_encode 0xFFFD, 2)
    else if i + 4 >? size bytes then Thrown (InvalidLnkFile "Index out of range")
    else
      let low := little_endian uint16_t bytes (i + 2) in
      if negb (is_low_surrogate low) then Returned (utf8_encode 0xFFFD, 2)
      else Returned (utf8_encode (0x10000 + (high - 0xD800) * 0x400 + (low - 0xDC00)), 4).

(** A plain ASCII character of a path: not the terminator, below 0x80. *)
Definition is_ascii (b : byte) : Prop := 0 < byte_value b < 0x80.

(** The UTF-8 text of a Latin-1 text: a Latin-1 byte is the code point of
    the same number. *)
Definition latin1_to_utf8 (latin : list byte) : std_string :=
  flat_map (fun b => utf8_encode (byte_value b)) latin.

(** A string that is the UTF-8 encoding of a sequence of Unicode scalar
    values. *)
Definition well_formed_utf8 (s : std_string) : Prop :=
  exists codepoints,
    Forall is_scalar_value codepoints /\ s = flat_map utf8_encode codepoints.

(** The seven strings that [refresh] decodes are well-formed UTF-8. *)
Definition utf8_members (o : LnkFileInfo) : Prop :=
  well_formed_utf8 (_targetPath o)
  /\ well_formed_utf8 (_targetVolumeName o)
  /\ well_formed_utf8 (_description o)
  /\ well_formed_utf8 (_relativeTargetPath o)
  /\ well_formed_utf8 (_workingDirectory o)
  /\ well_formed_utf8 (_commandLineArgs o)
  /\ well_formed_utf8 (_iconPath o).

(** A setter that keeps [utf8_members]: one that sets a well-formed string,
    or a member that is not one of the seven strings. *)
Definition keeps_utf8 (g : LnkFileInfo -> LnkFileInfo) : Prop :=
  forall o, utf8_members o -> utf8_members (g o).

(** ** Properties of a run *)

(** A computation that keeps to the buffer: every raw access is inside it,
    a request that reaches past its end makes the computation throw
    [InvalidLnkFile], nothing else is ever thrown, and the fuel suffices. *)
Definition guarded (bytes : list byte) {A} (m : Read A) : Prop :=
  (forall k, In (At k) (events m) -> 0 <= k < size bytes)
  /\ (forall i w, In (Request i w) (events m) -> size bytes < i + w ->
        value m = Thrown (InvalidLnkFile "Index out of range"))
  /\ (forall e, value m = Thrown e -> exists what, e = InvalidLnkFile what)
  /\ value m <> OutOfFuel.

(** Every raw access of a trace lies inside a request of the same trace that
    passed the bounds check. *)
Definition covered (bytes : list byte) (trace : list Event) : Prop :=
  forall k, In (At k) trace ->
  exists i w, In (Request i w) trace /\ i <= k < i + w /\ i + w <= size bytes.

(** [ensures m this Q]: when [m], run on [this], returns [a] and leaves the
    object [this'], then [Q a this']. *)
Definition ensures {A} (m : Method A) (this : LnkFileInfo)
    (Q : A -> LnkFileInfo -> Prop) : Prop :=
  forall a, result_of (m this) = Returned a -> Q a (object_after (m this)).

(** [checked bytes m this Q]: moreover the reads of [m] keep to [bytes]. *)
Definition checked (bytes : list byte) {A} (m : Method A) (this : LnkFileInfo)
    (Q : A -> LnkFileInfo -> Prop) : Prop :=
  guarded bytes (snd (m this)) /\ ensures m this Q.

(** ** What a run writes *)

(** The members that [refresh] assigns. *)
Inductive Member : Type :=
| member_targetPath | member_targetVolumeName | member_description
| member_relativeTargetPath | member_workingDirectory | member_commandLineArgs
| member_iconPath | member_targetSize | member_iconIndex
| member_targetVolumeSerial | member_targetAttributes | member_targetVolumeType
| member_targetIsOnNetwork.

Definition Member_index (x : Member) : nat :=
  match x with
  | member_targetPath => 0 | member_targetVolumeName => 1
  | member_description => 2 | member_relativeTargetPath => 3
  | member_workingDirectory => 4 | member_commandLineArgs => 5
  | member_iconPath => 6 | member_targetSize => 7 | member_iconIndex => 8
  | member_targetVolumeSerial => 9 | member_targetAttributes => 10
  | member_targetVolumeType => 11 | member_targetIsOnNetwork => 12
  end.

(** What has been written: the members assigned so far, and an object that
    holds, in these members, the values last assigned. *)
Definition Written : Type := ((Member -> bool) * LnkFileInfo)%type.

Definition nothing_written : Written :=
  (fun _ => false, mkLnkFileInfo [] [] [] [] [] [] [] [] [] 0 0 0 0 0 false).

(** The assignment to member [x] that the setter [set] makes, recorded. *)
Definition wrote (x : Member) (set : LnkFileInfo -> LnkFileInfo) (w : Written)
    : Written :=
  (fun y => Nat.eqb (Member_index x) (Member_index y) || fst w y, set (snd w)).

(** The object [o] with the members written replaced by the values
    written. *)
Definition overwrite (w : Written) (o : LnkFileInfo) : LnkFileInfo :=
  let pick {A} (x : Member) (member : LnkFileInfo -> A) : A :=
    if fst w x then member (snd w) else member o in
  mkLnkFileInfo (_filePath o) (_absoluteFilePath o)
    (pick member_targetPath _targetPath)
    (pick member_targetVolumeName _targetVolumeName)
    (pick member_description _description)
    (pick member_relativeTargetPath _relativeTargetPath)
    (pick member_workingDirectory _workingDirectory)
    (pick member_commandLineArgs _commandLineArgs)
    (pick member_iconPath _iconPath)
    (pick member_targetSize _targetSize)
    (pick member_iconIndex _iconIndex)
    (pick member_targetVolumeSerial _targetVolumeSerial)
    (pick member_targetAttributes _targetAttributes)
    (pick member_targetVolumeType _targetVolumeType)
    (pick member_targetIsOnNetwork _targetIsOnNetwork).

(** [writes m w0 Q]: run on any object in which [w0] has been written, [m]
    makes the same reads and ends in the same way, and leaves the object
    with some [w] written, the same [w] for every object; when it returns
    [a], then [Q a w]. *)
Definition writes {A} (m : Method A) (w0 : Written)
    (Q : A -> Written -> Prop) : Prop :=
  exists w trace result,
    (forall this, m (overwrite w0 this) = (overwrite w this, (trace, result)))
    /\ (forall a, result = Returned a -> Q a w).

(** ** Pairs of buffers *)

(** Two buffers that differ at most in the two lowest bits of the byte at
    offset 20. *)
Definition differ_in_low_flag_bits (a b : list byte) : Prop :=
  List.length a = List.length b
  /\ (forall k, k <> 20%nat -> nth_error a k = nth_error b k)
  /\ Z.land (byte_at a 20) 0xFC = Z.land (byte_at b 20) 0xFC.

(** None of the sums that locate a field after the LinkInfo start wraps
    around: every such field lies after the header. *)
Definition offsets_do_not_wrap (bytes : list byte) : Prop :=
  let start := linkInfoStart bytes in
  78 + little_endian uint16_t bytes 76 < 2 ^ 16
  /\ start + little_endian uint32_t bytes start < 2 ^ 32
  /\ if networkFlag bytes
     then start + little_endian uint32_t bytes (start + 20) + 21 < 2 ^ 32
     else start + little_endian uint32_t bytes (start + 12) + 16 < 2 ^ 32
          /\ start + little_endian uint32_t bytes (start + 16) < 2 ^ 32.

(** ** Runs of version 1.0.1 *)

(** An outcome of version 2.0.1 as version 1.0.1 has it: the exceptions of
    the class are [std::runtime_error] with the same text. *)
Definition v1_outcome {A} (o : outcome A) : V1.outcome A :=
  match o with
  | Returned a => V1.Returned a
  | Thrown (IoError what) => V1.Thrown (V1.std_runtime_error what)
  | Thrown (InvalidLnkFile what) => V1.Thrown (V1.std_runtime_error what)
  | Thrown std_out_of_range => V1.Thrown V1.std_out_of_range
  | OutOfFuel => V1.OutOfFuel
  end.

(** A computation that throws nothing but [std::runtime_error], and whose
    fuel suffices. *)
Definition v1_safe {A} (m : V1.Read A) : Prop :=
  (forall e, m = V1.Thrown e -> exists what, e = V1.std_runtime_error what)
  /\ m <> V1.OutOfFuel.

(** An object that has the file path and the validity of [this]. *)
Definition v1_same_identity (this o : V1.LnkFileInfo) : Prop :=
  V1._filePath o = V1._filePath this /\ V1._isValid o = V1._isValid this.

(** [v1_sound this r]: the run [r] of a member function on [this] is safe,
    and has changed neither [_filePath] nor [_isValid]. *)
Definition v1_sound {A} (this : V1.LnkFileInfo)
    (r : V1.LnkFileInfo * V1.Read A) : Prop :=
  v1_safe (snd r) /\ v1_same_identity this (fst r).

(** * Example files and objects *)

(** [place data offset buffer]: [buffer] with [data] written from [offset]. *)
Fixpoint place (data : list byte) (offset : nat) (buffer : list byte) : list byte :=
  match offset, buffer with
  | O, _ => data ++ skipn (List.length data) buffer
  | S offset', b :: buffer' => b :: place data offset' buffer'
  | S offset', [] => x00 :: place data offset' []
  end.

(** The bytes of a text. *)
Definition text (s : string) : std_string := list_byte_of_string s.

(** A link to the local file [C:\a], with no flag set.  Offset 0: the magic
    byte.  24: the attributes (Archive).  52: the target size 12.
    76: zero bytes of extra header, so the LinkInfo structure starts at 78.
    78: its size 51.  82: the structure-size byte 0x1C.  86: local volume.
    90: the volume table is 28 bytes on, at 106.  94: the path is 46 bytes
    on, at 124.  110: volume type 3, at 114 the serial, at 122 the volume
    name [W].  124: the path [C:\a] and its terminator.  129 bytes. *)
Definition plain_link : list byte :=
  place [x4c] 0
    (place [x20; x00] 24
    (place [x0c; x00; x00; x00] 52
    (place [x33; x00; x00; x00; x1c; x00; x00; x00; x01; x00; x00; x00;
            x1c; x00; x00; x00; x2e; x00; x00; x00] 78
    (place [x03; x00; x00; x00; x63; x6f; x6b; x6e] 110
    (place (text "W") 122
    (place (text "C:\a") 124
    (repeat x00 129))))))).

(** The first 83 bytes of a link: magic byte, attributes (Hidden), target
    size 7 and the structure-size byte 0x1C at 82, and nothing after it. *)
Definition cut_short_link : list byte :=
  place [x4c] 0
    (place [x02; x00] 24
    (place [x07; x00; x00; x00] 52
    (place [x1c] 82
    (repeat x00 83)))).

(** An object as a successful decoding leaves it: the link had a custom
    icon, number 8 of [i.dll]. *)
Definition decoded_with_icon : LnkFileInfo :=
  mkLnkFileInfo (text "s.lnk") (text "C:\s.lnk") (text "C:\b") (text "V")
    (text "note") (text ".\b") (text "C:\") [] (text "i.dll")
    12 8 1852545763 0x20 HardDrive false.

(** A link to a local file in the extended format: [plain_link] with the
    structure-size byte 0x24 at 82 and, from 124 on, the Latin-1 path [A],
    its terminator, the byte 0x43, and the code unit 0042 (the letter B). *)
Definition extended_link : list byte :=
  place [x24] 82 (place [x41; x00; x43; x42; x00] 124 plain_link).

(** A link to a network target in the extended format.  82: the
    structure-size byte 0x24.  86: the network bit.  98: the share table is
    24 bytes on, at 102.  122: the empty share name.  123: the drive [D:].
    126: the remainder [T].  132: the code units W X Y Z.  140 bytes. *)
Definition network_link_extended : list byte :=
  place [x4c] 0
    (place [x3e; x00; x00; x00; x24; x00; x00; x00; x02; x00; x00; x00] 78
    (place [x18; x00; x00; x00] 98
    (place (text "D:") 123
    (place (text "T") 126
    (place [x57; x00; x58; x00; x59; x00; x5a; x00] 132
    (repeat x00 140)))))).

(** A link to a network target.  82: the structure-size byte 0x1C.  86: the
    network bit.  98: the share table is 24 bytes on, at 102.  122: the
    share name [SRV].  126: the drive [D:].  129: the remainder, [T] and E9
    (e with acute accent).  140 bytes. *)
Definition network_link : list byte :=
  place [x4c] 0
    (place [x3e; x00; x00; x00; x1c; x00; x00; x00; x02; x00; x00; x00] 78
    (place [x18; x00; x00; x00] 98
    (place (text "SRV") 122
    (place (text "D:") 126
    (place [x54; xe9] 129
    (repeat x00 140)))))).

(** A link to a network target whose share name has a character above 0x7F.
    82: the structure-size byte 0x1C.  86: the network bit.  98: the share
    table is 24 bytes on, at 102.  122: the share name [E9] (e with acute
    accent) and its terminator.  124: the drive [D:].  127: the remainder
    [T].  140 bytes. *)
Definition network_link_latin1_share : list byte :=
  place [x4c] 0
    (place [x3e; x00; x00; x00; x1c; x00; x00; x00; x02; x00; x00; x00] 78
    (place [x18; x00; x00; x00] 98
    (place [xe9] 122
    (place (text "D:") 124
    (place (text "T") 127
    (repeat x00 140)))))).

(** A link whose volume table offset wraps around.  82: the structure-size
    byte 0x1C.  86: local volume.  90: the volume table offset FFFFFFC2,
    which added to 78 wraps to 16, so that the volume type is read at 20,
    where the flag byte [flags] is.  94: the path is 5 bytes on, at 83, and
    is empty.  98 bytes. *)
Definition aliased_link (flags : byte) : list byte :=
  place [x4c] 0
    (place [flags] 20
    (place [x00; x00; x00; x00; x1c; x00; x00; x00; x00; x00; x00; x00;
            xc2; xff; xff; xff; x05; x00; x00; x00] 78
    (repeat x00 98))).

(** A link with a description, command line arguments and a custom icon:
    [plain_link] with the flag byte 0x64 at 20, the icon index 8 at 56, and,
    from 129 on, the strings [hi], [-v] and [i.dll].  153 bytes. *)
Definition link_with_strings : list byte :=
  place [x64] 20
    (place [x08; x00; x00; x00] 56
    (place (little_endian_bytes uint16_t 2 ++ utf16le [0x68; 0x69]
            ++ little_endian_bytes uint16_t 2 ++ utf16le [0x2D; 0x76]
            ++ little_endian_bytes uint16_t 5
            ++ utf16le [0x69; 0x2E; 0x64; 0x6C; 0x6C]) 129
    plain_link)).

(** A link to a local file in the extended format whose Latin-1 path has a
    character above 0x7F: [plain_link] with the structure-size byte 0x24 at
    82 and, from 124 on, the Latin-1 path [E4] (a with diaeresis), its
    terminator, and, from 128 on, the code units 00E4 and 0062.  132
    bytes. *)
Definition extended_link_latin1 : list byte :=
  place [x24] 82
    (place [xe4; x00; x00; x00; xe4; x00; x62; x00] 124 plain_link).

(** * Properties *)

(** ** The two monads *)

Lemma value_bind {A B} (m : Read A) (f : A -> Read B) :
  value (bind m f) =
  match value m with
  | Returned a => value (f a)
  | Thrown e => Thrown e
  | OutOfFuel => OutOfFuel
  end.
Proof. unfold bind, value. destruct (snd m); reflexivity. Qed.

Lemma events_bind {A B} (m : Read A) (f : A -> Read B) :
  events (bind m f) =
  match value m with
  | Returned a => events m ++ events (f a)
  | _ => events m
  end.
Proof. unfold bind, events, value. destruct (snd m); reflexivity. Qed.

Lemma value_ret {A} (a : A) : value (ret a) = Returned a.
Proof. reflexivity. Qed.

Lemma bind_Returned {A B} (m : Read A) (f : A -> Read B) (b : B) :
  value (bind m f) = Returned b ->
  exists a, value m = Returned a /\ value (f a) = Returned b.
Proof.
  rewrite value_bind. destruct (value m) as [a | e |]; try discriminate.
  intros H. exists a. split; [reflexivity | exact H].
Qed.

Lemma result_mbind {A B} (m : Method A) (f : A -> Method B) (this : LnkFileInfo) :
  result_of (mbind m f this) =
  match result_of (m this) with
  | Returned a => result_of (f a (object_after (m this)))
  | Thrown e => Thrown e
  | OutOfFuel => OutOfFuel
  end.
Proof.
  unfold mbind, result_of, object_after.
  destruct (value (snd (m this))); reflexivity.
Qed.

Lemma object_mbind {A B} (m : Method A) (f : A -> Method B) (this : LnkFileInfo) :
  object_after (mbind m f this) =
  match result_of (m this) with
  | Returned a => object_after (f a (object_after (m this)))
  | _ => object_after (m this)
  end.
Proof.
  unfold mbind, result_of, object_after.
  destruct (value (snd (m this))); reflexivity.
Qed.

Lemma reads_mbind {A B} (m : Method A) (f : A -> Method B) (this : LnkFileInfo) :
  reads_of (mbind m f this) =
  match result_of (m this) with
  | Returned a => reads_of (m this) ++ reads_of (f a (object_after (m this)))
  | _ => reads_of (m this)
  end.
Proof.
  unfold mbind, result_of, object_after, reads_of.
  destruct (value (snd (m this))); reflexivity.
Qed.

(** ** Bytes and characters *)

Lemma byte_value_range (b : byte) : 0 <= byte_value b < 256.
Proof.
  unfold byte_value. pose proof (Byte.to_N_bounded b). lia.
Qed.

Lemma to_char_byte_value (b : byte) : to_char (byte_value b) = b.
Proof.
  unfold to_char. pose proof (byte_value_range b) as Hb.
  rewrite Z.mod_small by exact Hb.
  unfold byte_value. rewrite N2Z.id, Byte.of_to_N. reflexivity.
Qed.

Lemma byte_value_to_char (z : Z) : 0 <= z < 256 -> byte_value (to_char z) = z.
Proof.
  intros Hz. unfold to_char, byte_value. rewrite Z.mod_small by exact Hz.
  destruct (Byte.of_N (Z.to_N z)) as [b |] eqn:E.
  - apply Byte.to_of_N in E. rewrite E. lia.
  - apply Byte.of_N_None_iff in E. lia.
Qed.

Lemma byte_value_inj (a b : byte) : byte_value a = byte_value b -> a = b.
Proof.
  intros H. rewrite <- (to_char_byte_value a), <- (to_char_byte_value b), H.
  reflexivity.
Qed.

(** ** [readInteger]: the value read *)

Lemma byte_at_range (bytes : list byte) (k : Z) : 0 <= byte_at bytes k < 256.
Proof. apply byte_value_range. Qed.

Lemma little_endian_range (T : IntegerType) (bytes : list byte) (i : Z) :
  0 <= little_endian T bytes i < 2 ^ (8 * sizeof T).
Proof.
  destruct T; cbn [little_endian sizeof];
    repeat match goal with
      | |- context [byte_at ?b ?k] =>
          let H := fresh in pose proof (byte_at_range b k) as H;
          generalize dependent (byte_at b k); intros
      end; lia.
Qed.

Lemma value_vector_at (bytes : list byte) (k : Z) :
  0 <= k < size bytes -> value (vector_at bytes k) = Returned (byte_at bytes k).
Proof.
  intros Hk. unfold vector_at. rewrite value_bind. cbn [value emit snd].
  destruct (k <? 0) eqn:E; [lia |].
  unfold size in Hk.
  destruct (nth_error bytes (Z.to_nat k)) as [b |] eqn:En.
  - unfold byte_at. rewrite (nth_error_nth _ _ _ En). reflexivity.
  - apply nth_error_None in En. lia.
Qed.

Lemma events_vector_at (bytes : list byte) (k : Z) :
  events (vector_at bytes k) = [At k].
Proof.
  unfold vector_at. rewrite events_bind. cbn [value emit snd events fst].
  destruct (k <? 0); [reflexivity |].
  destruct (nth_error bytes (Z.to_nat k)); reflexivity.
Qed.

Lemma value_readInteger (T : IntegerType) (bytes : list byte) (i : Z) :
  0 <= i ->
  value (readInteger T bytes i) =
  if i + sizeof T >? size bytes
  then Thrown (InvalidLnkFile "Index out of range")
  else Returned (little_endian T bytes i).
Proof.
  intros Hi. unfold readInteger. rewrite value_bind. cbn [value emit snd].
  destruct (i + sizeof T >? size bytes) eqn:E; [reflexivity |].
  assert (Hle : i + sizeof T <= size bytes) by lia. clear E.
  destruct T; cbn [sizeof] in Hle;
    [ change (Z.to_nat (sizeof uint8_t)) with 1%nat
    | change (Z.to_nat (sizeof uint16_t)) with 2%nat
    | change (Z.to_nat (sizeof uint32_t)) with 4%nat ];
    cbn [readInteger_for];
    repeat (rewrite value_bind; rewrite value_vector_at by lia);
    rewrite value_ret; f_equal; cbn [little_endian];
    replace (i + 0) with i by lia; replace (0 + 1) with 1 by lia;
    try replace (1 + 1) with 2 by lia; try replace (2 + 1) with 3 by lia;
    repeat match goal with
      | |- context [byte_at ?b ?k] =>
          let H := fresh in pose proof (byte_at_range b k) as H;
          generalize dependent (byte_at b k); intros
      end;
    unfold cast; cbn [sizeof]; change (Z.shiftl 1 (0 * 8)) with 1;
    change (Z.shiftl 1 (1 * 8)) with (2 ^ 8);
    try change (Z.shiftl 1 (2 * 8)) with (2 ^ 16);
    try change (Z.shiftl 1 (3 * 8)) with (2 ^ 24);
    change (2 ^ (8 * 1)) with 256; change (2 ^ (8 * 2)) with 65536;
    change (2 ^ (8 * 4)) with 4294967296; change (2 ^ 8) with 256;
    change (2 ^ 16) with 65536; change (2 ^ 24) with 16777216;
    Z.div_mod_to_equations; lia.
Qed.

Lemma result_read {A} (r : Read A) (this : LnkFileInfo) :
  result_of (read r this) = value r.
Proof. reflexivity. Qed.

Lemma object_read {A} (r : Read A) (this : LnkFileInfo) :
  object_after (read r this) = this.
Proof. reflexivity. Qed.

(** ** The magic byte *)

(** C8.  A buffer whose first byte is not 0x4C (the letter L), or that has
    no first byte at all, makes [refresh] throw [InvalidLnkFile], whatever
    else the buffer holds; no member of the object has been written. *)
Theorem refresh_rejects_wrong_magic (bytes : list byte) (this : LnkFileInfo) :
  nth_error bytes 0 <> Some x4c ->
  (exists what,
      result_of (refresh (Some bytes) this) = Thrown (InvalidLnkFile what))
  /\ object_after (refresh (Some bytes) this) = this.
Proof.
  intros Hmagic. unfold refresh.
  rewrite result_mbind, object_mbind. cbn [mret result_of object_after value ret snd fst].
  rewrite result_mbind, object_mbind, result_read, object_read.
  rewrite value_readInteger by lia. cbn [sizeof].
  destruct (0 + 1 >? size bytes) eqn:Esize.
  - split; [eexists; reflexivity | reflexivity].
  - rewrite result_mbind, object_mbind.
    destruct bytes as [| b rest]; [cbn in Esize; discriminate |].
    change (little_endian uint8_t (b :: rest) 0) with (byte_value b).
    destruct (byte_value b =? 0x4C) eqn:Eb.
    + exfalso. apply Hmagic. cbn [nth_error]. f_equal.
      apply byte_value_inj. apply Z.eqb_eq in Eb. rewrite Eb. reflexivity.
    + cbn [negb]. split; [eexists; reflexivity | reflexivity].
Qed.

(** The magic check at work: a buffer that starts with the letter K. *)
Lemma refresh_rejects_wrong_magic_witness :
  (exists what,
      result_of (refresh (Some [x4b; x00; x00])
                   (mkLnkFileInfo [] [] [] [] [] [] [] [] [] 0 0 0 0 0 false))
      = Thrown (InvalidLnkFile what))
  /\ object_after (refresh (Some [x4b; x00; x00])
                     (mkLnkFileInfo [] [] [] [] [] [] [] [] [] 0 0 0 0 0 false))
     = mkLnkFileInfo [] [] [] [] [] [] [] [] [] 0 0 0 0 0 false.
Proof.
  apply (refresh_rejects_wrong_magic [x4b; x00; x00]).
  cbn. discriminate.
Defined.

(** ** Bit operations as arithmetic *)

Lemma land_shiftl_mask (x m n : Z) :
  0 <= n -> Z.land x (Z.shiftl m n) = Z.shiftl (Z.land (Z.shiftr x n) m) n.
Proof.
  intros Hn. apply Z.bits_inj'. intros k Hk.
  rewrite Z.land_spec. destruct (Z.ltb_spec k n) as [Hlt | Hge].
  - rewrite !Z.shiftl_spec_low by exact Hlt. apply andb_false_r.
  - rewrite !Z.shiftl_spec_high by lia.
    rewrite Z.land_spec, Z.shiftr_spec by lia.
    replace (k - n + n) with k by lia. reflexivity.
Qed.

Lemma land_low_bits (x n : Z) : 0 <= n -> Z.land x (2 ^ n - 1) = x mod 2 ^ n.
Proof.
  intros Hn. rewrite <- Z.land_ones by exact Hn.
  rewrite Z.ones_equiv, <- Z.sub_1_r. reflexivity.
Qed.

Lemma lor_shiftl_low (q a k : Z) :
  0 <= k -> 0 <= a < 2 ^ k -> Z.lor (Z.shiftl q k) a = q * 2 ^ k + a.
Proof.
  intros Hk Ha.
  assert (Hdisjoint : Z.land (Z.shiftl q k) a = 0).
  { apply Z.bits_inj'. intros n Hn. rewrite Z.land_spec, Z.bits_0.
    destruct (Z.ltb_spec n k) as [Hlt | Hge].
    - rewrite Z.shiftl_spec_low by exact Hlt. reflexivity.
    - assert (Ha' : Z.testbit a n = false).
      { apply Z.testbit_false; [exact Hn |].
        rewrite Z.div_small; [reflexivity |].
        split; [lia |]. apply Z.lt_le_trans with (2 ^ k); [lia |].
        apply Z.pow_le_mono_r; lia. }
      rewrite Ha'. apply andb_false_r. }
  rewrite <- Z.lxor_lor, <- Z.add_nocarry_lxor by exact Hdisjoint.
  rewrite Z.shiftl_mul_pow2 by exact Hk. reflexivity.
Qed.

Lemma lor_low_shiftl (q a k : Z) :
  0 <= k -> 0 <= a < 2 ^ k -> Z.lor a (Z.shiftl q k) = q * 2 ^ k + a.
Proof. intros. rewrite Z.lor_comm. apply lor_shiftl_low; assumption. Qed.

(** The masks of [readUtf16Codepoint] on a 16-bit code unit. *)
Lemma generic_surrogate_test (u : Z) :
  0 <= u < 2 ^ 16 ->
  (Z.land u GENERIC_SURROGATE_MASK =? GENERIC_SURROGATE_VALUE)
  = (0xD800 <=? u) && (u <=? 0xDFFF).
Proof.
  intros Hu. unfold GENERIC_SURROGATE_MASK, GENERIC_SURROGATE_VALUE.
  change 0xF800 with (Z.shiftl (2 ^ 5 - 1) 11).
  rewrite land_shiftl_mask, land_low_bits by lia.
  rewrite Z.shiftr_div_pow2, Z.shiftl_mul_pow2 by lia.
  change (2 ^ 11) with 2048. change (2 ^ 5) with 32. change (2 ^ 16) with 65536 in Hu.
  destruct (Z.eqb_spec (u / 2048 mod 32 * 2048) 55296),
    (Z.leb_spec 55296 u), (Z.leb_spec u 57343); cbn [andb];
    try reflexivity; exfalso; Z.div_mod_to_equations; lia.
Qed.

Lemma surrogate_test (u v : Z) :
  0 <= u < 2 ^ 16 -> 0 <= v < 64 ->
  (Z.land u SURROGATE_MASK =? v * 1024)
  = (v * 1024 <=? u) && (u <=? v * 1024 + 1023).
Proof.
  intros Hu Hv. unfold SURROGATE_MASK.
  change 0xFC00 with (Z.shiftl (2 ^ 6 - 1) 10).
  rewrite land_shiftl_mask, land_low_bits by lia.
  rewrite Z.shiftr_div_pow2, Z.shiftl_mul_pow2 by lia.
  change (2 ^ 10) with 1024. change (2 ^ 6) with 64. change (2 ^ 16) with 65536 in Hu.
  destruct (Z.eqb_spec (u / 1024 mod 64 * 1024) (v * 1024)),
    (Z.leb_spec (v * 1024) u), (Z.leb_spec u (v * 1024 + 1023)); cbn [andb];
    try reflexivity; exfalso; Z.div_mod_to_equations; lia.
Qed.

Lemma surrogate_payload (u : Z) : Z.land u SURROGATE_CODEPOINT_MASK = u mod 1024.
Proof.
  unfold SURROGATE_CODEPOINT_MASK. change 0x03FF with (2 ^ 10 - 1).
  rewrite land_low_bits by lia. reflexivity.
Qed.

Lemma surrogate_pair_value (high low : Z) :
  Z.lor (Z.shiftl (Z.land high SURROGATE_CODEPOINT_MASK) SURROGATE_CODEPOINT_BITS)
        (Z.land low SURROGATE_CODEPOINT_MASK)
  = high mod 1024 * 1024 + low mod 1024.
Proof.
  rewrite !surrogate_payload. unfold SURROGATE_CODEPOINT_BITS.
  rewrite lor_shiftl_low; [reflexivity | lia |].
  change (2 ^ 10) with 1024. Z.div_mod_to_equations; lia.
Qed.

(** ** The UTF-8 bytes that [readUtf16Codepoint] writes *)

Lemma lor_continuation (c : Z) : Z.lor (Z.land c 0x3F) 0x80 = 0x80 + c mod 0x40.
Proof.
  change 0x3F with (2 ^ 6 - 1). rewrite land_low_bits by lia.
  change 0x80 with (Z.shiftl 2 6) at 1.
  rewrite lor_low_shiftl; [reflexivity | lia |].
  change (2 ^ 6) with 64. Z.div_mod_to_equations; lia.
Qed.

Lemma lor_lead (c k q : Z) :
  0 <= k -> Z.lor (Z.land c (2 ^ k - 1)) (Z.shiftl q k) = q * 2 ^ k + c mod 2 ^ k.
Proof.
  intros Hk. rewrite land_low_bits by exact Hk.
  apply lor_low_shiftl; [exact Hk |]. apply Z.mod_pos_bound.
  apply Z.pow_pos_nonneg; lia.
Qed.

Lemma lor_lead2 (c : Z) : Z.lor (Z.land c 0x1F) 0xC0 = 0xC0 + c mod 0x20.
Proof.
  change 0x1F with (2 ^ 5 - 1). change 0xC0 with (Z.shiftl 6 5) at 1.
  rewrite lor_lead by lia. reflexivity.
Qed.

Lemma lor_lead3 (c : Z) : Z.lor (Z.land c 0x0F) 0xE0 = 0xE0 + c mod 0x10.
Proof.
  change 0x0F with (2 ^ 4 - 1). change 0xE0 with (Z.shiftl 14 4) at 1.
  rewrite lor_lead by lia. reflexivity.
Qed.

Lemma lor_lead4 (c : Z) : Z.lor (Z.land c 0x07) 0xF0 = 0xF0 + c mod 0x08.
Proof.
  change 0x07 with (2 ^ 3 - 1). change 0xF0 with (Z.shiftl 30 3) at 1.
  rewrite lor_lead by lia. reflexivity.
Qed.

Ltac same_bytes :=
  repeat match goal with
    | |- _ :: _ = _ :: _ => f_equal
    | |- to_char _ = to_char _ => f_equal
    end;
  try reflexivity; Z.div_mod_to_equations; lia.

Lemma utf8_for_encodes (cp : Z) :
  0 <= cp <= 0x10FFFF ->
  let numberOfBytes :=
    if cp >? 0xFFFF then 4
    else if cp >? 0x7FF then 3
    else if cp >? 0x7F then 2 else 1 in
  utf8_for numberOfBytes (Z.to_nat numberOfBytes) cp 0x3F 0x80 [] = utf8_encode cp.
Proof.
  intros Hcp. unfold utf8_encode. cbv zeta.
  destruct (Z.gtb_spec cp 0xFFFF) as [H4 | H4].
  - destruct (Z.ltb_spec cp 0x80); [lia |].
    destruct (Z.ltb_spec cp 0x800); [lia |].
    destruct (Z.ltb_spec cp 0x10000); [lia |].
    change (Z.to_nat 4) with 4%nat. cbn [utf8_for Nat.eqb].
    rewrite !lor_continuation, lor_lead4, !Z.shiftr_div_pow2 by lia.
    change (2 ^ 6) with 64. same_bytes.
  - destruct (Z.gtb_spec cp 0x7FF) as [H3 | H3].
    + destruct (Z.ltb_spec cp 0x80); [lia |].
      destruct (Z.ltb_spec cp 0x800); [lia |].
      destruct (Z.ltb_spec cp 0x10000); [| lia].
      change (Z.to_nat 3) with 3%nat. cbn [utf8_for Nat.eqb].
      rewrite !lor_continuation, lor_lead3, !Z.shiftr_div_pow2 by lia.
      change (2 ^ 6) with 64. same_bytes.
    + destruct (Z.gtb_spec cp 0x7F) as [H2 | H2].
      * destruct (Z.ltb_spec cp 0x80); [lia |].
        destruct (Z.ltb_spec cp 0x800); [| lia].
        change (Z.to_nat 2) with 2%nat. cbn [utf8_for Nat.eqb].
        rewrite !lor_continuation, lor_lead2, !Z.shiftr_div_pow2 by lia.
        change (2 ^ 6) with 64. same_bytes.
      * destruct (Z.ltb_spec cp 0x80); [| lia].
        change (Z.to_nat 1) with 1%nat. cbn [utf8_for Nat.eqb].
        change 0x7F with (2 ^ 7 - 1). rewrite Z.lor_0_r, land_low_bits by lia.
        change (2 ^ 7) with 128. rewrite Z.mod_small by lia. reflexivity.
Qed.

(** ** [readUtf16Codepoint] in closed form *)

Lemma value_readUtf16Codepoint (bytes : list byte) (i end_ : Z) :
  0 <= i -> value (readUtf16Codepoint bytes i end_) = utf16_step bytes i end_.
Proof.
  intros Hi. unfold readUtf16Codepoint, utf16_step.
  rewrite value_bind, value_readInteger by exact Hi. cbn [sizeof].
  destruct (i + 2 >? size bytes); [reflexivity |].
  pose proof (little_endian_range uint16_t bytes i) as Hhigh.
  cbn [sizeof] in Hhigh. change (2 ^ (8 * 2)) with (2 ^ 16) in Hhigh.
  set (high := little_endian uint16_t bytes i) in *.
  rewrite value_bind, generic_surrogate_test by exact Hhigh.
  fold (is_surrogate high).
  destruct (is_surrogate high) eqn:Esur; cbn [negb].
  - change HIGH_SURROGATE_VALUE with (54 * 1024).
    rewrite surrogate_test by lia.
    change (54 * 1024) with 0xD800. change (55296 + 1023) with 0xDBFF.
    fold (is_high_surrogate high).
    destruct (negb (is_high_surrogate high) || (end_ <? i + 4)) eqn:Ehigh.
    + rewrite value_ret, value_ret. f_equal.
    + apply orb_false_elim in Ehigh. destruct Ehigh as [Ehigh _].
      apply negb_false_iff in Ehigh.
      rewrite value_bind, value_readInteger by lia. cbn [sizeof].
      replace (i + 2 + 2) with (i + 4) by lia.
      destruct (i + 4 >? size bytes); [reflexivity |].
      pose proof (little_endian_range uint16_t bytes (i + 2)) as Hlow.
      cbn [sizeof] in Hlow. change (2 ^ (8 * 2)) with (2 ^ 16) in Hlow.
      set (low := little_endian uint16_t bytes (i + 2)) in *.
      change LOW_SURROGATE_VALUE with (55 * 1024).
      rewrite surrogate_test by lia.
      change (55 * 1024) with 0xDC00. change (56320 + 1023) with 0xDFFF.
      fold (is_low_surrogate low).
      destruct (is_low_surrogate low) eqn:Elow; cbn [negb].
      * rewrite value_ret, value_ret, surrogate_pair_value.
        unfold is_high_surrogate in Ehigh. unfold is_low_surrogate in Elow.
        unfold SURROGATE_CODEPOINT_OFFSET, cast. cbn [sizeof].
        change (2 ^ (8 * 4)) with 4294967296.
        assert (Hcp : (high mod 1024 * 1024 + low mod 1024 + 65536) mod 4294967296
                      = 65536 + (high - 55296) * 1024 + (low - 56320))
          by (Z.div_mod_to_equations; lia).
        rewrite Hcp. change (2 + 2) with 4.
        rewrite utf8_for_encodes by lia. reflexivity.
      * rewrite value_ret, value_ret. f_equal.
  - rewrite value_ret, value_ret.
    rewrite utf8_for_encodes by lia. reflexivity.
Qed.

(** ** Reading inside a buffer given by its parts *)

Lemma size_app {A} (l l' : list A) : size (l ++ l') = size l + size l'.
Proof. unfold size. rewrite length_app. lia. Qed.

Lemma size_cons {A} (a : A) (l : list A) : size (a :: l) = 1 + size l.
Proof. unfold size. cbn [List.length]. lia. Qed.

Lemma size_nonneg {A} (l : list A) : 0 <= size l.
Proof. unfold size. lia. Qed.

Lemma byte_at_app (pre l : list byte) (k : Z) :
  0 <= k -> byte_at (pre ++ l) (size pre + k) = byte_at l k.
Proof.
  intros Hk. unfold byte_at, size.
  replace (Z.to_nat (Z.of_nat (List.length pre) + k))
    with (List.length pre + Z.to_nat k)%nat by lia.
  rewrite app_nth2_plus. reflexivity.
Qed.

Lemma little_endian16_app (pre post : list byte) (b0 b1 : byte) (k : Z) :
  k = size pre ->
  little_endian uint16_t (pre ++ b0 :: b1 :: post) k
  = byte_value b0 + 2 ^ 8 * byte_value b1.
Proof.
  intros ->. cbn [little_endian].
  rewrite <- (Z.add_0_r (size pre)) at 1.
  rewrite !byte_at_app by lia. reflexivity.
Qed.

Lemma code_unit_bytes (u : Z) :
  0 <= u < 2 ^ 16 ->
  byte_value (to_char (u mod 256)) + 2 ^ 8 * byte_value (to_char (u / 256)) = u.
Proof.
  intros Hu. change (2 ^ 16) with 65536 in Hu.
  rewrite !byte_value_to_char by (Z.div_mod_to_equations; lia).
  change (2 ^ 8) with 256. Z.div_mod_to_equations; lia.
Qed.

(** ** Round trip of one code point *)

Lemma utf16_step_encoded (cp : Z) (pre post : list byte) (end_ : Z) :
  is_scalar_value cp ->
  size pre + size (utf16le (utf16_encode cp)) <= end_ ->
  utf16_step (pre ++ utf16le (utf16_encode cp) ++ post) (size pre) end_
  = Returned (utf8_encode cp, size (utf16le (utf16_encode cp))).
Proof.
  intros [Hrange Hsur] Hend.
  pose proof (size_nonneg pre) as Hpre.
  unfold utf16_step, utf16_encode in *.
  destruct (Z.ltb_spec cp 0x10000) as [Hbmp | Hsupp].
  - (* one code unit *)
    cbn [utf16le flat_map app] in *.
    rewrite !size_app, !size_cons.
    pose proof (size_nonneg post).
    destruct (Z.gtb_spec (size pre + 2) (size pre + (1 + (1 + size post)))); [lia |].
    rewrite little_endian16_app by reflexivity.
    rewrite code_unit_bytes by (change (2 ^ 16) with 65536; lia).
    unfold is_surrogate.
    destruct (Z.leb_spec 0xD800 cp), (Z.leb_spec cp 0xDFFF); cbn [andb negb];
      try reflexivity; lia.
  - (* a surrogate pair *)
    cbn [utf16le flat_map app] in *.
    set (high := 0xD800 + (cp - 0x10000) / 0x400) in *.
    set (low := 0xDC00 + (cp - 0x10000) mod 0x400) in *.
    assert (Hhigh : 0xD800 <= high <= 0xDBFF)
      by (subst high; Z.div_mod_to_equations; lia).
    assert (Hlow : 0xDC00 <= low <= 0xDFFF)
      by (subst low; Z.div_mod_to_equations; lia).
    change (size [_; _; _; _]) with 4 in *.
    rewrite !size_app, !size_cons.
    pose proof (size_nonneg post).
    destruct (Z.gtb_spec (size pre + 2)
                (size pre + (1 + (1 + (1 + (1 + size post)))))); [lia |].
    rewrite little_endian16_app by reflexivity.
    rewrite code_unit_bytes by (change (2 ^ 16) with 65536; lia).
    replace (is_surrogate high) with true
      by (unfold is_surrogate; symmetry; apply andb_true_iff; lia).
    replace (is_high_surrogate high) with true
      by (unfold is_high_surrogate; symmetry; apply andb_true_iff; lia).
    cbn [negb orb].
    destruct (Z.ltb_spec end_ (size pre + 4)); [lia |].
    destruct (Z.gtb_spec (size pre + 4)
                (size pre + (1 + (1 + (1 + (1 + size post)))))); [lia |].
    change (pre ++ ?a :: ?b :: ?c :: ?d :: post)
      with (pre ++ [a; b] ++ c :: d :: post).
    rewrite app_assoc.
    rewrite little_endian16_app
      by (rewrite size_app; reflexivity).
    rewrite code_unit_bytes by (change (2 ^ 16) with 65536; lia).
    replace (is_low_surrogate low) with true
      by (unfold is_low_surrogate; symmetry; apply andb_true_iff; lia).
    cbn [negb]. f_equal. f_equal. f_equal.
    subst high low. Z.div_mod_to_equations; lia.
Qed.

(** C4.  For every Unicode scalar value (a code point up to U+10FFFF that
    is not a surrogate), the bytes of its UTF-16 encoding, one code unit or
    a surrogate pair, placed anywhere in a buffer and lying before the end
    bound, are decoded by [readUtf16Codepoint] to exactly the UTF-8
    encoding of the code point, and the number of bytes read is the size of
    the UTF-16 encoding. *)
Theorem readUtf16Codepoint_round_trip (cp : Z) (pre post : list byte) (end_ : Z) :
  is_scalar_value cp ->
  size pre + size (utf16le (utf16_encode cp)) <= end_ ->
  value (readUtf16Codepoint (pre ++ utf16le (utf16_encode cp) ++ post)
           (size pre) end_)
  = Returned (utf8_encode cp, size (utf16le (utf16_encode cp))).
Proof.
  intros Hscalar Hend.
  rewrite value_readUtf16Codepoint by apply size_nonneg.
  apply utf16_step_encoded; assumption.
Qed.

(** The round trip of U+1F60A, a smiling face, stored after one other byte. *)
Lemma readUtf16Codepoint_round_trip_witness :
  value (readUtf16Codepoint ([x00] ++ utf16le (utf16_encode 0x1F60A) ++ []) (size [x00]) 5)
  = Returned (utf8_encode 0x1F60A, size (utf16le (utf16_encode 0x1F60A))).
Proof.
  apply (readUtf16Codepoint_round_trip 0x1F60A [x00] [] 5).
  - unfold is_scalar_value. lia.
  - vm_compute. discriminate.
Defined.

(** ** Lone surrogates *)

(** C5, as the code has it.  A high surrogate that lies fewer than four
    bytes before the end bound, or that is followed inside the buffer by a
    code unit that is not a low surrogate, is decoded to U+FFFD, the bytes
    EF BF BD, with two bytes read and nothing thrown. *)
Theorem lone_high_surrogate_is_replaced (bytes : list byte) (i end_ : Z) :
  0 <= i -> i + 2 <= size bytes ->
  is_high_surrogate (little_endian uint16_t bytes i) = true ->
  end_ < i + 4
  \/ (i + 4 <= size bytes
      /\ is_low_surrogate (little_endian uint16_t bytes (i + 2)) = false) ->
  value (readUtf16Codepoint bytes i end_) = Returned ([xef; xbf; xbd], 2).
Proof.
  intros Hi Hin Hhigh Hlone.
  rewrite value_readUtf16Codepoint by exact Hi. unfold utf16_step.
  destruct (Z.gtb_spec (i + 2) (size bytes)); [lia |].
  assert (Hsur : is_surrogate (little_endian uint16_t bytes i) = true).
  { unfold is_high_surrogate in Hhigh. unfold is_surrogate.
    apply andb_true_iff in Hhigh. apply andb_true_iff. lia. }
  rewrite Hsur, Hhigh. cbn [negb orb].
  destruct (Z.ltb_spec end_ (i + 4)) as [Hend | Hend]; [reflexivity |].
  destruct Hlone as [Hlone | [Hin4 Hlow]]; [lia |].
  destruct (Z.gtb_spec (i + 4) (size bytes)); [lia |].
  rewrite Hlow. reflexivity.
Qed.

(** The high surrogate D83D followed by the letter A, and the same high
    surrogate as the last code unit before the bound. *)
Lemma lone_high_surrogate_is_replaced_witness :
  value (readUtf16Codepoint [x3d; xd8; x41; x00] 0 4) = Returned ([xef; xbf; xbd], 2).
Proof.
  apply (lone_high_surrogate_is_replaced [x3d; xd8; x41; x00] 0 4).
  - lia.
  - vm_compute. discriminate.
  - reflexivity.
  - right. split; [vm_compute; discriminate | reflexivity].
Defined.

(** C5 as stated fails where the bound allows a second code unit and the
    buffer ends before it: the high surrogate D800 in the last two bytes
    of a buffer, with the end bound four bytes on, is not followed by a low
    surrogate, and the read of the missing code unit throws.  The same
    happens inside [readStringWithPrependedLength] when the length prefix
    (here 3) counts more code units than the buffer holds. *)
Lemma high_surrogate_at_buffer_end_throws :
  is_high_surrogate (little_endian uint16_t [x00; xd8] 0) = true
  /\ value (readUtf16Codepoint [x00; xd8] 0 4)
     = Thrown (InvalidLnkFile "Index out of range")
  /\ value (readStringWithPrependedLength [x03; x00; x00; xd8] 0)
     = Thrown (InvalidLnkFile "Index out of range").
Proof. repeat split. Qed.

(** ** The offset after a length-prefixed string *)

(** C6.  When [readStringWithPrependedLength] returns at offset [i], the
    offset it returns for the next field is [i + 2 + 2 * n], where [n] is
    the 16-bit count stored at [i]: it depends on [i] and [n] only, not on
    the code units of the string. *)
Theorem readStringWithPrependedLength_next_offset
    (bytes : list byte) (i : Z) (text : std_string) (next : Z) :
  value (readStringWithPrependedLength bytes i) = Returned (text, next) ->
  exists n, value (readInteger uint16_t bytes i) = Returned n
            /\ next = i + 2 + 2 * n.
Proof.
  intros H. unfold readStringWithPrependedLength in H.
  apply bind_Returned in H. destruct H as [n [Hn H]].
  apply bind_Returned in H. destruct H as [result [_ H]].
  rewrite value_ret in H. injection H as _ Hnext.
  exists n. split; [exact Hn | lia].
Qed.

(** A string of three code units, two of them a surrogate pair: the next
    field starts at [0 + 2 + 2 * 3]. *)
Lemma readStringWithPrependedLength_next_offset_witness :
  exists n, value (readInteger uint16_t
                     [x03; x00; x3d; xd8; x0a; xde; x41; x00; x07] 0) = Returned n
            /\ 8 = 0 + 2 + 2 * n.
Proof.
  apply (readStringWithPrependedLength_next_offset
           [x03; x00; x3d; xd8; x0a; xde; x41; x00; x07] 0
           [xf0; x9f; x98; x8a; x41] 8).
  reflexivity.
Defined.

(** The end bound that [readStringWithPrependedLength] passes on is the
    offset of the last code unit, not the offset after it: a surrogate pair
    in the last two code units of a string (here U+1F60A alone) is decoded
    to U+FFFD twice.  The offset returned does not change. *)
Lemma surrogate_pair_in_last_place :
  value (readStringWithPrependedLength [x02; x00; x3d; xd8; x0a; xde] 0)
  = Returned ([xef; xbf; xbd; xef; xbf; xbd], 6).
Proof. reflexivity. Qed.

(** ** What a returning read tells *)

Lemma readInteger_cases (T : IntegerType) (bytes : list byte) (i : Z) :
  (size bytes < i + sizeof T
   /\ value (readInteger T bytes i) = Thrown (InvalidLnkFile "Index out of range"))
  \/ (i < 0 /\ value (readInteger T bytes i) = Thrown std_out_of_range)
  \/ (0 <= i /\ i + sizeof T <= size bytes
      /\ value (readInteger T bytes i) = Returned (little_endian T bytes i)).
Proof.
  destruct (Z.ltb_spec (size bytes) (i + sizeof T)) as [Hout | Hin].
  - left. split; [exact Hout |].
    unfold readInteger. rewrite value_bind. cbn [value emit snd].
    destruct (Z.gtb_spec (i + sizeof T) (size bytes)); [reflexivity | lia].
  - right. destruct (Z.ltb_spec i 0) as [Hneg | Hpos].
    + left. split; [exact Hneg |].
      unfold readInteger. rewrite value_bind. cbn [value emit snd].
      destruct (Z.gtb_spec (i + sizeof T) (size bytes)); [lia |].
      assert (Hn : exists n, Z.to_nat (sizeof T) = S n)
        by (destruct T; [exists 0%nat | exists 1%nat | exists 3%nat]; reflexivity).
      destruct Hn as [n ->]. cbn [readInteger_for].
      rewrite value_bind. unfold vector_at at 1. rewrite value_bind.
      cbn [value emit snd]. destruct (Z.ltb_spec (i + 0) 0); [reflexivity | lia].
    + right. split; [exact Hpos |]. split; [exact Hin |].
      rewrite value_readInteger by exact Hpos.
      destruct (Z.gtb_spec (i + sizeof T) (size bytes)); [lia | reflexivity].
Qed.

Lemma readInteger_Returned (T : IntegerType) (bytes : list byte) (i v : Z) :
  value (readInteger T bytes i) = Returned v ->
  0 <= i /\ i + sizeof T <= size bytes /\ v = little_endian T bytes i.
Proof.
  intros H. destruct (readInteger_cases T bytes i) as [[_ E] | [[_ E] | [Hi [Hin E]]]];
    rewrite E in H; try discriminate.
  injection H as <-. auto.
Qed.

Lemma readInteger_Returned_range (T : IntegerType) (bytes : list byte) (i v : Z) :
  value (readInteger T bytes i) = Returned v -> 0 <= v < 2 ^ (8 * sizeof T).
Proof.
  intros H. apply readInteger_Returned in H. destruct H as [_ [_ ->]].
  apply little_endian_range.
Qed.

Lemma readUtf16Codepoint_Returned (bytes : list byte) (i end_ : Z)
    (text : std_string) (bytesRead : Z) :
  value (readUtf16Codepoint bytes i end_) = Returned (text, bytesRead) ->
  0 <= i /\ i + 2 <= size bytes
  /\ (bytesRead = 2 \/ (bytesRead = 4 /\ i + 4 <= end_ /\ i + 4 <= size bytes)).
Proof.
  intros H.
  assert (Hi : 0 <= i /\ i + 2 <= size bytes).
  { unfold readUtf16Codepoint in H. apply bind_Returned in H.
    destruct H as [high [Hhigh _]]. apply readInteger_Returned in Hhigh.
    cbn [sizeof] in Hhigh. lia. }
  split; [apply Hi |]. split; [apply Hi |].
  rewrite value_readUtf16Codepoint in H by apply Hi. unfold utf16_step in H.
  destruct (i + 2 >? size bytes); [discriminate |].
  destruct (negb (is_surrogate _)); [injection H as _ <-; left; reflexivity |].
  destruct (negb (is_high_surrogate _)); cbn [orb] in H;
    [injection H as _ <-; left; reflexivity |].
  destruct (Z.ltb_spec end_ (i + 4)); [injection H as _ <-; left; reflexivity |].
  destruct (Z.gtb_spec (i + 4) (size bytes)); [discriminate |].
  destruct (negb (is_low_surrogate _)); injection H as _ <-; [left; reflexivity |].
  right. lia.
Qed.

Lemma readUtf16Codepoint_not_exhausted (bytes : list byte) (i end_ : Z) :
  value (readUtf16Codepoint bytes i end_) <> OutOfFuel.
Proof.
  unfold readUtf16Codepoint. rewrite value_bind.
  destruct (readInteger_cases uint16_t bytes i) as [[_ E] | [[_ E] | [_ [_ E]]]];
    rewrite E; try discriminate.
  rewrite value_bind.
  destruct (negb (_ =? GENERIC_SURROGATE_VALUE)); [discriminate |].
  destruct (_ || _); [discriminate |].
  rewrite value_bind.
  destruct (readInteger_cases uint16_t bytes (i + 2)) as [[_ E2] | [[_ E2] | [_ [_ E2]]]];
    rewrite E2; try discriminate.
  destruct (negb (_ =? LOW_SURROGATE_VALUE)); discriminate.
Qed.

(** ** The loops never run out of fuel *)

Lemma readNullTerminatedString_while_fuel (bytes : list byte) (fuel : nat)
    (i : Z) (result : std_string) :
  (1 <= fuel)%nat -> size bytes - i < Z.of_nat fuel ->
  value (readNullTerminatedString_while bytes fuel i result) <> OutOfFuel.
Proof.
  revert i result. induction fuel as [| fuel IH]; intros i result Hone Hfuel; [lia |].
  cbn [readNullTerminatedString_while]. rewrite value_bind.
  destruct (readInteger_cases uint8_t bytes i) as [[_ E] | [[_ E] | [Hi [Hin E]]]];
    rewrite E; try discriminate.
  cbn [sizeof] in Hin.
  destruct (_ =? 0); [discriminate |].
  destruct (_ <? 0x80); apply IH; lia.
Qed.

Lemma readNullTerminatedString_total (bytes : list byte) (i : Z) :
  value (readNullTerminatedString bytes i) <> OutOfFuel.
Proof.
  unfold readNullTerminatedString.
  destruct (Z.ltb_spec i 0) as [Hneg | Hpos].
  - cbn [readNullTerminatedString_while]. rewrite value_bind.
    destruct (readInteger_cases uint8_t bytes i) as [[_ E] | [[_ E] | [Hi _]]];
      [rewrite E; discriminate | rewrite E; discriminate | lia].
  - apply readNullTerminatedString_while_fuel; unfold size; lia.
Qed.

Lemma readStringWithPrependedLength_while_fuel (bytes : list byte) (end_ : Z)
    (fuel : nat) (i : Z) (result : std_string) :
  end_ - i + 2 <= 2 * Z.of_nat fuel ->
  value (readStringWithPrependedLength_while bytes end_ fuel i result) <> OutOfFuel.
Proof.
  revert i result. induction fuel as [| fuel IH]; intros i result Hfuel.
  - cbn [readStringWithPrependedLength_while].
    destruct (Z.leb_spec i end_); [lia | discriminate].
  - cbn [readStringWithPrependedLength_while].
    destruct (Z.leb_spec i end_); [| discriminate].
    rewrite value_bind.
    destruct (value (readUtf16Codepoint bytes i end_)) as [[text bytesRead] | e |] eqn:E;
      [| discriminate | exfalso; exact (readUtf16Codepoint_not_exhausted _ _ _ E)].
    apply readUtf16Codepoint_Returned in E. apply IH. lia.
Qed.

Lemma readStringWithPrependedLength_total (bytes : list byte) (i : Z) :
  value (readStringWithPrependedLength bytes i) <> OutOfFuel.
Proof.
  unfold readStringWithPrependedLength. rewrite value_bind.
  destruct (value (readInteger uint16_t bytes i)) as [n | e |] eqn:E;
    [| discriminate |].
  - pose proof (readInteger_Returned_range _ _ _ _ E) as Hn.
    rewrite value_bind.
    pose proof (readStringWithPrependedLength_while_fuel bytes (i + n * 2)
                  (Z.to_nat n) (i + 2) []) as Hloop.
    destruct (value (readStringWithPrependedLength_while _ _ _ _ _));
      [discriminate | discriminate | exfalso; apply Hloop; [lia | reflexivity]].
  - destruct (readInteger_cases uint16_t bytes i) as [[_ E'] | [[_ E'] | [_ [_ E']]]];
      rewrite E' in E; discriminate.
Qed.

Lemma readFixedLengthString_while_fuel (bytes : list byte) (offset length : Z)
    (fuel : nat) (i : Z) (result : std_string) :
  length - i <= Z.of_nat fuel ->
  value (readFixedLengthString_while bytes offset length fuel i result) <> OutOfFuel.
Proof.
  revert i result. induction fuel as [| fuel IH]; intros i result Hfuel.
  - cbn [readFixedLengthString_while].
    destruct (Z.ltb_spec i length); [lia | discriminate].
  - cbn [readFixedLengthString_while].
    destruct (Z.ltb_spec i length); [| discriminate].
    rewrite value_bind.
    destruct (value (readUtf16Codepoint bytes (i + offset + 2) (size bytes)))
      as [[text bytesRead] | e |] eqn:E;
      [| discriminate | exfalso; exact (readUtf16Codepoint_not_exhausted _ _ _ E)].
    apply readUtf16Codepoint_Returned in E. apply IH. lia.
Qed.

Lemma readFixedLengthString_total (bytes : list byte) (offset length : Z) :
  value (readFixedLengthString bytes offset length) <> OutOfFuel.
Proof.
  unfold readFixedLengthString. apply readFixedLengthString_while_fuel. lia.
Qed.

(** ** Computations that keep to the buffer *)

Ltac guarded_parts := unfold guarded; split; [| split; [| split]].

Lemma guarded_ret (bytes : list byte) {A} (a : A) : guarded bytes (ret a).
Proof.
  guarded_parts; cbn; try contradiction; try discriminate.
Qed.

Lemma guarded_throw (bytes : list byte) {A} (what : string) :
  guarded bytes (@throw A (InvalidLnkFile what)).
Proof.
  guarded_parts; cbn; try contradiction; try discriminate.
  intros e H. injection H as <-. eexists. reflexivity.
Qed.

Lemma guarded_bind (bytes : list byte) {A B} (m : Read A) (f : A -> Read B) :
  guarded bytes m ->
  (forall a, value m = Returned a -> guarded bytes (f a)) ->
  guarded bytes (bind m f).
Proof.
  intros [Hat [Hreq [Hexc Hfuel]]] Hf.
  unfold guarded. rewrite value_bind, events_bind.
  destruct (value m) as [a | e |] eqn:E.
  - destruct (Hf a eq_refl) as [Hat' [Hreq' [Hexc' Hfuel']]].
    split; [| split; [| split]].
    + intros k Hk. apply in_app_or in Hk. destruct Hk; [apply Hat | apply Hat']; assumption.
    + intros i w Hin Hout. apply in_app_or in Hin. destruct Hin as [Hin | Hin].
      * specialize (Hreq i w Hin Hout). discriminate.
      * apply (Hreq' i w Hin Hout).
    + exact Hexc'.
    + exact Hfuel'.
  - split; [| split; [| split]].
    + exact Hat.
    + intros i w Hin Hout. specialize (Hreq i w Hin Hout).
      injection Hreq as ->. reflexivity.
    + intros e' He'. injection He' as <-. apply Hexc. reflexivity.
    + discriminate.
  - exfalso. apply Hfuel. reflexivity.
Qed.

Lemma guarded_readInteger_for (T : IntegerType) (bytes : list byte) (i : Z)
    (n : nat) (j result : Z) :
  0 <= i + j -> i + j + Z.of_nat n <= size bytes ->
  guarded bytes (readInteger_for T bytes i n j result).
Proof.
  revert j result. induction n as [| n IH]; intros j result Hlow Hhigh.
  - apply guarded_ret.
  - cbn [readInteger_for]. apply guarded_bind.
    + unfold guarded. rewrite events_vector_at, value_vector_at by lia.
      split; [| split; [| split]]; try discriminate.
      * intros k [Hk | []]. injection Hk as <-. lia.
      * intros i' w [Hin | []]. discriminate.
    + intros b _. apply IH; lia.
Qed.

Lemma guarded_readInteger (T : IntegerType) (bytes : list byte) (i : Z) :
  0 <= i -> guarded bytes (readInteger T bytes i).
Proof.
  intros Hi. unfold readInteger, guarded.
  rewrite value_bind, events_bind. cbn [value emit snd events fst].
  destruct (Z.gtb_spec (i + sizeof T) (size bytes)) as [Hout | Hin].
  - cbn [throw fst snd app]. split; [| split; [| split]]; try discriminate.
    + intros k [Hk | []]. discriminate.
    + intros i' w _ _. reflexivity.
    + intros e H. injection H as <-. eexists. reflexivity.
  - destruct (guarded_readInteger_for T bytes i (Z.to_nat (sizeof T)) 0 0)
      as [Hat [Hreq [Hexc Hfuel]]]; [lia | destruct T; cbn [sizeof] in *; lia |].
    split; [| split; [| split]].
    + intros k [Hk | Hk]; [discriminate | apply Hat; exact Hk].
    + intros i' w [Hreq' | Hreq'] Hout.
      * injection Hreq' as <- <-. lia.
      * apply (Hreq i' w Hreq' Hout).
    + exact Hexc.
    + exact Hfuel.
Qed.

Lemma guarded_readNullTerminatedString_while (bytes : list byte) (fuel : nat)
    (i : Z) (result : std_string) :
  0 <= i -> (1 <= fuel)%nat -> size bytes - i < Z.of_nat fuel ->
  guarded bytes (readNullTerminatedString_while bytes fuel i result).
Proof.
  revert i result. induction fuel as [| fuel IH]; intros i result Hi Hone Hfuel; [lia |].
  cbn [readNullTerminatedString_while]. apply guarded_bind.
  - apply guarded_readInteger. exact Hi.
  - intros c Hc. apply readInteger_Returned in Hc. cbn [sizeof] in Hc.
    destruct (c =? 0); [apply guarded_ret |].
    destruct (c <? 0x80); apply IH; lia.
Qed.

Lemma guarded_readNullTerminatedString (bytes : list byte) (i : Z) :
  0 <= i -> guarded bytes (readNullTerminatedString bytes i).
Proof.
  intros Hi. apply guarded_readNullTerminatedString_while; unfold size; lia.
Qed.

Lemma guarded_readUtf16Codepoint (bytes : list byte) (i end_ : Z) :
  0 <= i -> guarded bytes (readUtf16Codepoint bytes i end_).
Proof.
  intros Hi. unfold readUtf16Codepoint. apply guarded_bind.
  - apply guarded_readInteger. exact Hi.
  - intros high _. apply guarded_bind.
    + destruct (negb (_ =? GENERIC_SURROGATE_VALUE)); [apply guarded_ret |].
      destruct (_ || _); [apply guarded_ret |].
      apply guarded_bind; [apply guarded_readInteger; lia |].
      intros low _. destruct (negb _); apply guarded_ret.
    + intros [codepoint bytesRead] _. apply guarded_ret.
Qed.

Lemma guarded_readStringWithPrependedLength_while (bytes : list byte) (end_ : Z)
    (fuel : nat) (i : Z) (result : std_string) :
  0 <= i -> end_ - i + 2 <= 2 * Z.of_nat fuel ->
  guarded bytes (readStringWithPrependedLength_while bytes end_ fuel i result).
Proof.
  revert i result. induction fuel as [| fuel IH]; intros i result Hi Hfuel.
  - cbn [readStringWithPrependedLength_while].
    destruct (Z.leb_spec i end_); [lia | apply guarded_ret].
  - cbn [readStringWithPrependedLength_while].
    destruct (Z.leb_spec i end_); [| apply guarded_ret].
    apply guarded_bind; [apply guarded_readUtf16Codepoint; exact Hi |].
    intros [text bytesRead] E. apply readUtf16Codepoint_Returned in E.
    apply IH; lia.
Qed.

Lemma guarded_readStringWithPrependedLength (bytes : list byte) (i : Z) :
  0 <= i -> guarded bytes (readStringWithPrependedLength bytes i).
Proof.
  intros Hi. unfold readStringWithPrependedLength. apply guarded_bind.
  - apply guarded_readInteger. exact Hi.
  - intros n Hn. apply readInteger_Returned_range in Hn.
    apply guarded_bind.
    + apply guarded_readStringWithPrependedLength_while; lia.
    + intros result _. apply guarded_ret.
Qed.

Lemma guarded_readFixedLengthString_while (bytes : list byte) (offset length : Z)
    (fuel : nat) (i : Z) (result : std_string) :
  0 <= i + offset -> length - i <= Z.of_nat fuel ->
  guarded bytes (readFixedLengthString_while bytes offset length fuel i result).
Proof.
  revert i result. induction fuel as [| fuel IH]; intros i result Hi Hfuel.
  - cbn [readFixedLengthString_while].
    destruct (Z.ltb_spec i length); [lia | apply guarded_ret].
  - cbn [readFixedLengthString_while].
    destruct (Z.ltb_spec i length); [| apply guarded_ret].
    apply guarded_bind; [apply guarded_readUtf16Codepoint; lia |].
    intros [text bytesRead] E. apply readUtf16Codepoint_Returned in E.
    apply IH; lia.
Qed.

Lemma guarded_readFixedLengthString (bytes : list byte) (offset length : Z) :
  0 <= offset -> guarded bytes (readFixedLengthString bytes offset length).
Proof.
  intros Hoffset. apply guarded_readFixedLengthString_while; lia.
Qed.

(** ** Reasoning about a member function, statement by statement *)

Lemma mbind_Returned {A B} (m : Method A) (f : A -> Method B)
    (this : LnkFileInfo) (b : B) :
  result_of (mbind m f this) = Returned b ->
  exists a, result_of (m this) = Returned a
            /\ result_of (f a (object_after (m this))) = Returned b
            /\ object_after (mbind m f this) = object_after (f a (object_after (m this))).
Proof.
  rewrite result_mbind, object_mbind.
  destruct (result_of (m this)) as [a | e |]; try discriminate.
  intros H. exists a. auto.
Qed.

Lemma ensures_bind {A B} (m : Method A) (f : A -> Method B) (this : LnkFileInfo)
    (Q : B -> LnkFileInfo -> Prop) :
  ensures m this (fun a this' => ensures (f a) this' Q) ->
  ensures (mbind m f) this Q.
Proof.
  intros Hm b Hb. apply mbind_Returned in Hb.
  destruct Hb as [a [Ha [Hb ->]]]. apply (Hm a Ha b Hb).
Qed.

Lemma ensures_read {A} (r : Read A) (this : LnkFileInfo)
    (Q : A -> LnkFileInfo -> Prop) :
  (forall a, value r = Returned a -> Q a this) -> ensures (read r) this Q.
Proof. intros H a Ha. apply H. exact Ha. Qed.

Lemma ensures_assign (f : LnkFileInfo -> LnkFileInfo) (this : LnkFileInfo)
    (Q : unit -> LnkFileInfo -> Prop) :
  Q tt (f this) -> ensures (assign f) this Q.
Proof. intros H [] _. exact H. Qed.

Lemma ensures_mret {A} (a : A) (this : LnkFileInfo) (Q : A -> LnkFileInfo -> Prop) :
  Q a this -> ensures (mret a) this Q.
Proof. intros H a' Ha'. injection Ha' as <-. exact H. Qed.

Lemma ensures_mthrow {A} (e : Exception) (this : LnkFileInfo)
    (Q : A -> LnkFileInfo -> Prop) :
  ensures (mthrow e) this Q.
Proof. intros a Ha. discriminate. Qed.

Lemma ensures_get_this (this : LnkFileInfo) (Q : LnkFileInfo -> LnkFileInfo -> Prop) :
  Q this this -> ensures get_this this Q.
Proof. intros H a Ha. injection Ha as <-. exact H. Qed.

Lemma checked_bind (bytes : list byte) {A B} (m : Method A) (f : A -> Method B)
    (this : LnkFileInfo) (Q : B -> LnkFileInfo -> Prop) :
  checked bytes m this (fun a this' => checked bytes (f a) this' Q) ->
  checked bytes (mbind m f) this Q.
Proof.
  intros [Hguard Hm]. split.
  - unfold mbind. unfold ensures, result_of, object_after in Hm.
    destruct Hguard as [Hat [Hreq [Hexc Hfuel]]].
    destruct (value (snd (m this))) as [a | e |] eqn:E.
    + destruct (Hm a eq_refl) as [[Hat' [Hreq' [Hexc' Hfuel']]] _].
      unfold guarded. cbn [events value fst snd].
      split; [| split; [| split]].
      * intros k Hk. apply in_app_or in Hk.
        destruct Hk; [apply Hat | apply Hat']; assumption.
      * intros i w Hin Hout. apply in_app_or in Hin. destruct Hin as [Hin | Hin].
        -- specialize (Hreq i w Hin Hout). discriminate.
        -- apply (Hreq' i w Hin Hout).
      * exact Hexc'.
      * exact Hfuel'.
    + unfold guarded. cbn [events value fst snd].
      split; [| split; [| split]].
      * exact Hat.
      * intros i w Hin Hout. specialize (Hreq i w Hin Hout).
        injection Hreq as ->. reflexivity.
      * intros e' He'. injection He' as <-. apply Hexc. reflexivity.
      * discriminate.
    + exfalso. apply Hfuel. reflexivity.
  - apply ensures_bind. intros a Ha. apply (Hm a Ha).
Qed.

Lemma checked_read (bytes : list byte) {A} (r : Read A) (this : LnkFileInfo)
    (Q : A -> LnkFileInfo -> Prop) :
  guarded bytes r -> (forall a, value r = Returned a -> Q a this) ->
  checked bytes (read r) this Q.
Proof.
  intros Hguard H. split; [exact Hguard | apply ensures_read; exact H].
Qed.

Lemma checked_assign (bytes : list byte) (f : LnkFileInfo -> LnkFileInfo)
    (this : LnkFileInfo) (Q : unit -> LnkFileInfo -> Prop) :
  Q tt (f this) -> checked bytes (assign f) this Q.
Proof.
  intros H. split; [apply guarded_ret | apply ensures_assign; exact H].
Qed.

Lemma checked_mret (bytes : list byte) {A} (a : A) (this : LnkFileInfo)
    (Q : A -> LnkFileInfo -> Prop) :
  Q a this -> checked bytes (mret a) this Q.
Proof.
  intros H. split; [apply guarded_ret | apply ensures_mret; exact H].
Qed.

Lemma checked_mthrow (bytes : list byte) {A} (what : string) (this : LnkFileInfo)
    (Q : A -> LnkFileInfo -> Prop) :
  checked bytes (mthrow (InvalidLnkFile what)) this Q.
Proof.
  split; [apply guarded_throw | apply ensures_mthrow].
Qed.

Lemma checked_get_this (bytes : list byte) (this : LnkFileInfo)
    (Q : LnkFileInfo -> LnkFileInfo -> Prop) :
  Q this this -> checked bytes get_this this Q.
Proof.
  intros H. split; [apply guarded_ret | apply ensures_get_this; exact H].
Qed.

Lemma readStringWithPrependedLength_Returned (bytes : list byte) (i : Z)
    (data : std_string * Z) :
  value (readStringWithPrependedLength bytes i) = Returned data ->
  0 <= i /\ snd data = i + 2 + 2 * little_endian uint16_t bytes i.
Proof.
  intros H. unfold readStringWithPrependedLength in H.
  apply bind_Returned in H. destruct H as [n [Hn H]].
  apply bind_Returned in H. destruct H as [result [_ H]].
  rewrite value_ret in H. injection H as <-.
  apply readInteger_Returned in Hn. destruct Hn as [Hi [_ ->]].
  cbn [snd]. split; [exact Hi | lia].
Qed.

Lemma readStringWithPrependedLength_next_nonneg (bytes : list byte) (i : Z)
    (data : std_string * Z) :
  value (readStringWithPrependedLength bytes i) = Returned data -> 0 <= snd data.
Proof.
  intros H. apply readStringWithPrependedLength_Returned in H.
  destruct H as [Hi ->].
  pose proof (little_endian_range uint16_t bytes i). lia.
Qed.

Lemma cast_range (T : IntegerType) (z : Z) : 0 <= cast T z < 2 ^ (8 * sizeof T).
Proof.
  unfold cast. apply Z.mod_pos_bound. destruct T; reflexivity.
Qed.

(** One statement of [refresh], for the proof that its reads keep to the
    buffer: the value a read returns is introduced with its range. *)
Ltac checked_step :=
  lazymatch goal with
  | |- checked _ (mbind _ _) _ _ => apply checked_bind
  | |- checked _ (read (readInteger _ _ _)) _ _ =>
      let v := fresh "v" in let Hv := fresh "Hv" in
      apply checked_read;
      [ apply guarded_readInteger
      | intros v Hv; apply readInteger_Returned_range in Hv; cbn [sizeof] in Hv ]
  | |- checked _ (read (readNullTerminatedString _ _)) _ _ =>
      let v := fresh "text" in
      apply checked_read;
      [ apply guarded_readNullTerminatedString | intros v _ ]
  | |- checked _ (read (readFixedLengthString _ _ _)) _ _ =>
      let v := fresh "text" in
      apply checked_read;
      [ apply guarded_readFixedLengthString | intros v _ ]
  | |- checked _ (read (readStringWithPrependedLength _ _)) _ _ =>
      let v := fresh "data" in let Hv := fresh "Hdata" in
      apply checked_read;
      [ apply guarded_readStringWithPrependedLength
      | intros v Hv; apply readStringWithPrependedLength_next_nonneg in Hv ]
  | |- checked _ (assign _) _ _ => apply checked_assign
  | |- checked _ (mret _) _ _ => apply checked_mret
  | |- checked _ (mthrow (InvalidLnkFile _)) _ _ => apply checked_mthrow
  | |- checked _ get_this _ _ => apply checked_get_this
  | |- checked _ (if ?c then _ else _) _ _ => destruct c
  | |- checked _ (match ?c with _ => _ end) _ _ => destruct c
  end.

Ltac offset_nonneg :=
  repeat match goal with
    | |- context [cast ?T ?z] =>
        let H := fresh in pose proof (cast_range T z) as H;
        generalize dependent (cast T z); intros
    | |- context [size ?l] =>
        let H := fresh in pose proof (size_nonneg l) as H;
        generalize dependent (size l); intros
    | |- context [little_endian ?T ?b ?i] =>
        let H := fresh in pose proof (little_endian_range T b i) as H;
        generalize dependent (little_endian T b i); intros
    end;
  cbn [sizeof] in *; lia.

Lemma refresh_checked (bytes : list byte) (this : LnkFileInfo) :
  checked bytes (refresh (Some bytes)) this (fun _ _ => True).
Proof.
  unfold refresh.
  repeat (checked_step; try exact I; try offset_nonneg).
Qed.


(** ** What a failed or a repeated [refresh] leaves in the object *)

(** C1 fails on the code.  [refresh] on an object that holds an earlier
    decoding, when the file has become the 83 bytes of [cut_short_link]:
    the read at offset 86 throws [InvalidLnkFile], after [_targetAttributes]
    and [_targetSize] have been overwritten with the new file's values (2 and
    7); all other members still hold the earlier decoding.  The object that
    the caller keeps is a mixture of two files. *)
Theorem refresh_failure_leaves_partial_state :
  result_of (refresh (Some cut_short_link) decoded_with_icon)
  = Thrown (InvalidLnkFile "Index out of range")
  /\ object_after (refresh (Some cut_short_link) decoded_with_icon)
     = set_targetSize 7 (set_targetAttributes 2 decoded_with_icon)
  /\ targetSize (object_after (refresh (Some cut_short_link) decoded_with_icon)) = 7
  /\ targetSize decoded_with_icon = 12
  /\ absoluteTargetPath (object_after (refresh (Some cut_short_link) decoded_with_icon))
     = absoluteTargetPath decoded_with_icon.
Proof. vm_compute. repeat split. Qed.

(** The constructor, by contrast, gives no object at all when [refresh]
    throws. *)
Lemma constructor_is_all_or_nothing (storage : LnkFileInfo) (filePath : std_string)
    (file : option (list byte)) (absolute : option std_string) (e : Exception) :
  result_of (refresh file (uninitialised storage filePath)) = Thrown e ->
  LnkFileInfo_ctor storage filePath file absolute = Thrown e.
Proof.
  intros H. unfold LnkFileInfo_ctor. rewrite H. reflexivity.
Qed.

(** C3 fails on the code.  [plain_link] has no custom icon (its flag byte is
    0), and decodes.  Constructed in storage whose [_iconIndex] word held 8,
    the object reports icon index 8: the member has no initialiser and
    [refresh] does not assign it.  Refreshed from an object that was decoded
    from a link with a custom icon, the object keeps the old icon index, icon
    path and description. *)
Theorem absent_fields_keep_old_values :
  byte_at plain_link 20 = 0
  /\ (exists this,
         LnkFileInfo_ctor decoded_with_icon (text "s.lnk") (Some plain_link)
           (Some (text "C:\s.lnk")) = Returned this
         /\ iconIndex this = 8 /\ iconPath this = [])
  /\ result_of (refresh (Some plain_link) decoded_with_icon) = Returned tt
  /\ iconIndex (object_after (refresh (Some plain_link) decoded_with_icon)) = 8
  /\ iconPath (object_after (refresh (Some plain_link) decoded_with_icon)) = text "i.dll"
  /\ description (object_after (refresh (Some plain_link) decoded_with_icon)) = text "note"
  /\ absoluteTargetPath (object_after (refresh (Some plain_link) decoded_with_icon))
     = text "C:\a".
Proof.
  split; [reflexivity |]. split.
  - eexists. split; [vm_compute; reflexivity |]. split; reflexivity.
  - vm_compute. repeat split.
Qed.

(** ** The network branch *)

Ltac fields :=
  cbn [_filePath _absoluteFilePath _targetPath _targetVolumeName _description
       _relativeTargetPath _workingDirectory _commandLineArgs _iconPath
       _targetSize _iconIndex _targetVolumeSerial _targetAttributes
       _targetVolumeType _targetIsOnNetwork
       set_absoluteFilePath set_targetPath set_targetVolumeName set_description
       set_relativeTargetPath set_workingDirectory set_commandLineArgs
       set_iconPath set_targetSize set_iconIndex set_targetVolumeSerial
       set_targetAttributes set_targetVolumeType set_targetIsOnNetwork] in *.

(** One statement of [refresh]: an integer read is replaced by the
    little-endian value at its offset, any other read leaves the equation of
    what it returned, a test leaves the equation of how it went. *)
Ltac ensures_step :=
  lazymatch goal with
  | |- ensures (mbind _ _) _ _ => apply ensures_bind
  | |- ensures (read (readInteger _ _ _)) _ _ =>
      let v := fresh "v" in let Hv := fresh "Hv" in
      apply ensures_read; intros v Hv;
      apply readInteger_Returned in Hv; destruct Hv as (_ & _ & ->)
  | |- ensures (read _) _ _ =>
      let v := fresh "v" in let Hv := fresh "Hread" in
      apply ensures_read; intros v Hv
  | |- ensures (assign _) _ _ => apply ensures_assign
  | |- ensures (mret _) _ _ => apply ensures_mret
  | |- ensures (mthrow _) _ _ => apply ensures_mthrow
  | |- ensures get_this _ _ => apply ensures_get_this
  | |- ensures (if ?c then _ else _) _ _ =>
      let E := fresh "E" in destruct c eqn:E
  end; fields.

(** From a property of the object [refresh] leaves to a property that every
    returning run ensures. *)
Ltac by_ensures Hreturned :=
  lazymatch type of Hreturned with
  | result_of (?m ?this) = Returned ?a =>
      lazymatch goal with
      | |- ?G =>
          let P := eval pattern (object_after (m this)) in G in
          lazymatch P with
          | ?F _ =>
              let H := fresh in
              cut (ensures m this (fun _ => F));
              [ intros H; exact (H a Hreturned) | ]
          end
      end
  end.

(** C9 as stated fails for the extended format.  [network_link_extended]
    has the network bit set and decodes; its drive string is [D:] and its
    remainder string is [T], but the structure-size byte is 0x24, so the
    target path is then replaced by the UTF-16 string read after them: it is
    [WXYZ], not [D:\T]. *)
Lemma network_target_of_extended_link_is_not_joined :
  networkFlag network_link_extended = true
  /\ structureSize network_link_extended = 0x24
  /\ value (readNullTerminatedString network_link_extended 123) = Returned (text "D:")
  /\ value (readNullTerminatedString network_link_extended 126) = Returned (text "T")
  /\ (exists this,
        LnkFileInfo_ctor decoded_with_icon (text "s.lnk")
          (Some network_link_extended) (Some (text "C:\s.lnk")) = Returned this
        /\ targetVolumeType this = NetworkDrive
        /\ absoluteTargetPath this = text "WXYZ").
Proof.
  repeat (split; [vm_compute; reflexivity |]).
  eexists. split; [vm_compute; reflexivity |]. split; reflexivity.
Qed.

(** ** Strings inside a buffer *)

Lemma slice_split (bytes : list byte) (offset n : Z) :
  0 <= offset -> 0 < n -> size (slice bytes offset n) = n ->
  exists pre post,
    bytes = pre ++ slice bytes offset n ++ post /\ size pre = offset.
Proof.
  intros Hoffset Hn Hsize. unfold slice, size in *.
  exists (firstn (Z.to_nat offset) bytes),
         (skipn (Z.to_nat n) (skipn (Z.to_nat offset) bytes)).
  rewrite firstn_skipn, firstn_skipn. split; [reflexivity |].
  rewrite length_firstn, length_skipn in Hsize.
  rewrite length_firstn. lia.
Qed.

Lemma readNullTerminatedString_while_ascii (latin pre post : list byte)
    (fuel : nat) (result : std_string) :
  Forall is_ascii latin ->
  (List.length latin < fuel)%nat ->
  value (readNullTerminatedString_while (pre ++ latin ++ x00 :: post) fuel
           (size pre) result)
  = Returned (result ++ latin).
Proof.
  revert pre fuel result.
  induction latin as [| b latin IH]; intros pre fuel result Hascii Hfuel;
    (destruct fuel as [| fuel]; [cbn [List.length] in Hfuel; lia |]);
    cbn [readNullTerminatedString_while]; rewrite value_bind;
    rewrite value_readInteger by apply size_nonneg; cbn [sizeof];
    pose proof (size_nonneg post).
  - cbn [app]. rewrite size_app, size_cons.
    destruct (Z.gtb_spec (size pre + 1) (size pre + (1 + size post))); [lia |].
    cbn [little_endian]. rewrite <- (Z.add_0_r (size pre)) at 1.
    rewrite byte_at_app by lia. cbn. rewrite app_nil_r. reflexivity.
  - pose proof (size_nonneg latin).
    cbn [app]. rewrite size_app, size_cons, size_app, size_cons.
    destruct (Z.gtb_spec (size pre + 1)
                (size pre + (1 + (size latin + (1 + size post))))); [lia |].
    cbn [little_endian].
    assert (Hbyte : byte_at (pre ++ b :: latin ++ x00 :: post) (size pre)
                    = byte_value b).
    { rewrite <- (Z.add_0_r (size pre)). rewrite byte_at_app by lia. reflexivity. }
    rewrite !Hbyte.
    inversion Hascii as [| ? ? Hb Hrest]; subst. unfold is_ascii in Hb.
    destruct (Z.eqb_spec (byte_value b) 0); [lia |].
    destruct (Z.ltb_spec (byte_value b) 0x80); [| lia].
    rewrite to_char_byte_value.
    change (pre ++ b :: latin ++ x00 :: post)
      with (pre ++ [b] ++ latin ++ x00 :: post).
    rewrite app_assoc.
    replace (size pre + 1) with (size (pre ++ [b]))
      by (rewrite size_app; reflexivity).
    rewrite IH; [| exact Hrest | cbn [List.length] in Hfuel; lia].
    rewrite <- app_assoc. reflexivity.
Qed.

Lemma readNullTerminatedString_ascii (bytes latin : list byte) (offset : Z) :
  0 <= offset ->
  slice bytes offset (size latin + 1) = latin ++ [x00] ->
  Forall is_ascii latin ->
  value (readNullTerminatedString bytes offset) = Returned latin.
Proof.
  intros Hoffset Hslice Hascii.
  pose proof (size_nonneg latin) as Hlatin.
  destruct (slice_split bytes offset (size latin + 1)) as [pre [post [Hbytes Hpre]]];
    [exact Hoffset | lia | rewrite Hslice, size_app; reflexivity |].
  rewrite Hslice in Hbytes. unfold readNullTerminatedString.
  rewrite Hbytes at 1 2. rewrite <- Hpre, <- app_assoc. cbn [app].
  apply (readNullTerminatedString_while_ascii latin pre post _ []); [exact Hascii |].
  rewrite !length_app. cbn [List.length]. lia.
Qed.

Lemma size_utf16le (units : list Z) : size (utf16le units) = 2 * size units.
Proof.
  induction units as [| u units IH]; [reflexivity |].
  change (utf16le (u :: units))
    with (to_char (u mod 256) :: to_char (u / 256) :: utf16le units).
  rewrite !size_cons, IH. lia.
Qed.

Lemma utf16le_app (units units' : list Z) :
  utf16le (units ++ units') = utf16le units ++ utf16le units'.
Proof. unfold utf16le. apply flat_map_app. Qed.

Lemma size_utf16_encode_pos (cp : Z) : 0 < size (utf16_encode cp).
Proof. unfold utf16_encode. destruct (cp <? 0x10000); cbn; lia. Qed.

Lemma readFixedLengthString_while_encoded (codepoints : list Z)
    (pre post : list byte) (offset length : Z) (fuel : nat) (i : Z)
    (result : std_string) :
  Forall is_scalar_value codepoints ->
  i + offset + 2 = size pre ->
  length = i + size (utf16le (flat_map utf16_encode codepoints)) ->
  length - i <= 2 * Z.of_nat fuel ->
  value (readFixedLengthString_while
           (pre ++ utf16le (flat_map utf16_encode codepoints) ++ post)
           offset length fuel i result)
  = Returned (result ++ flat_map utf8_encode codepoints).
Proof.
  revert pre fuel i result.
  induction codepoints as [| cp codepoints IH];
    intros pre fuel i result Hscalar Hi Hlength Hfuel.
  - cbn [flat_map utf16le] in *. change (size []) with 0 in Hlength.
    destruct fuel; cbn [readFixedLengthString_while];
      (destruct (Z.ltb_spec i length); [lia |]);
      rewrite app_nil_r; reflexivity.
  - inversion Hscalar as [| ? ? Hcp Hrest]; subst.
    cbn [flat_map] in *. rewrite utf16le_app in *.
    rewrite size_app, !size_utf16le in Hfuel.
    pose proof (size_utf16_encode_pos cp) as Hpos.
    pose proof (size_nonneg (flat_map utf16_encode codepoints)) as Hpos'.
    destruct fuel as [| fuel]; [lia |].
    cbn [readFixedLengthString_while].
    destruct (Z.ltb_spec i (i + size (utf16le (utf16_encode cp)
                                      ++ utf16le (flat_map utf16_encode codepoints))));
      [| rewrite size_app, !size_utf16le in *; lia].
    rewrite value_bind, value_readUtf16Codepoint by (pose proof (size_nonneg pre); lia).
    rewrite Hi, <- app_assoc.
    rewrite utf16_step_encoded;
      [| exact Hcp
       | rewrite !size_app;
         pose proof (size_nonneg (utf16le (flat_map utf16_encode codepoints)));
         pose proof (size_nonneg post); lia].
    rewrite app_assoc.
    rewrite IH; [rewrite <- app_assoc; reflexivity | exact Hrest | | |].
    + rewrite size_app. lia.
    + rewrite size_app. lia.
    + rewrite !size_app, !size_utf16le in *. lia.
Qed.

Lemma readFixedLengthString_encoded (bytes : list byte) (codepoints : list Z)
    (offset length : Z) :
  0 <= offset + 2 ->
  Forall is_scalar_value codepoints ->
  length = size (utf16le (flat_map utf16_encode codepoints)) ->
  slice bytes (offset + 2) length = utf16le (flat_map utf16_encode codepoints) ->
  value (readFixedLengthString bytes offset length)
  = Returned (flat_map utf8_encode codepoints).
Proof.
  intros Hoffset Hscalar Hlength Hslice.
  pose proof (size_nonneg (utf16le (flat_map utf16_encode codepoints))) as Hsize.
  unfold readFixedLengthString.
  destruct (Z.eq_dec length 0) as [Hzero | Hpos].
  - rewrite Hzero in *. destruct codepoints as [| cp codepoints].
    + reflexivity.
    + exfalso. cbn [flat_map] in Hlength. rewrite utf16le_app, size_app, !size_utf16le in Hlength.
      pose proof (size_utf16_encode_pos cp).
      pose proof (size_nonneg (flat_map utf16_encode codepoints)). lia.
  - destruct (slice_split bytes (offset + 2) length) as [pre [post [Hbytes Hpre]]];
      [exact Hoffset | lia | rewrite Hslice; symmetry; exact Hlength |].
    rewrite Hslice in Hbytes. rewrite Hbytes at 1.
    rewrite (readFixedLengthString_while_encoded codepoints pre post offset length
               (Z.to_nat length) 0 []); [reflexivity | exact Hscalar | lia | lia | lia].
Qed.

(** ** The target path of the extended format *)

Lemma extended_path_read (bytes latin : list byte) (pathOffset : Z)
    (path targetPath : std_string) :
  0 <= pathOffset ->
  slice bytes pathOffset (size latin + 1) = latin ++ [x00] ->
  Forall is_ascii latin ->
  value (readNullTerminatedString bytes pathOffset) = Returned path ->
  value (readFixedLengthString bytes (pathOffset + size path) (size path * 2))
  = Returned targetPath ->
  value (readFixedLengthString bytes (pathOffset + size latin) (2 * size latin))
  = Returned targetPath
  /\ forall codepoints,
       Forall is_scalar_value codepoints ->
       slice bytes (pathOffset + size latin + 2) (2 * size latin)
       = utf16le (flat_map utf16_encode codepoints) ->
       size (flat_map utf16_encode codepoints) = size latin ->
       targetPath = flat_map utf8_encode codepoints.
Proof.
  intros Hoffset Hslice Hascii Hpath Hfixed.
  rewrite (readNullTerminatedString_ascii bytes latin pathOffset Hoffset Hslice Hascii)
    in Hpath.
  injection Hpath as <-. rewrite Z.mul_comm in Hfixed.
  split; [exact Hfixed |].
  intros codepoints Hscalar Hunits Hcount.
  pose proof (size_nonneg latin).
  rewrite (readFixedLengthString_encoded bytes codepoints) in Hfixed.
  - injection Hfixed as <-. reflexivity.
  - lia.
  - exact Hscalar.
  - rewrite size_utf16le, Hcount. reflexivity.
  - rewrite <- Hunits. reflexivity.
Qed.

(** C2, as the code has it.  On a buffer whose structure-size byte is 0x24
    and whose network bit is clear, when [refresh] returns and the Latin-1
    path [latin] at the path offset is plain ASCII, the target path is what
    [readFixedLengthString] reads for a byte length of twice the length of
    [latin], starting two bytes after the offset of the terminator of
    [latin]: the terminator and one more byte are skipped.  When the bytes
    read are the UTF-16 encoding of [codepoints], as many code units as
    [latin] has characters, the target path is the UTF-8 encoding of
    [codepoints]. *)
Theorem refresh_extended_target_path (bytes : list byte) (this : LnkFileInfo)
    (latin : list byte) :
  result_of (refresh (Some bytes) this) = Returned tt ->
  structureSize bytes = 0x24 ->
  networkFlag bytes = false ->
  slice bytes (localPathOffset bytes) (size latin + 1) = latin ++ [x00] ->
  Forall is_ascii latin ->
  value (readFixedLengthString bytes (localPathOffset bytes + size latin)
           (2 * size latin))
  = Returned (absoluteTargetPath (object_after (refresh (Some bytes) this)))
  /\ forall codepoints,
       Forall is_scalar_value codepoints ->
       slice bytes (localPathOffset bytes + size latin + 2) (2 * size latin)
       = utf16le (flat_map utf16_encode codepoints) ->
       size (flat_map utf16_encode codepoints) = size latin ->
       absoluteTargetPath (object_after (refresh (Some bytes) this))
       = flat_map utf8_encode codepoints.
Proof.
  intros Hreturned Hsize Hnetwork Hslice Hascii.
  unfold networkFlag, structureSize, localPathOffset, linkInfoStart, absoluteTargetPath in *.
  revert Hsize Hnetwork Hslice Hascii.
  by_ensures Hreturned.
  unfold refresh.
  repeat ensures_step;
    intros Hsize Hnetwork Hslice Hascii; try congruence;
    try (rewrite Hsize in *; discriminate);
    (eapply extended_path_read; [| eassumption | eassumption | eassumption | eassumption]);
    apply cast_range.
Qed.

(** The witness: [extended_link], whose Latin-1 path is [A] at 124, with
    its terminator at 125, and whose code unit at 127 is the letter B. *)
Lemma refresh_extended_target_path_witness :
  absoluteTargetPath (object_after (refresh (Some extended_link) decoded_with_icon))
  = flat_map utf8_encode [0x42].
Proof.
  apply (refresh_extended_target_path extended_link decoded_with_icon (text "A")).
  - vm_compute. reflexivity.
  - vm_compute. reflexivity.
  - vm_compute. reflexivity.
  - vm_compute. reflexivity.
  - repeat constructor; vm_compute; reflexivity.
  - repeat constructor; unfold is_scalar_value; lia.
  - vm_compute. reflexivity.
  - vm_compute. reflexivity.
Defined.

(** C2 as stated fails by one byte.  In [extended_link] the Latin-1 path
    [A] at 124 has length 1 and its terminator is at 125; the two bytes
    immediately after the terminated path, at 126, are the UTF-16 encoding
    of U+4243, whose UTF-8 encoding is E4 89 83.  The target path that
    [refresh] sets is [B], the transcoding of the two bytes at 127. *)
Lemma extended_path_is_not_read_after_the_terminator :
  structureSize extended_link = 0x24
  /\ localPathOffset extended_link = 124
  /\ value (readNullTerminatedString extended_link 124) = Returned (text "A")
  /\ slice extended_link (124 + 1 + 1) (2 * 1) = utf16le (utf16_encode 0x4243)
  /\ utf8_encode 0x4243 = [xe4; x89; x83]
  /\ slice extended_link (124 + 1 + 2) (2 * 1) = utf16le (utf16_encode 0x42)
  /\ (exists this,
        LnkFileInfo_ctor decoded_with_icon (text "s.lnk") (Some extended_link)
          (Some (text "C:\s.lnk")) = Returned this
        /\ absoluteTargetPath this = utf8_encode 0x42
        /\ absoluteTargetPath this = text "B").
Proof.
  repeat (split; [vm_compute; reflexivity |]).
  eexists. split; [vm_compute; reflexivity |]. split; reflexivity.
Qed.

(** ** Buffers that differ in the two lowest flag bits *)

Lemma bind_agree {A B} (m : Read A) (f f' : A -> Read B) :
  (forall x, value m = Returned x -> f x = f' x) -> bind m f = bind m f'.
Proof.
  intros H. unfold bind. unfold value in H.
  destruct (snd m) as [x | e |]; [rewrite (H x eq_refl) |..]; reflexivity.
Qed.

Section FlagBits.

Variables a b : list byte.
Hypothesis Hdiffer : differ_in_low_flag_bits a b.

Lemma differ_size : size a = size b.
Proof. destruct Hdiffer as [Hlength _]. unfold size. rewrite Hlength. reflexivity. Qed.

Lemma differ_vector_at (k : Z) : k <> 20 -> vector_at a k = vector_at b k.
Proof.
  intros Hk. unfold vector_at. destruct Hdiffer as [_ [Hnth _]].
  destruct (Z.ltb_spec k 0); [reflexivity |].
  rewrite Hnth by lia. reflexivity.
Qed.

Lemma differ_byte_at (k : Z) : 0 <= k -> k <> 20 -> byte_at a k = byte_at b k.
Proof.
  intros Hpos Hk. unfold byte_at. destruct Hdiffer as [Hlength [Hnth _]].
  assert (Hn : nth_error a (Z.to_nat k) = nth_error b (Z.to_nat k)) by (apply Hnth; lia).
  destruct (nth_error a (Z.to_nat k)) as [x |] eqn:Ea.
  - symmetry in Hn. rewrite (nth_error_nth _ _ _ Ea), (nth_error_nth _ _ _ Hn).
    reflexivity.
  - symmetry in Hn. apply nth_error_None in Ea, Hn.
    rewrite !nth_overflow by assumption. reflexivity.
Qed.

Lemma differ_readInteger_for (T : IntegerType) (i : Z) (n : nat) (j result : Z) :
  20 < i + j \/ i + j + Z.of_nat n <= 20 ->
  readInteger_for T a i n j result = readInteger_for T b i n j result.
Proof.
  revert j result. induction n as [| n IH]; intros j result Hclear; [reflexivity |].
  cbn [readInteger_for]. rewrite differ_vector_at by lia.
  apply bind_agree. intros x _. apply IH. lia.
Qed.

Lemma differ_readInteger (T : IntegerType) (i : Z) :
  20 < i \/ i + sizeof T <= 20 ->
  readInteger T a i = readInteger T b i.
Proof.
  intros Hclear. unfold readInteger. rewrite differ_size.
  apply bind_agree. intros _ _.
  destruct (i + sizeof T >? size b); [reflexivity |].
  apply differ_readInteger_for. destruct T; cbn [sizeof] in *; lia.
Qed.

Lemma differ_readNullTerminatedString_while (fuel : nat) (i : Z)
    (result : std_string) :
  20 < i ->
  readNullTerminatedString_while a fuel i result
  = readNullTerminatedString_while b fuel i result.
Proof.
  revert i result. induction fuel as [| fuel IH]; intros i result Hi; [reflexivity |].
  cbn [readNullTerminatedString_while].
  rewrite differ_readInteger by lia.
  apply bind_agree. intros c _.
  destruct (c =? 0); [reflexivity |].
  destruct (c <? 0x80); apply IH; lia.
Qed.

Lemma differ_readNullTerminatedString (i : Z) :
  20 < i -> readNullTerminatedString a i = readNullTerminatedString b i.
Proof.
  intros Hi. unfold readNullTerminatedString.
  destruct Hdiffer as [-> _].
  apply differ_readNullTerminatedString_while. exact Hi.
Qed.

Lemma differ_readUtf16Codepoint (i end_ : Z) :
  20 < i -> readUtf16Codepoint a i end_ = readUtf16Codepoint b i end_.
Proof.
  intros Hi. unfold readUtf16Codepoint.
  rewrite differ_readInteger by lia.
  apply bind_agree. intros high _.
  rewrite (differ_readInteger uint16_t (i + 2)) by lia. reflexivity.
Qed.

Lemma differ_readStringWithPrependedLength_while (end_ : Z) (fuel : nat)
    (i : Z) (result : std_string) :
  20 < i ->
  readStringWithPrependedLength_while a end_ fuel i result
  = readStringWithPrependedLength_while b end_ fuel i result.
Proof.
  revert i result. induction fuel as [| fuel IH]; intros i result Hi;
    cbn [readStringWithPrependedLength_while]; [reflexivity |].
  destruct (i <=? end_); [| reflexivity].
  rewrite differ_readUtf16Codepoint by exact Hi.
  apply bind_agree. intros [codepoint bytesRead] Hread.
  apply readUtf16Codepoint_Returned in Hread. apply IH. lia.
Qed.

Lemma differ_readStringWithPrependedLength (i : Z) :
  20 < i -> readStringWithPrependedLength a i = readStringWithPrependedLength b i.
Proof.
  intros Hi. unfold readStringWithPrependedLength.
  rewrite differ_readInteger by lia.
  apply bind_agree. intros n _.
  rewrite differ_readStringWithPrependedLength_while by lia. reflexivity.
Qed.

Lemma differ_readFixedLengthString_while (offset length : Z) (fuel : nat)
    (i : Z) (result : std_string) :
  20 < i + offset + 2 ->
  readFixedLengthString_while a offset length fuel i result
  = readFixedLengthString_while b offset length fuel i result.
Proof.
  revert i result. induction fuel as [| fuel IH]; intros i result Hi;
    cbn [readFixedLengthString_while]; [reflexivity |].
  destruct (i <? length); [| reflexivity].
  rewrite differ_size, differ_readUtf16Codepoint by exact Hi.
  apply bind_agree. intros [codepoint bytesRead] Hread.
  apply readUtf16Codepoint_Returned in Hread. apply IH. lia.
Qed.

Lemma differ_readFixedLengthString (offset length : Z) :
  20 < offset + 2 ->
  readFixedLengthString a offset length = readFixedLengthString b offset length.
Proof.
  intros Hoffset. unfold readFixedLengthString.
  apply differ_readFixedLengthString_while. lia.
Qed.

Lemma differ_flag_read :
  (size a < 21
   /\ readInteger uint8_t a 20
      = ([Request 20 1], Thrown (InvalidLnkFile "Index out of range"))
   /\ readInteger uint8_t b 20
      = ([Request 20 1], Thrown (InvalidLnkFile "Index out of range")))
  \/ (readInteger uint8_t a 20 = ([Request 20 1; At 20], Returned (byte_at a 20))
      /\ readInteger uint8_t b 20 = ([Request 20 1; At 20], Returned (byte_at b 20))).
Proof.
  pose proof differ_size as Hsize. unfold readInteger, bind. cbn [emit fst snd sizeof app].
  rewrite <- Hsize.
  destruct (Z.gtb_spec (20 + 1) (size a)) as [Hout | Hin].
  - left. split; [lia |]. split; reflexivity.
  - right. change (Z.to_nat 1) with 1%nat. cbn [readInteger_for].
    assert (Hread : forall c, 21 <= size c ->
              bind (vector_at c (20 + 0))
                (fun x => ret (cast uint8_t (0 + x * Z.shiftl 1 (0 * 8))))
              = ([At 20], Returned (byte_at c 20))).
    { intros c Hc. unfold vector_at, bind, byte_at. cbn [emit fst snd app].
      change (20 + 0 <? 0) with false. cbn iota.
      change (Z.to_nat (20 + 0)) with 20%nat. change (Z.to_nat 20) with 20%nat.
      destruct (nth_error c 20) as [x |] eqn:E.
      - cbn [ret fst snd app]. rewrite (nth_error_nth _ _ _ E).
        pose proof (byte_value_range x).
        unfold cast. cbn [sizeof]. change (Z.shiftl 1 (0 * 8)) with 1.
        change (2 ^ (8 * 1)) with 256.
        rewrite Z.mod_small by lia. do 2 f_equal. lia.
      - apply nth_error_None in E. unfold size in Hc. lia. }
    rewrite !Hread by lia. split; reflexivity.
Qed.

End FlagBits.

Lemma mbind_assoc {A B C} (m : Method A) (f : A -> Method B) (g : B -> Method C)
    (this : LnkFileInfo) :
  mbind (mbind m f) g this = mbind m (fun x => mbind (f x) g) this.
Proof.
  unfold mbind, value, events.
  destruct (m this) as [this1 [trace1 [x | e |]]]; cbn [fst snd];
    [| reflexivity | reflexivity].
  destruct (f x this1) as [this2 [trace2 [y | e |]]]; cbn [fst snd];
    [| reflexivity | reflexivity].
  rewrite app_assoc. reflexivity.
Qed.

Lemma mbind_mret {A B} (x : A) (f : A -> Method B) (this : LnkFileInfo) :
  mbind (mret x) f this = f x this.
Proof.
  unfold mbind, mret. cbn [fst snd value events ret app].
  destruct (f x this) as [this' [trace result]]. reflexivity.
Qed.

Lemma mbind_mthrow {A B} (e : Exception) (f : A -> Method B) (this : LnkFileInfo) :
  mbind (mthrow e) f this = mthrow e this.
Proof. reflexivity. Qed.

Lemma agree_read {A B} (r r' : Read A) (f f' : A -> Method B) (this : LnkFileInfo) :
  r = r' ->
  (forall x, value r = Returned x -> f x this = f' x this) ->
  mbind (read r) f this = mbind (read r') f' this.
Proof.
  intros <- H. unfold mbind, read. cbn [fst snd]. unfold value in *.
  destruct (snd r) as [x | e |]; [rewrite (H x eq_refl) |..]; reflexivity.
Qed.

Lemma agree_assign {B} (g : LnkFileInfo -> LnkFileInfo) (f f' : unit -> Method B)
    (this : LnkFileInfo) :
  f tt (g this) = f' tt (g this) ->
  mbind (assign g) f this = mbind (assign g) f' this.
Proof.
  intros H. unfold mbind, assign. cbn [fst snd value ret]. rewrite H. reflexivity.
Qed.

Lemma agree_get_this {B} (f f' : LnkFileInfo -> Method B) (this : LnkFileInfo) :
  f this this = f' this this ->
  mbind get_this f this = mbind get_this f' this.
Proof.
  intros H. unfold mbind, get_this. cbn [fst snd value ret]. rewrite H. reflexivity.
Qed.

Lemma agree_flag_read {B} (a b : list byte) (f f' : Z -> Method B)
    (this : LnkFileInfo) :
  differ_in_low_flag_bits a b ->
  (forall x y, Z.land x 0xFC = Z.land y 0xFC -> f x this = f' y this) ->
  mbind (read (readInteger uint8_t a 20)) f this
  = mbind (read (readInteger uint8_t b 20)) f' this.
Proof.
  intros Hdiffer H. unfold mbind, read. cbn [fst snd].
  destruct (differ_flag_read a b Hdiffer) as [[_ [-> ->]] | [-> ->]].
  - reflexivity.
  - cbn [value snd events fst]. rewrite (H (byte_at a 20) (byte_at b 20)).
    + reflexivity.
    + apply Hdiffer.
Qed.

Lemma readStringWithPrependedLength_next_after (bytes : list byte) (i : Z)
    (data : std_string * Z) :
  value (readStringWithPrependedLength bytes i) = Returned data ->
  i + 2 <= snd data.
Proof.
  intros H. apply readStringWithPrependedLength_Returned in H.
  destruct H as [_ ->]. pose proof (little_endian_range uint16_t bytes i). lia.
Qed.

Lemma flag_test_agree (x y mask : Z) :
  Z.land x 0xFC = Z.land y 0xFC -> Z.land 0xFC mask = mask ->
  Z.land x mask = Z.land y mask.
Proof.
  intros Hxy Hmask. rewrite <- Hmask, !Z.land_assoc, Hxy. reflexivity.
Qed.

Ltac note_range T c i :=
  lazymatch goal with
  | _ : 0 <= little_endian T c i < _ |- _ => fail
  | _ => pose proof (little_endian_range T c i)
  end.

Ltac note_size l :=
  lazymatch goal with
  | _ : 0 <= size l |- _ => fail
  | _ => pose proof (size_nonneg l)
  end.

Ltac offset_after_header :=
  repeat match goal with
    | |- context [little_endian ?T ?c ?i] => note_range T c i
    | _ : context [little_endian ?T ?c ?i] |- _ => note_range T c i
    | |- context [size ?l] => note_size l
    end;
  unfold cast in *; cbn [sizeof] in *;
  change (2 ^ (8 * 1)) with 256 in *; change (2 ^ (8 * 2)) with 65536 in *;
  change (2 ^ (8 * 4)) with 4294967296 in *;
  change (2 ^ 16) with 65536 in *; change (2 ^ 32) with 4294967296 in *;
  Z.div_mod_to_equations; lia.

Section Agree.

Variables a b : list byte.
Hypothesis Hdiffer : differ_in_low_flag_bits a b.

Ltac agree_step :=
  lazymatch goal with
  | |- mbind (mbind _ _) _ _ = _ => rewrite !mbind_assoc
  | |- mbind (mret _) _ _ = _ => rewrite !mbind_mret; cbv beta
  | |- mbind (if ?c then _ else _) _ _ = _ =>
      let E := fresh "E" in destruct c eqn:E
  | |- mbind (read (readInteger uint8_t a 20)) _ _ = _ =>
      let x := fresh "flags" in let y := fresh "flags'" in
      let Hxy := fresh "Hflags" in
      apply (agree_flag_read a b _ _ _ Hdiffer); intros x y Hxy;
      rewrite !(flag_test_agree x y _ Hxy) by reflexivity
  | |- mbind (read (readInteger ?T a ?i)) _ _ = _ =>
      let v := fresh "v" in let Hv := fresh "Hv" in
      apply agree_read;
      [ apply (differ_readInteger a b Hdiffer); offset_after_header
      | intros v Hv; apply readInteger_Returned in Hv; destruct Hv as (_ & _ & ->) ]
  | |- mbind (read (readNullTerminatedString a ?i)) _ _ = _ =>
      apply agree_read;
      [ apply (differ_readNullTerminatedString a b Hdiffer); offset_after_header
      | intros ? _ ]
  | |- mbind (read (readFixedLengthString a _ _)) _ _ = _ =>
      apply agree_read;
      [ apply (differ_readFixedLengthString a b Hdiffer); offset_after_header
      | intros ? _ ]
  | |- mbind (read (readStringWithPrependedLength a ?i)) _ _ = _ =>
      let data := fresh "data" in let Hdata := fresh "Hdata" in
      apply agree_read;
      [ apply (differ_readStringWithPrependedLength a b Hdiffer); offset_after_header
      | intros data Hdata; apply readStringWithPrependedLength_next_after in Hdata ]
  | |- mbind (assign _) _ _ = _ => apply agree_assign
  | |- mbind get_this _ _ = _ => apply agree_get_this
  | |- mbind (mthrow _) _ _ = _ => rewrite !mbind_mthrow; reflexivity
  | |- (if ?c then _ else _) _ = _ =>
      let E := fresh "E" in destruct c eqn:E
  | |- mret _ _ = _ => reflexivity
  | |- assign _ _ = _ => reflexivity
  end; fields.

Lemma refresh_agrees (this : LnkFileInfo) :
  offsets_do_not_wrap a ->
  refresh (Some a) this = refresh (Some b) this.
Proof.
  intros Hwrap. unfold offsets_do_not_wrap, networkFlag, linkInfoStart in Hwrap.
  cbv zeta in Hwrap. destruct Hwrap as [Hstart [Hnext Hbranch]].
  unfold refresh. cbv beta iota zeta.
  repeat agree_step.
Qed.

End Agree.

Lemma differ_at_offset_20 (pre post : list byte) (x y : byte) :
  List.length pre = 20%nat ->
  Z.land (byte_value x) 0xFC = Z.land (byte_value y) 0xFC ->
  differ_in_low_flag_bits (pre ++ x :: post) (pre ++ y :: post).
Proof.
  intros Hpre Hbits. split; [| split].
  - rewrite !length_app. reflexivity.
  - intros k Hk. destruct (Nat.ltb_spec k 20) as [Hlow | Hhigh].
    + rewrite !nth_error_app1 by lia. reflexivity.
    + rewrite !nth_error_app2 by lia. rewrite Hpre.
      destruct (k - 20)%nat as [| n] eqn:E; [lia | reflexivity].
  - unfold byte_at. change (Z.to_nat 20) with 20%nat.
    rewrite <- Hpre, !nth_middle. exact Hbits.
Qed.

(** ** The two lowest flag bits *)

(** C10, as the code has it.  For two buffers that differ at most in the two
    lowest bits of the byte at offset 20, when none of the offsets that
    locate a field from the LinkInfo start wraps around, [refresh] ends in
    the same way on both, with the same exception or with the same object. *)
Theorem low_flag_bits_do_not_matter (a b : list byte) (this : LnkFileInfo) :
  differ_in_low_flag_bits a b ->
  offsets_do_not_wrap a ->
  result_of (refresh (Some a) this) = result_of (refresh (Some b) this)
  /\ object_after (refresh (Some a) this) = object_after (refresh (Some b) this).
Proof.
  intros Hdiffer Hwrap.
  rewrite (refresh_agrees a b Hdiffer this Hwrap). split; reflexivity.
Qed.

(** The witness: [plain_link] with the flag bytes 0 and 3. *)
Lemma low_flag_bits_do_not_matter_witness :
  result_of (refresh (Some (firstn 20 plain_link ++ x00 :: skipn 21 plain_link))
               decoded_with_icon)
  = result_of (refresh (Some (firstn 20 plain_link ++ x03 :: skipn 21 plain_link))
                 decoded_with_icon)
  /\ object_after (refresh (Some (firstn 20 plain_link ++ x00 :: skipn 21 plain_link))
                     decoded_with_icon)
     = object_after (refresh (Some (firstn 20 plain_link ++ x03 :: skipn 21 plain_link))
                       decoded_with_icon).
Proof.
  apply low_flag_bits_do_not_matter.
  - apply differ_at_offset_20; reflexivity.
  - vm_compute. repeat split.
Defined.

(** C10 as stated fails when an offset wraps around.  The two buffers
    [aliased_link x00] and [aliased_link x01] differ in the lowest bit of
    the byte at offset 20 only.  Their volume table offset FFFFFFC2 makes
    the 32-bit sum 78 + FFFFFFC2 wrap to 16, and the volume type is read
    from offset 20: both buffers decode, to volume types 0 and 1. *)
Lemma low_flag_bit_read_as_volume_type :
  differ_in_low_flag_bits (aliased_link x00) (aliased_link x01)
  /\ result_of (refresh (Some (aliased_link x00)) decoded_with_icon) = Returned tt
  /\ result_of (refresh (Some (aliased_link x01)) decoded_with_icon) = Returned tt
  /\ targetVolumeType
       (object_after (refresh (Some (aliased_link x00)) decoded_with_icon)) = Unknown
  /\ targetVolumeType
       (object_after (refresh (Some (aliased_link x01)) decoded_with_icon))
     = NoRootDirectory.
Proof.
  split.
  - apply (differ_at_offset_20 (firstn 20 (aliased_link x00))
             (skipn 21 (aliased_link x00)) x00 x01); reflexivity.
  - vm_compute. repeat split.
Qed.

(** ** Raw accesses go through [readInteger] *)

Lemma covered_nil (bytes : list byte) : covered bytes [].
Proof. intros k []. Qed.

Lemma covered_app (bytes : list byte) (t t' : list Event) :
  covered bytes t -> covered bytes t' -> covered bytes (t ++ t').
Proof.
  intros Ht Ht' k Hk. apply in_app_or in Hk.
  destruct Hk as [Hk | Hk]; [destruct (Ht k Hk) as (i & w & Hin & H)
                            | destruct (Ht' k Hk) as (i & w & Hin & H)];
    exists i, w; (split; [apply in_or_app; auto | exact H]).
Qed.

Lemma covered_bind (bytes : list byte) {A B} (m : Read A) (f : A -> Read B) :
  covered bytes (events m) ->
  (forall a, value m = Returned a -> covered bytes (events (f a))) ->
  covered bytes (events (bind m f)).
Proof.
  intros Hm Hf. rewrite events_bind.
  destruct (value m) as [a | e |] eqn:E; [| exact Hm | exact Hm].
  apply covered_app; [exact Hm | apply Hf; reflexivity].
Qed.

Lemma events_readInteger_for (T : IntegerType) (bytes : list byte) (i : Z)
    (n : nat) (j result : Z) (k : Z) :
  In (At k) (events (readInteger_for T bytes i n j result)) ->
  i + j <= k < i + j + Z.of_nat n.
Proof.
  revert j result. induction n as [| n IH]; intros j result Hk; [destruct Hk |].
  cbn [readInteger_for] in Hk. rewrite events_bind, events_vector_at in Hk.
  destruct (value (vector_at bytes (i + j))) as [x | e |].
  - destruct Hk as [Hk | Hk]; [injection Hk as <-; lia |].
    apply IH in Hk. lia.
  - destruct Hk as [Hk | []]. injection Hk as <-. lia.
  - destruct Hk as [Hk | []]. injection Hk as <-. lia.
Qed.

Lemma covered_readInteger (T : IntegerType) (bytes : list byte) (i : Z) :
  covered bytes (events (readInteger T bytes i)).
Proof.
  unfold readInteger. rewrite events_bind. cbn [value emit snd events fst].
  destruct (Z.gtb_spec (i + sizeof T) (size bytes)) as [Hout | Hin].
  - intros k [Hk | []]. discriminate.
  - intros k [Hk | Hk]; [discriminate |].
    apply events_readInteger_for in Hk.
    exists i, (sizeof T). split; [left; reflexivity |].
    destruct T; cbn [sizeof] in *; lia.
Qed.

Lemma covered_ret (bytes : list byte) {A} (a : A) : covered bytes (events (ret a)).
Proof. apply covered_nil. Qed.

Lemma covered_readNullTerminatedString_while (bytes : list byte) (fuel : nat)
    (i : Z) (result : std_string) :
  covered bytes (events (readNullTerminatedString_while bytes fuel i result)).
Proof.
  revert i result. induction fuel as [| fuel IH]; intros i result;
    [apply covered_nil |].
  cbn [readNullTerminatedString_while].
  apply covered_bind; [apply covered_readInteger |].
  intros c _. destruct (c =? 0); [apply covered_ret |].
  destruct (c <? 0x80); apply IH.
Qed.

Lemma covered_readUtf16Codepoint (bytes : list byte) (i end_ : Z) :
  covered bytes (events (readUtf16Codepoint bytes i end_)).
Proof.
  unfold readUtf16Codepoint.
  apply covered_bind; [apply covered_readInteger |].
  intros high _. apply covered_bind.
  - destruct (negb (_ =? GENERIC_SURROGATE_VALUE)); [apply covered_ret |].
    destruct (_ || _); [apply covered_ret |].
    apply covered_bind; [apply covered_readInteger |].
    intros low _. destruct (negb _); apply covered_ret.
  - intros [codepoint bytesRead] _. apply covered_ret.
Qed.

Lemma covered_readStringWithPrependedLength_while (bytes : list byte) (end_ : Z)
    (fuel : nat) (i : Z) (result : std_string) :
  covered bytes
    (events (readStringWithPrependedLength_while bytes end_ fuel i result)).
Proof.
  revert i result. induction fuel as [| fuel IH]; intros i result;
    cbn [readStringWithPrependedLength_while];
    (destruct (i <=? end_); [| apply covered_ret]).
  - apply covered_nil.
  - apply covered_bind; [apply covered_readUtf16Codepoint |].
    intros [text bytesRead] _. apply IH.
Qed.

Lemma covered_readStringWithPrependedLength (bytes : list byte) (i : Z) :
  covered bytes (events (readStringWithPrependedLength bytes i)).
Proof.
  unfold readStringWithPrependedLength.
  apply covered_bind; [apply covered_readInteger |].
  intros n _. apply covered_bind.
  - apply covered_readStringWithPrependedLength_while.
  - intros result _. apply covered_ret.
Qed.

Lemma covered_readFixedLengthString (bytes : list byte) (offset length : Z) :
  covered bytes (events (readFixedLengthString bytes offset length)).
Proof.
  unfold readFixedLengthString. generalize (Z.to_nat length) as fuel.
  generalize 0 as i. generalize (@nil byte) as result.
  intros result i fuel. revert i result.
  induction fuel as [| fuel IH]; intros i result;
    cbn [readFixedLengthString_while];
    (destruct (i <? length); [| apply covered_ret]).
  - apply covered_nil.
  - apply covered_bind; [apply covered_readUtf16Codepoint |].
    intros [text bytesRead] _. apply IH.
Qed.

Lemma covered_mbind (bytes : list byte) {A B} (m : Method A) (f : A -> Method B)
    (this : LnkFileInfo) :
  covered bytes (reads_of (m this)) ->
  (forall a this', covered bytes (reads_of (f a this'))) ->
  covered bytes (reads_of (mbind m f this)).
Proof.
  intros Hm Hf. rewrite reads_mbind.
  destruct (result_of (m this)); [| exact Hm | exact Hm].
  apply covered_app; [exact Hm | apply Hf].
Qed.

Ltac covered_step :=
  lazymatch goal with
  | |- covered _ (reads_of (mbind _ _ _)) => apply covered_mbind; [| intros ? ?]
  | |- covered _ (reads_of (read (readInteger _ _ _) _)) =>
      apply covered_readInteger
  | |- covered _ (reads_of (read (readNullTerminatedString _ _) _)) =>
      apply covered_readNullTerminatedString_while
  | |- covered _ (reads_of (read (readFixedLengthString _ _ _) _)) =>
      apply covered_readFixedLengthString
  | |- covered _ (reads_of (read (readStringWithPrependedLength _ _) _)) =>
      apply covered_readStringWithPrependedLength
  | |- covered _ (reads_of (assign _ _)) => apply covered_nil
  | |- covered _ (reads_of (mret _ _)) => apply covered_nil
  | |- covered _ (reads_of (mthrow _ _)) => apply covered_nil
  | |- covered _ (reads_of (get_this _)) => apply covered_nil
  | |- covered _ (reads_of ((if ?c then _ else _) _)) => destruct c
  end.

Lemma refresh_covered (bytes : list byte) (this : LnkFileInfo) :
  covered bytes (reads_of (refresh (Some bytes) this)).
Proof.
  unfold refresh. cbv beta iota zeta. rewrite mbind_mret. cbv beta.
  repeat covered_step.
Qed.

(** ** Fields that the file does not have *)

(** [refresh] assigns [_iconIndex] and [_iconPath] under the custom-icon
    flag only: without it they are what they were before the call. *)
Lemma refresh_leaves_absent_icon (bytes : list byte) (this : LnkFileInfo) :
  result_of (refresh (Some bytes) this) = Returned tt ->
  Z.land (flagByte bytes) HasCustomIcon = 0 ->
  _iconIndex (object_after (refresh (Some bytes) this)) = _iconIndex this
  /\ _iconPath (object_after (refresh (Some bytes) this)) = _iconPath this.
Proof.
  intros Hreturned Hflag. unfold flagByte in Hflag. revert Hflag.
  by_ensures Hreturned.
  unfold refresh.
  repeat ensures_step; intros Hflag;
    try (rewrite Hflag in *; discriminate); split; reflexivity.
Qed.

(** ** [readInteger] on stored integers *)

Lemma little_endian_app (T : IntegerType) (pre l post : list byte) :
  size l = sizeof T ->
  little_endian T (pre ++ l ++ post) (size pre) = little_endian T l 0.
Proof.
  intros Hl.
  assert (Hat : forall k, 0 <= k < size l ->
                byte_at (pre ++ l ++ post) (size pre + k) = byte_at l k).
  { intros k Hk. rewrite byte_at_app by lia. unfold byte_at, size in *.
    rewrite app_nth1 by lia. reflexivity. }
  destruct T; cbn [sizeof] in Hl; cbn [little_endian];
    rewrite <- (Z.add_0_r (size pre)) at 1;
    rewrite <- ?Z.add_assoc, !Hat by lia; reflexivity.
Qed.

Lemma byte_value_to_char_mod (z : Z) : byte_value (to_char z) = z mod 256.
Proof.
  assert (H : to_char z = to_char (z mod 256))
    by (unfold to_char; rewrite Z.mod_mod by lia; reflexivity).
  rewrite H. apply byte_value_to_char. apply Z.mod_pos_bound. lia.
Qed.

Lemma little_endian_of_bytes (T : IntegerType) (v : Z) :
  0 <= v < 2 ^ (8 * sizeof T) ->
  little_endian T (little_endian_bytes T v) 0 = v.
Proof.
  intros Hv. destruct T; cbn [sizeof] in Hv;
    unfold little_endian_bytes, little_endian, byte_at; cbn [sizeof];
    [ change (Z.to_nat 1) with 1%nat | change (Z.to_nat 2) with 2%nat
    | change (Z.to_nat 4) with 4%nat ];
    cbn [seq map];
    change (Z.to_nat 0) with 0%nat; change (Z.to_nat (0 + 1)) with 1%nat;
    change (Z.to_nat (0 + 2)) with 2%nat; change (Z.to_nat (0 + 3)) with 3%nat;
    cbn [nth]; rewrite !byte_value_to_char_mod;
    change (2 ^ (8 * Z.of_nat 0)) with 1; change (2 ^ (8 * Z.of_nat 1)) with 256;
    change (2 ^ (8 * Z.of_nat 2)) with 65536;
    change (2 ^ (8 * Z.of_nat 3)) with 16777216;
    change (2 ^ (8 * 1)) with 256 in Hv; change (2 ^ (8 * 2)) with 65536 in Hv;
    change (2 ^ (8 * 4)) with 4294967296 in Hv;
    change (2 ^ 8) with 256; change (2 ^ 16) with 65536;
    change (2 ^ 24) with 16777216;
    Z.div_mod_to_equations; lia.
Qed.

Lemma size_little_endian_bytes (T : IntegerType) (v : Z) :
  size (little_endian_bytes T v) = sizeof T.
Proof. destruct T; reflexivity. Qed.

(** X1.  For every integer type [T] and every value [v] of [T], [readInteger]
    gives [v] back from a buffer that holds, at the offset read, the bytes of
    [v] with the low byte first. *)
Theorem readInteger_round_trip (T : IntegerType) (v : Z) (pre post : list byte) :
  0 <= v < 2 ^ (8 * sizeof T) ->
  value (readInteger T (pre ++ little_endian_bytes T v ++ post) (size pre))
  = Returned v.
Proof.
  intros Hv. rewrite value_readInteger by apply size_nonneg.
  rewrite !size_app, size_little_endian_bytes.
  pose proof (size_nonneg post).
  destruct (Z.gtb_spec (size pre + sizeof T) (size pre + (sizeof T + size post)));
    [lia |].
  rewrite little_endian_app by apply size_little_endian_bytes.
  rewrite little_endian_of_bytes by exact Hv. reflexivity.
Qed.

(** The 32-bit value 1852545763 stored after three other bytes. *)
Lemma readInteger_round_trip_witness :
  value (readInteger uint32_t
           ([x4c; x00; x00] ++ little_endian_bytes uint32_t 1852545763 ++ [xff])
           (size [x4c; x00; x00]))
  = Returned 1852545763.
Proof.
  apply (readInteger_round_trip uint32_t 1852545763 [x4c; x00; x00] [xff]).
  vm_compute. split; [discriminate | reflexivity].
Defined.

(** X2.  For an offset [i] whose sum [i + sizeof(T)] does not wrap around in
    [size_t], [readInteger] fails exactly when [i + sizeof(T)] exceeds the
    size of the buffer, with [InvalidLnkFile]; it has then made no raw access
    to the buffer.  In every other case it returns: the [std::out_of_range]
    of [std::vector::at] does not escape. *)
Theorem readInteger_fails_exactly_past_the_end (T : IntegerType) (bytes : list byte)
    (i : Z) :
  0 <= i -> i + sizeof T <= SIZE_MAX ->
  (value (readInteger T bytes i) = Thrown (InvalidLnkFile "Index out of range")
   <-> size bytes < i + sizeof T)
  /\ (size bytes < i + sizeof T ->
      events (readInteger T bytes i) = [Request i (sizeof T)])
  /\ (i + sizeof T <= size bytes ->
      value (readInteger T bytes i) = Returned (little_endian T bytes i)).
Proof.
  intros Hi _. rewrite value_readInteger by exact Hi.
  destruct (Z.gtb_spec (i + sizeof T) (size bytes)) as [Hout | Hin].
  - split; [split; [intros _; exact Hout | reflexivity] |].
    split; [| lia]. intros _.
    unfold readInteger. rewrite events_bind. cbn [value emit snd events fst].
    destruct (Z.gtb_spec (i + sizeof T) (size bytes)); [reflexivity | lia].
  - split; [split; [discriminate | lia] |]. split; [lia | reflexivity].
Qed.

(** A 16-bit read at the last byte of a three-byte buffer. *)
Lemma readInteger_fails_exactly_past_the_end_witness :
  value (readInteger uint16_t [x4c; x00; x01] 2)
  = Thrown (InvalidLnkFile "Index out of range")
  /\ events (readInteger uint16_t [x4c; x00; x01] 2) = [Request 2 2].
Proof.
  destruct (readInteger_fails_exactly_past_the_end uint16_t [x4c; x00; x01] 2)
    as [Hthrown [Hevents _]]; [lia | vm_compute; discriminate |].
  split; [apply Hthrown | apply Hevents]; vm_compute; reflexivity.
Defined.

(** ** [readNullTerminatedString]: Latin-1 to UTF-8 *)

Lemma latin1_two_bytes (c : Z) :
  0x80 <= c < 256 ->
  [to_char (Z.lor 0xc0 (Z.shiftr c 6)); to_char (Z.lor 0x80 (Z.land c 0x3f))]
  = utf8_encode c.
Proof.
  intros Hc. unfold utf8_encode.
  destruct (Z.ltb_spec c 0x80); [lia |].
  destruct (Z.ltb_spec c 0x800); [| lia].
  rewrite (Z.lor_comm 0x80), lor_continuation.
  rewrite Z.shiftr_div_pow2 by lia. change (2 ^ 6) with 64.
  change 0xc0 with (Z.shiftl 3 6) at 1.
  rewrite lor_shiftl_low by (change (2 ^ 6) with 64; Z.div_mod_to_equations; lia).
  reflexivity.
Qed.

Lemma readNullTerminatedString_while_latin1 (latin pre post : list byte)
    (fuel : nat) (result : std_string) :
  Forall (fun b => b <> x00) latin ->
  (List.length latin < fuel)%nat ->
  value (readNullTerminatedString_while (pre ++ latin ++ x00 :: post) fuel
           (size pre) result)
  = Returned (result ++ latin1_to_utf8 latin).
Proof.
  revert pre fuel result.
  induction latin as [| b latin IH]; intros pre fuel result Hnonzero Hfuel;
    (destruct fuel as [| fuel]; [cbn [List.length] in Hfuel; lia |]);
    cbn [readNullTerminatedString_while]; rewrite value_bind;
    rewrite value_readInteger by apply size_nonneg; cbn [sizeof];
    pose proof (size_nonneg post).
  - cbn [app]. rewrite size_app, size_cons.
    destruct (Z.gtb_spec (size pre + 1) (size pre + (1 + size post))); [lia |].
    cbn [little_endian]. rewrite <- (Z.add_0_r (size pre)) at 1.
    rewrite byte_at_app by lia. cbn. rewrite app_nil_r. reflexivity.
  - pose proof (size_nonneg latin).
    cbn [app]. rewrite size_app, size_cons, size_app, size_cons.
    destruct (Z.gtb_spec (size pre + 1)
                (size pre + (1 + (size latin + (1 + size post))))); [lia |].
    cbn [little_endian].
    assert (Hbyte : byte_at (pre ++ b :: latin ++ x00 :: post) (size pre)
                    = byte_value b).
    { rewrite <- (Z.add_0_r (size pre)). rewrite byte_at_app by lia. reflexivity. }
    rewrite !Hbyte.
    inversion Hnonzero as [| ? ? Hb Hrest]; subst.
    pose proof (byte_value_range b) as Hrange.
    destruct (Z.eqb_spec (byte_value b) 0) as [Hzero | _];
      [exfalso; apply Hb; apply byte_value_inj; rewrite Hzero; reflexivity |].
    change (pre ++ b :: latin ++ x00 :: post)
      with (pre ++ [b] ++ latin ++ x00 :: post).
    rewrite app_assoc.
    replace (size pre + 1) with (size (pre ++ [b]))
      by (rewrite size_app; reflexivity).
    unfold latin1_to_utf8. cbn [flat_map]. fold (latin1_to_utf8 latin).
    destruct (Z.ltb_spec (byte_value b) 0x80) as [Hascii | Hhigh].
    + rewrite IH; [| exact Hrest | cbn [List.length] in Hfuel; lia].
      rewrite <- app_assoc. unfold utf8_encode.
      destruct (Z.ltb_spec (byte_value b) 0x80); [reflexivity | lia].
    + rewrite IH; [| exact Hrest | cbn [List.length] in Hfuel; lia].
      rewrite <- app_assoc, latin1_two_bytes by lia. reflexivity.
Qed.

(** X3.  A Latin-1 text without a zero byte that is stored in the buffer at
    the offset read, followed by a zero byte, is returned by
    [readNullTerminatedString] as UTF-8: every byte becomes the UTF-8 encoding
    of the code point of the same number, one byte below 0x80 and two bytes
    from 0x80 on.  What follows the zero byte plays no part. *)
Theorem readNullTerminatedString_latin1 (latin pre post : list byte) :
  Forall (fun b => b <> x00) latin ->
  value (readNullTerminatedString (pre ++ latin ++ x00 :: post) (size pre))
  = Returned (latin1_to_utf8 latin).
Proof.
  intros Hnonzero. unfold readNullTerminatedString.
  apply (readNullTerminatedString_while_latin1 latin pre post _ []);
    [exact Hnonzero |].
  rewrite !length_app. cbn [List.length]. lia.
Qed.

(** The Latin-1 text [hä]: the byte E4 becomes C3 A4. *)
Lemma readNullTerminatedString_latin1_witness :
  value (readNullTerminatedString ([x4c] ++ [x68; xe4] ++ x00 :: [x41]) (size [x4c]))
  = Returned [x68; xc3; xa4].
Proof.
  apply (readNullTerminatedString_latin1 [x68; xe4] [x4c] [x41]).
  repeat constructor; discriminate.
Defined.

Lemma readNullTerminatedString_while_unterminated (bytes : list byte) (fuel : nat)
    (i : Z) (result : std_string) :
  0 <= i -> (1 <= fuel)%nat -> size bytes - i < Z.of_nat fuel ->
  (forall k, i <= k < size bytes -> byte_at bytes k <> 0) ->
  value (readNullTerminatedString_while bytes fuel i result)
  = Thrown (InvalidLnkFile "Index out of range").
Proof.
  revert i result.
  induction fuel as [| fuel IH]; intros i result Hi Hone Hfuel Hnonzero; [lia |].
  cbn [readNullTerminatedString_while]. rewrite value_bind.
  rewrite value_readInteger by exact Hi. cbn [sizeof].
  destruct (Z.gtb_spec (i + 1) (size bytes)) as [Hout | Hin]; [reflexivity |].
  cbn [little_endian].
  destruct (Z.eqb_spec (byte_at bytes i) 0) as [Hzero | _];
    [exfalso; apply (Hnonzero i); [lia | exact Hzero] |].
  destruct (byte_at bytes i <? 0x80);
    (apply IH; [lia | lia | lia | intros k Hk; apply Hnonzero; lia]).
Qed.

(** X4.  When no byte of the buffer from the offset read up to its end is
    zero, [readNullTerminatedString] throws [InvalidLnkFile]: the text has no
    terminator.  This covers an offset at or after the end of the buffer, as
    long as it is not the largest [size_t], for which the sum [i + 1] of the
    bounds check wraps around. *)
Theorem readNullTerminatedString_unterminated (bytes : list byte) (i : Z) :
  0 <= i -> i < SIZE_MAX ->
  (forall k, i <= k < size bytes -> byte_at bytes k <> 0) ->
  value (readNullTerminatedString bytes i)
  = Thrown (InvalidLnkFile "Index out of range").
Proof.
  intros Hi _ Hnonzero. unfold readNullTerminatedString.
  apply readNullTerminatedString_while_unterminated;
    [exact Hi | lia | unfold size; lia | exact Hnonzero].
Qed.

(** The text [C:] at the end of a buffer, with no zero byte after it. *)
Lemma readNullTerminatedString_unterminated_witness :
  value (readNullTerminatedString [x00; x43; x3a] 1)
  = Thrown (InvalidLnkFile "Index out of range").
Proof.
  apply (readNullTerminatedString_unterminated [x00; x43; x3a] 1);
    [lia | reflexivity |].
  intros k Hk. change (size [x00; x43; x3a]) with 3 in Hk.
  assert (Hcases : k = 1 \/ k = 2) by lia.
  destruct Hcases as [-> | ->]; vm_compute; discriminate.
Defined.

(** ** [readUtf16Codepoint] on any code unit *)

(** X5.  A low surrogate met where a code point starts is decoded to U+FFFD,
    the bytes EF BF BD, with two bytes read, whatever the end bound and
    whatever follows: the code unit after it is not read. *)
Theorem lone_low_surrogate_is_replaced (bytes : list byte) (i end_ : Z) :
  0 <= i -> i + 2 <= size bytes ->
  is_low_surrogate (little_endian uint16_t bytes i) = true ->
  value (readUtf16Codepoint bytes i end_) = Returned ([xef; xbf; xbd], 2)
  /\ events (readUtf16Codepoint bytes i end_) = events (readInteger uint16_t bytes i).
Proof.
  intros Hi Hin Hlow.
  pose proof (little_endian_range uint16_t bytes i) as Hrange. cbn [sizeof] in Hrange.
  unfold is_low_surrogate in Hlow. apply andb_true_iff in Hlow.
  split.
  - rewrite value_readUtf16Codepoint by exact Hi. unfold utf16_step.
    destruct (Z.gtb_spec (i + 2) (size bytes)); [lia |].
    replace (is_surrogate (little_endian uint16_t bytes i)) with true
      by (unfold is_surrogate; symmetry; apply andb_true_iff; lia).
    replace (is_high_surrogate (little_endian uint16_t bytes i)) with false
      by (unfold is_high_surrogate; symmetry; apply andb_false_iff; lia).
    reflexivity.
  - unfold readUtf16Codepoint. rewrite events_bind.
    assert (Hhigh : value (readInteger uint16_t bytes i)
                    = Returned (little_endian uint16_t bytes i)).
    { rewrite value_readInteger by exact Hi. cbn [sizeof].
      destruct (Z.gtb_spec (i + 2) (size bytes)); [lia | reflexivity]. }
    rewrite Hhigh. rewrite events_bind.
    rewrite generic_surrogate_test by exact Hrange.
    replace ((0xD800 <=? little_endian uint16_t bytes i)
             && (little_endian uint16_t bytes i <=? 0xDFFF)) with true
      by (symmetry; apply andb_true_iff; lia).
    cbn [negb]. change HIGH_SURROGATE_VALUE with (54 * 1024).
    rewrite surrogate_test by lia.
    replace ((54 * 1024 <=? little_endian uint16_t bytes i)
             && (little_endian uint16_t bytes i <=? 54 * 1024 + 1023)) with false
      by (symmetry; apply andb_false_iff; lia).
    cbn [negb orb value ret snd events fst]. rewrite !app_nil_r. reflexivity.
Qed.

(** The low surrogate DE0A followed by the letter A. *)
Lemma lone_low_surrogate_is_replaced_witness :
  value (readUtf16Codepoint [x0a; xde; x41; x00] 0 4) = Returned ([xef; xbf; xbd], 2)
  /\ events (readUtf16Codepoint [x0a; xde; x41; x00] 0 4)
     = events (readInteger uint16_t [x0a; xde; x41; x00] 0).
Proof.
  apply (lone_low_surrogate_is_replaced [x0a; xde; x41; x00] 0 4).
  - lia.
  - vm_compute. discriminate.
  - reflexivity.
Defined.

Lemma utf16_step_Returned_scalar (bytes : list byte) (i end_ : Z)
    (text : std_string) (bytesRead : Z) :
  utf16_step bytes i end_ = Returned (text, bytesRead) ->
  exists cp,
    is_scalar_value cp /\ text = utf8_encode cp
    /\ ((bytesRead = 2 /\ cp < 0x10000)
        \/ (bytesRead = 4 /\ 0x10000 <= cp /\ i + 4 <= end_)).
Proof.
  intros H. unfold utf16_step in H.
  destruct (i + 2 >? size bytes); [discriminate |].
  pose proof (little_endian_range uint16_t bytes i) as Hhigh. cbn [sizeof] in Hhigh.
  change (2 ^ (8 * 2)) with 65536 in Hhigh.
  assert (Hreplaced : is_scalar_value 0xFFFD) by (unfold is_scalar_value; lia).
  destruct (is_surrogate (little_endian uint16_t bytes i)) eqn:Esur; cbn [negb] in H.
  - destruct (is_high_surrogate (little_endian uint16_t bytes i)) eqn:Ehigh;
      cbn [negb orb] in H;
      [| injection H as <- <-; exists 0xFFFD; split; [exact Hreplaced |];
         split; [reflexivity | left; lia]].
    destruct (Z.ltb_spec end_ (i + 4));
      [injection H as <- <-; exists 0xFFFD; split; [exact Hreplaced |];
       split; [reflexivity | left; lia] |].
    destruct (i + 4 >? size bytes); [discriminate |].
    destruct (is_low_surrogate (little_endian uint16_t bytes (i + 2))) eqn:Elow;
      cbn [negb] in H;
      [| injection H as <- <-; exists 0xFFFD; split; [exact Hreplaced |];
         split; [reflexivity | left; lia]].
    unfold is_high_surrogate in Ehigh. unfold is_low_surrogate in Elow.
    apply andb_true_iff in Ehigh. apply andb_true_iff in Elow.
    set (cp := 0x10000 + (little_endian uint16_t bytes i - 0xD800) * 0x400
               + (little_endian uint16_t bytes (i + 2) - 0xDC00)) in *.
    assert (Hcp : 0x10000 <= cp <= 0x10FFFF) by (subst cp; lia).
    clearbody cp. injection H as <- <-.
    exists cp. split; [unfold is_scalar_value; lia |].
    split; [reflexivity | right; lia].
  - injection H as <- <-. unfold is_surrogate in Esur.
    apply andb_false_iff in Esur.
    exists (little_endian uint16_t bytes i).
    split; [unfold is_scalar_value; lia |]. split; [reflexivity | left; lia].
Qed.

(** X6.  Whatever the buffer holds, what [readUtf16Codepoint] returns is the
    UTF-8 encoding of exactly one Unicode scalar value: never the encoding of
    a surrogate, never a code point above U+10FFFF.  It has read two bytes for
    a code point up to U+FFFF, and four bytes, which lie before the end bound,
    for a code point above. *)
Theorem readUtf16Codepoint_gives_a_scalar_value (bytes : list byte) (i end_ : Z)
    (text : std_string) (bytesRead : Z) :
  value (readUtf16Codepoint bytes i end_) = Returned (text, bytesRead) ->
  exists cp,
    is_scalar_value cp /\ text = utf8_encode cp
    /\ ((bytesRead = 2 /\ cp < 0x10000)
        \/ (bytesRead = 4 /\ 0x10000 <= cp /\ i + 4 <= end_)).
Proof.
  intros H.
  pose proof (readUtf16Codepoint_Returned _ _ _ _ _ H) as [Hi _].
  rewrite value_readUtf16Codepoint in H by exact Hi.
  exact (utf16_step_Returned_scalar _ _ _ _ _ H).
Qed.

(** The surrogate pair D83D DE0A gives U+1F60A. *)
Lemma readUtf16Codepoint_gives_a_scalar_value_witness :
  exists cp,
    is_scalar_value cp /\ [xf0; x9f; x98; x8a] = utf8_encode cp
    /\ ((4 = 2 /\ cp < 0x10000) \/ (4 = 4 /\ 0x10000 <= cp /\ 0 + 4 <= 4)).
Proof.
  apply (readUtf16Codepoint_gives_a_scalar_value [x3d; xd8; x0a; xde] 0 4).
  reflexivity.
Defined.

(** X7.  For an offset [i] whose sum [i + 4] does not wrap around in
    [size_t], [readUtf16Codepoint] throws only when the buffer ends: either
    the code unit itself is not inside the buffer, or it is a high surrogate
    whose second code unit is allowed by the end bound and is not inside the
    buffer.  The exception is [InvalidLnkFile].  No content of a code unit
    that is inside the buffer makes it throw. *)
Theorem readUtf16Codepoint_throws_only_at_the_end (bytes : list byte) (i end_ : Z)
    (e : Exception) :
  0 <= i -> i + 4 <= SIZE_MAX ->
  value (readUtf16Codepoint bytes i end_) = Thrown e ->
  e = InvalidLnkFile "Index out of range"
  /\ size bytes < i + 4
  /\ (i + 2 <= size bytes ->
      is_high_surrogate (little_endian uint16_t bytes i) = true /\ i + 4 <= end_).
Proof.
  intros Hi _ H. rewrite value_readUtf16Codepoint in H by exact Hi.
  unfold utf16_step in H.
  destruct (Z.gtb_spec (i + 2) (size bytes));
    [injection H as <-; split; [reflexivity | split; lia] |].
  destruct (negb (is_surrogate _)); [discriminate |].
  destruct (is_high_surrogate (little_endian uint16_t bytes i)); cbn [negb orb] in H;
    [| discriminate].
  destruct (Z.ltb_spec end_ (i + 4)); [discriminate |].
  destruct (Z.gtb_spec (i + 4) (size bytes));
    [injection H as <-; split; [reflexivity | split; [lia | split; [reflexivity | lia]]] |].
  destruct (negb (is_low_surrogate _)); discriminate.
Qed.

(** The high surrogate D83D in the last two bytes of a buffer, with the end
    bound further on. *)
Lemma readUtf16Codepoint_throws_only_at_the_end_witness :
  InvalidLnkFile "Index out of range" = InvalidLnkFile "Index out of range"
  /\ size [x41; x00; x3d; xd8] < 2 + 4
  /\ (2 + 2 <= size [x41; x00; x3d; xd8] ->
      is_high_surrogate (little_endian uint16_t [x41; x00; x3d; xd8] 2) = true
      /\ 2 + 4 <= 8).
Proof.
  apply (readUtf16Codepoint_throws_only_at_the_end [x41; x00; x3d; xd8] 2 8).
  - lia.
  - vm_compute. discriminate.
  - reflexivity.
Defined.

(** ** Strings of code points *)

Lemma utf16_step_code_unit (cp : Z) (pre post : list byte) (end_ : Z) :
  is_scalar_value cp -> cp < 0x10000 ->
  utf16_step (pre ++ utf16le (utf16_encode cp) ++ post) (size pre) end_
  = Returned (utf8_encode cp, 2).
Proof.
  intros [Hrange Hsur] Hbmp.
  pose proof (size_nonneg pre) as Hpre. pose proof (size_nonneg post).
  unfold utf16_step, utf16_encode.
  destruct (Z.ltb_spec cp 0x10000); [| lia].
  cbn [utf16le flat_map app]. rewrite !size_app, !size_cons.
  destruct (Z.gtb_spec (size pre + 2) (size pre + (1 + (1 + size post)))); [lia |].
  rewrite little_endian16_app by reflexivity.
  rewrite code_unit_bytes by (change (2 ^ 16) with 65536; lia).
  unfold is_surrogate.
  destruct (Z.leb_spec 0xD800 cp), (Z.leb_spec cp 0xDFFF); cbn [andb negb];
    try reflexivity; lia.
Qed.

Lemma last_cons_cons {A} (a b : A) (l : list A) (d : A) :
  last (a :: b :: l) d = last (b :: l) d.
Proof. reflexivity. Qed.

Lemma readStringWithPrependedLength_while_encoded (codepoints : list Z)
    (pre post : list byte) (end_ : Z) (fuel : nat) (result : std_string) :
  Forall is_scalar_value codepoints ->
  last codepoints 0 < 0x10000 ->
  end_ + 2 = size pre + size (utf16le (flat_map utf16_encode codepoints)) ->
  size (flat_map utf16_encode codepoints) <= Z.of_nat fuel ->
  value (readStringWithPrependedLength_while
           (pre ++ utf16le (flat_map utf16_encode codepoints) ++ post)
           end_ fuel (size pre) result)
  = Returned (result ++ flat_map utf8_encode codepoints).
Proof.
  revert pre fuel result.
  induction codepoints as [| cp codepoints IH];
    intros pre fuel result Hscalar Hlast Hend Hfuel.
  - cbn [flat_map utf16le] in *. change (size []) with 0 in Hend.
    destruct fuel; cbn [readStringWithPrependedLength_while];
      (destruct (Z.leb_spec (size pre) end_); [lia |]);
      rewrite app_nil_r; reflexivity.
  - inversion Hscalar as [| ? ? Hcp Hrest]; subst.
    cbn [flat_map] in *. rewrite utf16le_app in *.
    rewrite size_app in Hfuel. rewrite size_app, !size_utf16le in Hend.
    pose proof (size_utf16_encode_pos cp) as Hpos.
    pose proof (size_nonneg (flat_map utf16_encode codepoints)) as Hpos'.
    destruct fuel as [| fuel]; [lia |].
    cbn [readStringWithPrependedLength_while].
    destruct (Z.leb_spec (size pre) end_); [| lia].
    rewrite value_bind, value_readUtf16Codepoint by apply size_nonneg.
    rewrite <- app_assoc.
    assert (Hstep : utf16_step
                      (pre ++ utf16le (utf16_encode cp)
                           ++ utf16le (flat_map utf16_encode codepoints) ++ post)
                      (size pre) end_
                    = Returned (utf8_encode cp, size (utf16le (utf16_encode cp)))).
    { destruct (Z.ltb_spec cp 0x10000) as [Hbmp | Hsupp].
      - rewrite utf16_step_code_unit by assumption.
        unfold utf16_encode. destruct (Z.ltb_spec cp 0x10000); [reflexivity | lia].
      - apply utf16_step_encoded; [exact Hcp |].
        destruct codepoints as [| cp' codepoints]; [cbn [last] in Hlast; lia |].
        cbn [flat_map] in Hend. rewrite size_app in Hend.
        pose proof (size_utf16_encode_pos cp').
        pose proof (size_nonneg (flat_map utf16_encode codepoints)).
        rewrite size_utf16le.
        assert (Htwo : size (utf16_encode cp) = 2)
          by (unfold utf16_encode; destruct (Z.ltb_spec cp 0x10000); [lia | reflexivity]).
        lia. }
    rewrite Hstep. rewrite app_assoc.
    replace (size pre + size (utf16le (utf16_encode cp)))
      with (size (pre ++ utf16le (utf16_encode cp))) by apply size_app.
    rewrite IH; [rewrite <- app_assoc; reflexivity | exact Hrest | | |].
    + destruct codepoints as [| cp' codepoints]; [cbn; lia |].
      rewrite last_cons_cons in Hlast. exact Hlast.
    + rewrite size_app, !size_utf16le. lia.
    + lia.
Qed.

(** X8.  A text of Unicode scalar values whose last code point is not above
    U+FFFF, stored as [readStringWithPrependedLength] expects it (the count of
    UTF-16 code units in two bytes, then the code units, low byte first), is
    returned as the UTF-8 encoding of the same code points, together with the
    offset of the byte after the last code unit.  This covers the empty text,
    for which only the count is read. *)
Theorem readStringWithPrependedLength_round_trip (codepoints : list Z)
    (pre post : list byte) :
  Forall is_scalar_value codepoints ->
  last codepoints 0 < 0x10000 ->
  size (flat_map utf16_encode codepoints) < 2 ^ 16 ->
  value (readStringWithPrependedLength
           (pre ++ little_endian_bytes uint16_t (size (flat_map utf16_encode codepoints))
                ++ utf16le (flat_map utf16_encode codepoints) ++ post)
           (size pre))
  = Returned (flat_map utf8_encode codepoints,
              size pre + 2 + 2 * size (flat_map utf16_encode codepoints)).
Proof.
  intros Hscalar Hlast Hcount.
  pose proof (size_nonneg (flat_map utf16_encode codepoints)) as Hunits.
  unfold readStringWithPrependedLength.
  rewrite value_bind, readInteger_round_trip
    by (cbn [sizeof]; change (2 ^ (8 * 2)) with (2 ^ 16); lia).
  rewrite value_bind.
  set (n := size (flat_map utf16_encode codepoints)) in *.
  rewrite app_assoc.
  replace (size pre + 2) with (size (pre ++ little_endian_bytes uint16_t n))
    by (rewrite size_app, size_little_endian_bytes; reflexivity).
  rewrite (readStringWithPrependedLength_while_encoded codepoints).
  - rewrite value_ret, size_app, size_little_endian_bytes. cbn [app sizeof].
    f_equal. f_equal. lia.
  - exact Hscalar.
  - exact Hlast.
  - rewrite size_app, size_little_endian_bytes, size_utf16le. cbn [sizeof].
    fold n. lia.
  - fold n. lia.
Qed.

(** The text [a], U+1F60A, [.] stored after one other byte: four code
    units. *)
Lemma readStringWithPrependedLength_round_trip_witness :
  value (readStringWithPrependedLength
           ([x07] ++ little_endian_bytes uint16_t
                       (size (flat_map utf16_encode [0x61; 0x1F60A; 0x2E]))
                  ++ utf16le (flat_map utf16_encode [0x61; 0x1F60A; 0x2E]) ++ [x09])
           (size [x07]))
  = Returned (flat_map utf8_encode [0x61; 0x1F60A; 0x2E],
              size [x07] + 2 + 2 * size (flat_map utf16_encode [0x61; 0x1F60A; 0x2E])).
Proof.
  apply (readStringWithPrependedLength_round_trip [0x61; 0x1F60A; 0x2E] [x07] [x09]).
  - repeat constructor; unfold is_scalar_value; lia.
  - vm_compute. reflexivity.
  - vm_compute. reflexivity.
Defined.

(** ** The end of a length-prefixed string *)

Lemma readStringWithPrependedLength_while_reads_last (bytes : list byte) (end_ : Z)
    (fuel : nat) (i : Z) (result text : std_string) :
  (end_ - i) mod 2 = 0 ->
  value (readStringWithPrependedLength_while bytes end_ fuel i result)
  = Returned text ->
  i <= end_ -> end_ + 2 <= size bytes.
Proof.
  revert i result. induction fuel as [| fuel IH]; intros i result Heven H Hi.
  - cbn [readStringWithPrependedLength_while] in H.
    destruct (Z.leb_spec i end_); [discriminate | lia].
  - cbn [readStringWithPrependedLength_while] in H.
    destruct (Z.leb_spec i end_); [| lia].
    apply bind_Returned in H. destruct H as [[codepoint bytesRead] [Hread H]].
    apply readUtf16Codepoint_Returned in Hread.
    destruct (Z.leb_spec (i + bytesRead) end_) as [Hmore | Hlast].
    + apply (IH (i + bytesRead) (result ++ codepoint)); [| exact H | exact Hmore].
      destruct Hread as [_ [_ [-> | [-> _]]]]; Z.div_mod_to_equations; lia.
    + destruct Hread as [_ [Hin [-> | [-> [Hend _]]]]]; [| lia].
      assert (end_ = i) by (Z.div_mod_to_equations; lia). lia.
Qed.

(** X9.  When [readStringWithPrependedLength] returns, the whole field lies
    inside the buffer: the offset it returns for the next field is at least
    two bytes after the offset read and at most the size of the buffer.  A
    count of code units that reaches past the end of the buffer is never
    accepted. *)
Theorem readStringWithPrependedLength_stays_inside (bytes : list byte) (i : Z)
    (text : std_string) (next : Z) :
  value (readStringWithPrependedLength bytes i) = Returned (text, next) ->
  i + 2 <= next <= size bytes.
Proof.
  intros H. unfold readStringWithPrependedLength in H.
  apply bind_Returned in H. destruct H as [n [Hn H]].
  apply bind_Returned in H. destruct H as [result [Hloop H]].
  rewrite value_ret in H. injection H as _ <-.
  pose proof (readInteger_Returned_range _ _ _ _ Hn) as Hrange.
  apply readInteger_Returned in Hn. cbn [sizeof] in Hn, Hrange.
  destruct (Z.eq_dec n 0) as [-> | Hpos]; [lia |].
  pose proof (readStringWithPrependedLength_while_reads_last _ _ _ _ _ _
                ltac:(replace (i + n * 2 - (i + 2)) with ((n - 1) * 2) by lia;
                      apply Z.mod_mul; lia) Hloop).
  lia.
Qed.

(** A string of two code units in a buffer of six bytes. *)
Lemma readStringWithPrependedLength_stays_inside_witness :
  0 + 2 <= 6 <= size [x02; x00; x41; x00; x42; x00].
Proof.
  apply (readStringWithPrependedLength_stays_inside
           [x02; x00; x41; x00; x42; x00] 0 [x41; x42] 6).
  reflexivity.
Defined.

(** ** A surrogate pair at the end of a length-prefixed string *)

Lemma utf16_step_surrogate (u : Z) (pre post : list byte) (end_ : Z) :
  0xD800 <= u <= 0xDFFF ->
  end_ < size pre + 4 \/ 0xDC00 <= u ->
  utf16_step (pre ++ utf16le [u] ++ post) (size pre) end_
  = Returned (utf8_encode 0xFFFD, 2).
Proof.
  intros Hu Hlone.
  pose proof (size_nonneg pre) as Hpre. pose proof (size_nonneg post).
  unfold utf16_step. cbn [utf16le flat_map app].
  rewrite !size_app, !size_cons.
  destruct (Z.gtb_spec (size pre + 2) (size pre + (1 + (1 + size post)))); [lia |].
  rewrite little_endian16_app by reflexivity.
  rewrite code_unit_bytes by (change (2 ^ 16) with 65536; lia).
  replace (is_surrogate u) with true
    by (unfold is_surrogate; symmetry; apply andb_true_iff; lia).
  cbn [negb]. unfold is_high_surrogate.
  destruct (Z.leb_spec 0xD800 u); [| lia].
  destruct (Z.leb_spec u 0xDBFF); cbn [andb negb orb]; [| reflexivity].
  destruct (Z.ltb_spec end_ (size pre + 4)); [reflexivity | lia].
Qed.

Lemma readStringWithPrependedLength_while_last_pair (codepoints : list Z)
    (high low : Z) (pre post : list byte) (end_ : Z) (fuel : nat)
    (result : std_string) :
  Forall is_scalar_value codepoints ->
  0xD800 <= high <= 0xDBFF -> 0xDC00 <= low <= 0xDFFF ->
  end_ = size pre + size (utf16le (flat_map utf16_encode codepoints)) + 2 ->
  size (flat_map utf16_encode codepoints) + 2 <= Z.of_nat fuel ->
  value (readStringWithPrependedLength_while
           (pre ++ utf16le (flat_map utf16_encode codepoints)
                ++ utf16le [high] ++ utf16le [low] ++ post)
           end_ fuel (size pre) result)
  = Returned (result ++ flat_map utf8_encode codepoints
                     ++ utf8_encode 0xFFFD ++ utf8_encode 0xFFFD).
Proof.
  revert pre fuel result.
  induction codepoints as [| cp codepoints IH];
    intros pre fuel result Hscalar Hhigh Hlow Hend Hfuel.
  - cbn [flat_map] in *. change (utf16le []) with (@nil byte) in *.
    change (size []) with 0 in *. cbn [app].
    destruct fuel as [| [| fuel]]; [lia | lia |].
    cbn [readStringWithPrependedLength_while].
    destruct (Z.leb_spec (size pre) end_); [| lia].
    rewrite value_bind, value_readUtf16Codepoint by apply size_nonneg.
    rewrite utf16_step_surrogate by lia.
    destruct (Z.leb_spec (size pre + 2) end_); [| lia].
    rewrite value_bind, value_readUtf16Codepoint
      by (pose proof (size_nonneg pre); lia).
    rewrite app_assoc.
    replace (size pre + 2) with (size (pre ++ utf16le [high]))
      by (rewrite size_app; reflexivity).
    rewrite utf16_step_surrogate by lia.
    assert (Hdone : size (pre ++ utf16le [high]) + 2 > end_)
      by (rewrite size_app; change (size (utf16le [high])) with 2; lia).
    destruct fuel; cbn [readStringWithPrependedLength_while];
      (destruct (Z.leb_spec (size (pre ++ utf16le [high]) + 2) end_); [lia |]);
      rewrite <- app_assoc; reflexivity.
  - pose proof (Forall_inv Hscalar) as Hcp.
    pose proof (Forall_inv_tail Hscalar) as Hrest.
    cbn [flat_map] in *. rewrite utf16le_app in *.
    rewrite size_app in Hfuel. rewrite size_app, !size_utf16le in Hend.
    pose proof (size_utf16_encode_pos cp) as Hpos.
    pose proof (size_nonneg (flat_map utf16_encode codepoints)) as Hpos'.
    destruct fuel as [| fuel]; [lia |].
    cbn [readStringWithPrependedLength_while].
    destruct (Z.leb_spec (size pre) end_); [| lia].
    rewrite value_bind, value_readUtf16Codepoint by apply size_nonneg.
    rewrite <- app_assoc.
    rewrite utf16_step_encoded by (try exact Hcp; rewrite size_utf16le; lia).
    rewrite app_assoc.
    replace (size pre + size (utf16le (utf16_encode cp)))
      with (size (pre ++ utf16le (utf16_encode cp))) by apply size_app.
    rewrite IH; [rewrite <- !app_assoc; reflexivity | exact Hrest | lia | lia | |].
    + rewrite size_app, !size_utf16le. lia.
    + lia.
Qed.

(** X10.  A text of Unicode scalar values that ends with a code point above
    U+FFFF, stored as [readStringWithPrependedLength] expects it, does not
    come back whole: the end bound of the string is the offset of its last
    code unit, so that the last surrogate pair is not decoded as a pair.  What
    is returned is the UTF-8 encoding of the code points before the last one,
    followed by U+FFFD twice, once for each surrogate.  The offset returned is
    the offset after the last code unit. *)
Theorem readStringWithPrependedLength_replaces_a_last_pair (codepoints : list Z)
    (last : Z) (pre post : list byte) :
  Forall is_scalar_value codepoints ->
  0x10000 <= last <= 0x10FFFF ->
  size (flat_map utf16_encode (codepoints ++ [last])) < 2 ^ 16 ->
  value (readStringWithPrependedLength
           (pre ++ little_endian_bytes uint16_t
                     (size (flat_map utf16_encode (codepoints ++ [last])))
                ++ utf16le (flat_map utf16_encode (codepoints ++ [last])) ++ post)
           (size pre))
  = Returned (flat_map utf8_encode codepoints
                ++ utf8_encode 0xFFFD ++ utf8_encode 0xFFFD,
              size pre + 2 + 2 * size (flat_map utf16_encode (codepoints ++ [last]))).
Proof.
  intros Hscalar Hlast Hcount.
  pose proof (size_nonneg (flat_map utf16_encode (codepoints ++ [last]))) as Hunits.
  unfold readStringWithPrependedLength.
  rewrite value_bind, readInteger_round_trip
    by (cbn [sizeof]; change (2 ^ (8 * 2)) with (2 ^ 16); lia).
  rewrite value_bind.
  set (n := size (flat_map utf16_encode (codepoints ++ [last]))) in *.
  assert (Hn : n = size (flat_map utf16_encode codepoints) + 2).
  { subst n. rewrite flat_map_app, size_app. cbn [flat_map]. unfold utf16_encode at 2.
    destruct (Z.ltb_spec last 0x10000); [lia | reflexivity]. }
  rewrite flat_map_app, utf16le_app. cbn [flat_map]. rewrite app_nil_r.
  unfold utf16_encode at 2. destruct (Z.ltb_spec last 0x10000); [lia |].
  change (utf16le [?h; ?l]) with (utf16le [h] ++ utf16le [l]).
  rewrite <- !app_assoc.
  rewrite (app_assoc pre).
  pose proof (readStringWithPrependedLength_while_last_pair codepoints
                (0xD800 + (last - 0x10000) / 0x400)
                (0xDC00 + (last - 0x10000) mod 0x400)
                (pre ++ little_endian_bytes uint16_t n) post
                (size pre + n * 2) (Z.to_nat n) []) as Hloop.
  rewrite size_app, size_little_endian_bytes in Hloop. cbn [sizeof] in Hloop.
  rewrite Hloop.
  - rewrite value_ret. cbn [app]. f_equal. f_equal. lia.
  - exact Hscalar.
  - Z.div_mod_to_equations; lia.
  - Z.div_mod_to_equations; lia.
  - rewrite size_utf16le. lia.
  - lia.
Qed.

(** The text [a], U+1F60A: what comes back is [a], U+FFFD, U+FFFD. *)
Lemma readStringWithPrependedLength_replaces_a_last_pair_witness :
  value (readStringWithPrependedLength
           ([] ++ little_endian_bytes uint16_t
                    (size (flat_map utf16_encode ([0x61] ++ [0x1F60A])))
               ++ utf16le (flat_map utf16_encode ([0x61] ++ [0x1F60A])) ++ [])
           (size (@nil byte)))
  = Returned (flat_map utf8_encode [0x61] ++ utf8_encode 0xFFFD ++ utf8_encode 0xFFFD,
              size (@nil byte) + 2
              + 2 * size (flat_map utf16_encode ([0x61] ++ [0x1F60A]))).
Proof.
  apply (readStringWithPrependedLength_replaces_a_last_pair [0x61] 0x1F60A [] []).
  - repeat constructor; unfold is_scalar_value; lia.
  - lia.
  - vm_compute. reflexivity.
Defined.

(** ** [readFixedLengthString] *)

(** X11.  A text of Unicode scalar values stored as UTF-16, low byte first,
    two bytes after the offset given, and read for a length of as many bytes
    as the code units take, is returned by [readFixedLengthString] as the
    UTF-8 encoding of the same code points.  The two bytes at the offset
    itself are skipped, whatever they are; here the last code point may be
    above U+FFFF. *)
Theorem readFixedLengthString_round_trip (codepoints : list Z)
    (pre skipped post : list byte) :
  Forall is_scalar_value codepoints ->
  size skipped = 2 ->
  value (readFixedLengthString
           (pre ++ skipped ++ utf16le (flat_map utf16_encode codepoints) ++ post)
           (size pre) (2 * size (flat_map utf16_encode codepoints)))
  = Returned (flat_map utf8_encode codepoints).
Proof.
  intros Hscalar Hskipped.
  pose proof (size_nonneg (flat_map utf16_encode codepoints)) as Hunits.
  unfold readFixedLengthString. rewrite app_assoc.
  rewrite (readFixedLengthString_while_encoded codepoints (pre ++ skipped) post
             (size pre) _ _ 0 []).
  - reflexivity.
  - exact Hscalar.
  - rewrite size_app. lia.
  - rewrite size_utf16le. lia.
  - lia.
Qed.

(** The text [a], U+1F60A after the skipped bytes 00 2E. *)
Lemma readFixedLengthString_round_trip_witness :
  value (readFixedLengthString
           ([x41] ++ [x00; x2e] ++ utf16le (flat_map utf16_encode [0x61; 0x1F60A]) ++ [])
           (size [x41]) (2 * size (flat_map utf16_encode [0x61; 0x1F60A])))
  = Returned (flat_map utf8_encode [0x61; 0x1F60A]).
Proof.
  apply (readFixedLengthString_round_trip [0x61; 0x1F60A] [x41] [x00; x2e] []).
  - repeat constructor; unfold is_scalar_value; lia.
  - reflexivity.
Defined.

Lemma readFixedLengthString_while_reads_last (bytes : list byte) (offset length : Z)
    (fuel : nat) (i : Z) (result text : std_string) :
  value (readFixedLengthString_while bytes offset length fuel i result)
  = Returned text ->
  i < length -> 0 <= i + offset + 2 /\ offset + 2 + length <= size bytes.
Proof.
  revert i result. induction fuel as [| fuel IH]; intros i result H Hi.
  - cbn [readFixedLengthString_while] in H.
    destruct (Z.ltb_spec i length); [discriminate | lia].
  - cbn [readFixedLengthString_while] in H.
    destruct (Z.ltb_spec i length); [| lia].
    apply bind_Returned in H. destruct H as [[codepoint bytesRead] [Hread H]].
    apply readUtf16Codepoint_Returned in Hread.
    destruct (Z.ltb_spec (i + bytesRead) length) as [Hmore | Hlast].
    + destruct (IH (i + bytesRead) (result ++ codepoint) H Hmore). lia.
    + destruct Hread as [Hlow [Hin [-> | [-> [_ Hin4]]]]]; lia.
Qed.

(** X12.  When [readFixedLengthString] returns for a length above zero, the
    bytes it was asked for, from two bytes after the offset on, all lie inside
    the buffer. *)
Theorem readFixedLengthString_stays_inside (bytes : list byte) (offset length : Z)
    (text : std_string) :
  0 < length ->
  value (readFixedLengthString bytes offset length) = Returned text ->
  0 <= offset + 2 /\ offset + 2 + length <= size bytes.
Proof.
  intros Hlength H. unfold readFixedLengthString in H.
  destruct (readFixedLengthString_while_reads_last _ _ _ _ _ _ _ H Hlength).
  lia.
Qed.

(** Four bytes read two bytes after offset 1 of a buffer of seven bytes. *)
Lemma readFixedLengthString_stays_inside_witness :
  0 <= 1 + 2 /\ 1 + 2 + 4 <= size [x00; x00; x00; x41; x00; x42; x00].
Proof.
  apply (readFixedLengthString_stays_inside
           [x00; x00; x00; x41; x00; x42; x00] 1 4 [x41; x42]).
  - lia.
  - reflexivity.
Defined.

(** ** The header checks of [refresh] *)

(** One statement of [refresh], as [ensures_step], where an integer read
    also leaves the fact that it lay inside the buffer. *)
Ltac ensures_step_in_range :=
  lazymatch goal with
  | |- ensures (mbind _ _) _ _ => apply ensures_bind
  | |- ensures (read (readInteger _ _ _)) _ _ =>
      let v := fresh "v" in let Hv := fresh "Hv" in
      apply ensures_read; intros v Hv;
      apply readInteger_Returned in Hv; destruct Hv as (? & ? & ->)
  | |- ensures (read _) _ _ =>
      let v := fresh "v" in let Hv := fresh "Hread" in
      apply ensures_read; intros v Hv
  | |- ensures (assign _) _ _ => apply ensures_assign
  | |- ensures (mret _) _ _ => apply ensures_mret
  | |- ensures (mthrow _) _ _ => apply ensures_mthrow
  | |- ensures get_this _ _ => apply ensures_get_this
  | |- ensures (if ?c then _ else _) _ _ =>
      let E := fresh "E" in destruct c eqn:E
  end; fields.

(** X13.  When [refresh] returns, the buffer starts with the byte 0x4C, its
    structure-size byte is 0x1C or 0x24, it holds the 78 bytes of the header,
    and it holds the LinkInfo structure up to the twentieth byte after its
    start. *)
Theorem refresh_returns_on_valid_headers_only (bytes : list byte)
    (this : LnkFileInfo) :
  result_of (refresh (Some bytes) this) = Returned tt ->
  byte_at bytes 0 = 0x4C
  /\ (structureSize bytes = 0x1C \/ structureSize bytes = 0x24)
  /\ 78 <= size bytes
  /\ linkInfoStart bytes + 20 <= size bytes.
Proof.
  intros Hreturned.
  cut (ensures (refresh (Some bytes)) this
         (fun _ _ => byte_at bytes 0 = 0x4C
                     /\ (structureSize bytes = 0x1C \/ structureSize bytes = 0x24)
                     /\ 78 <= size bytes
                     /\ linkInfoStart bytes + 20 <= size bytes));
    [intros H; exact (H tt Hreturned) |].
  unfold structureSize, linkInfoStart, refresh.
  repeat ensures_step_in_range;
    cbn [sizeof little_endian] in *;
    (split; [apply negb_false_iff in E; apply Z.eqb_eq in E; exact E |]);
    (split;
     [ lazymatch goal with
       | H : (_ =? 36) = true |- _ => right; apply Z.eqb_eq in H; exact H
       | H : negb (?x =? 28) && _ = false |- _ =>
           left; destruct (Z.eqb_spec x 28) as [H28 | H28];
           [exact H28 | discriminate H]
       end |]);
    lia.
Qed.

(** [plain_link] decodes. *)
Lemma refresh_returns_on_valid_headers_only_witness :
  byte_at plain_link 0 = 0x4C
  /\ (structureSize plain_link = 0x1C \/ structureSize plain_link = 0x24)
  /\ 78 <= size plain_link
  /\ linkInfoStart plain_link + 20 <= size plain_link.
Proof.
  apply (refresh_returns_on_valid_headers_only plain_link decoded_with_icon).
  vm_compute. reflexivity.
Defined.

(** X14.  A buffer that starts with the byte 0x4C and holds its structure-size
    byte, when that byte is neither 0x1C nor 0x24, makes [refresh] throw
    [InvalidLnkFile] with the text [Invalid fileinfo header]; no member of the
    object has been written. *)
Theorem refresh_rejects_unknown_structure_size (bytes : list byte)
    (this : LnkFileInfo) :
  byte_at bytes 0 = 0x4C ->
  78 <= size bytes ->
  linkInfoStart bytes + 5 <= size bytes ->
  structureSize bytes <> 0x1C ->
  structureSize bytes <> 0x24 ->
  result_of (refresh (Some bytes) this)
  = Thrown (InvalidLnkFile "Invalid fileinfo header")
  /\ object_after (refresh (Some bytes) this) = this.
Proof.
  intros Hmagic Hheader Hstart Hnot1c Hnot24.
  unfold structureSize, linkInfoStart in *. unfold refresh.
  pose proof (cast_range uint16_t (78 + little_endian uint16_t bytes 76)) as Hrange.
  rewrite result_mbind, object_mbind.
  cbn [mret result_of object_after value ret snd fst].
  rewrite result_mbind, object_mbind, result_read, object_read.
  rewrite value_readInteger by lia. cbn [sizeof].
  destruct (Z.gtb_spec (0 + 1) (size bytes)); [lia |].
  rewrite result_mbind, object_mbind.
  cbn [little_endian]. rewrite Hmagic.
  cbn [Z.eqb Pos.eqb negb mret result_of object_after value ret snd fst].
  rewrite result_mbind, object_mbind, result_read, object_read.
  rewrite value_readInteger by lia. cbn [sizeof].
  destruct (Z.gtb_spec (76 + 2) (size bytes)); [lia |].
  rewrite result_mbind, object_mbind, result_read, object_read.
  rewrite value_readInteger by lia. cbn [sizeof].
  destruct (Z.gtb_spec (cast uint16_t (78 + little_endian uint16_t bytes 76) + 4 + 1)
              (size bytes)); [lia |].
  rewrite result_mbind, object_mbind.
  destruct (Z.eqb_spec (little_endian uint8_t bytes
                          (cast uint16_t (78 + little_endian uint16_t bytes 76) + 4))
              0x1C) as [H1c | _]; [contradiction |].
  destruct (Z.eqb_spec (little_endian uint8_t bytes
                          (cast uint16_t (78 + little_endian uint16_t bytes 76) + 4))
              0x24) as [H24 | _]; [contradiction |].
  split; reflexivity.
Qed.

(** [plain_link] with the structure-size byte 0x1D. *)
Lemma refresh_rejects_unknown_structure_size_witness :
  result_of (refresh (Some (place [x1d] 82 plain_link)) decoded_with_icon)
  = Thrown (InvalidLnkFile "Invalid fileinfo header")
  /\ object_after (refresh (Some (place [x1d] 82 plain_link)) decoded_with_icon)
     = decoded_with_icon.
Proof.
  apply (refresh_rejects_unknown_structure_size (place [x1d] 82 plain_link)
           decoded_with_icon);
    vm_compute; congruence.
Defined.

(** X15.  A buffer of fewer than 78 bytes, the empty buffer included, makes
    [refresh] throw [InvalidLnkFile]; no member of the object has been
    written. *)
Theorem refresh_rejects_short_buffer (bytes : list byte) (this : LnkFileInfo) :
  size bytes < 78 ->
  (exists what,
      result_of (refresh (Some bytes) this) = Thrown (InvalidLnkFile what))
  /\ object_after (refresh (Some bytes) this) = this.
Proof.
  intros Hshort. unfold refresh.
  rewrite result_mbind, object_mbind.
  cbn [mret result_of object_after value ret snd fst].
  rewrite result_mbind, object_mbind, result_read, object_read.
  rewrite value_readInteger by lia. cbn [sizeof].
  destruct (0 + 1 >? size bytes); [split; [eexists |]; reflexivity |].
  rewrite result_mbind, object_mbind.
  destruct (negb (little_endian uint8_t bytes 0 =? 0x4C));
    [split; [eexists |]; reflexivity |].
  cbn [mret result_of object_after value ret snd fst].
  rewrite result_mbind, object_mbind, result_read, object_read.
  rewrite value_readInteger by lia. cbn [sizeof].
  destruct (Z.gtb_spec (76 + 2) (size bytes)); [| lia].
  split; [eexists |]; reflexivity.
Qed.

(** The first 77 bytes of [plain_link]. *)
Lemma refresh_rejects_short_buffer_witness :
  (exists what,
      result_of (refresh (Some (firstn 77 plain_link)) decoded_with_icon)
      = Thrown (InvalidLnkFile what))
  /\ object_after (refresh (Some (firstn 77 plain_link)) decoded_with_icon)
     = decoded_with_icon.
Proof.
  apply (refresh_rejects_short_buffer (firstn 77 plain_link) decoded_with_icon).
  vm_compute. reflexivity.
Defined.

(** ** The fields of the header *)

Lemma land_pow2 (a k : Z) :
  0 <= k -> Z.land a (2 ^ k) = if Z.testbit a k then 2 ^ k else 0.
Proof.
  intros Hk. apply Z.bits_inj'. intros n Hn.
  rewrite Z.land_spec, Z.pow2_bits_eqb by exact Hk.
  destruct (Z.eqb_spec k n) as [<- | Hne].
  - destruct (Z.testbit a k).
    + rewrite Z.pow2_bits_true by exact Hk. reflexivity.
    + rewrite Z.bits_0. reflexivity.
  - rewrite andb_false_r. destruct (Z.testbit a k).
    + rewrite Z.pow2_bits_false by auto. reflexivity.
    + rewrite Z.bits_0. reflexivity.
Qed.

Lemma attribute_test (a k : Z) :
  0 <= k -> negb (Z.land a (2 ^ k) =? 0) = Z.testbit a k.
Proof.
  intros Hk. rewrite land_pow2 by exact Hk.
  destruct (Z.testbit a k); [| reflexivity].
  assert (Hpos : 0 < 2 ^ k) by (apply Z.pow_pos_nonneg; lia).
  destruct (Z.eqb_spec (2 ^ k) 0); [lia | reflexivity].
Qed.

(** X16.  When [refresh] returns, [targetSize] is the 32-bit value at offset
    52, [targetIsOnNetwork] is bit 1 of the byte eight bytes after the start
    of the LinkInfo structure, and [targetHasAttribute] for the attribute
    whose value is the [k]-th power of two is bit [k] of the 16-bit value at
    offset 24. *)
Theorem refresh_target_info (bytes : list byte) (this : LnkFileInfo) :
  result_of (refresh (Some bytes) this) = Returned tt ->
  targetSize (object_after (refresh (Some bytes) this))
  = little_endian uint32_t bytes 52
  /\ targetIsOnNetwork (object_after (refresh (Some bytes) this))
     = networkFlag bytes
  /\ forall k, 0 <= k < 16 ->
       targetHasAttribute (object_after (refresh (Some bytes) this)) (2 ^ k)
       = Z.testbit (little_endian uint16_t bytes 24) k.
Proof.
  intros Hreturned.
  unfold targetSize, targetIsOnNetwork, targetHasAttribute, networkFlag, linkInfoStart.
  by_ensures Hreturned.
  unfold refresh.
  repeat ensures_step;
    (split; [reflexivity |]); (split; [reflexivity |]);
    intros k Hk; apply attribute_test; lia.
Qed.

(** [plain_link]: a target of 12 bytes with the attribute [Archive]. *)
Lemma refresh_target_info_witness :
  targetSize (object_after (refresh (Some plain_link) decoded_with_icon)) = 12
  /\ targetHasAttribute (object_after (refresh (Some plain_link) decoded_with_icon))
       Archive = true
  /\ targetHasAttribute (object_after (refresh (Some plain_link) decoded_with_icon))
       Hidden = false.
Proof.
  destruct (refresh_target_info plain_link decoded_with_icon) as [Hsize [_ Hbits]].
  - vm_compute. reflexivity.
  - split; [exact Hsize |].
    split; [apply (Hbits 5) | apply (Hbits 1)]; lia.
Defined.

(** ** The local branch *)

Lemma low_byte_of_little_endian (bytes : list byte) (i : Z) :
  cast uint8_t (little_endian uint32_t bytes i) = byte_at bytes i.
Proof.
  unfold cast. cbn [sizeof little_endian]. change (2 ^ (8 * 1)) with 256.
  pose proof (byte_at_range bytes i).
  change (2 ^ 8) with 256. change (2 ^ 16) with 65536. change (2 ^ 24) with 16777216.
  Z.div_mod_to_equations; lia.
Qed.

(** X17.  When [refresh] returns on a buffer whose network bit is clear, the
    volume type is the byte four bytes after the start of the volume table (of
    the 32-bit field read there, only the low byte counts), the volume serial
    is the 32-bit value eight bytes after it, converted to [int], and the
    volume name is the null-terminated string sixteen bytes after it; when the
    structure-size byte is 0x1C, the target path is the null-terminated string
    at the local path offset. *)
Theorem refresh_local_target (bytes : list byte) (this : LnkFileInfo) :
  result_of (refresh (Some bytes) this) = Returned tt ->
  networkFlag bytes = false ->
  targetVolumeType (object_after (refresh (Some bytes) this))
  = byte_at bytes (cast uint32_t (localVolumeOffset bytes + 4))
  /\ targetVolumeSerial (object_after (refresh (Some bytes) this))
     = to_int (little_endian uint32_t bytes (cast uint32_t (localVolumeOffset bytes + 8)))
  /\ value (readNullTerminatedString bytes (cast uint32_t (localVolumeOffset bytes + 16)))
     = Returned (targetVolumeName (object_after (refresh (Some bytes) this)))
  /\ (structureSize bytes = 0x1C ->
      value (readNullTerminatedString bytes (localPathOffset bytes))
      = Returned (absoluteTargetPath (object_after (refresh (Some bytes) this)))).
Proof.
  intros Hreturned Hnetwork.
  unfold networkFlag, structureSize, localVolumeOffset, localPathOffset, linkInfoStart,
    targetVolumeType, targetVolumeSerial, targetVolumeName, absoluteTargetPath in *.
  revert Hnetwork.
  by_ensures Hreturned.
  unfold refresh.
  repeat ensures_step;
    intros Hnetwork; try congruence;
    (split; [apply low_byte_of_little_endian |]); (split; [reflexivity |]);
    (split; [assumption |]);
    intros Hsize; try (rewrite Hsize in *; discriminate); assumption.
Qed.

(** [plain_link]: a hard drive with the serial 1852534627 and the name [W]. *)
Lemma refresh_local_target_witness :
  targetVolumeType (object_after (refresh (Some plain_link) decoded_with_icon))
  = HardDrive
  /\ targetVolumeSerial (object_after (refresh (Some plain_link) decoded_with_icon))
     = 1852534627
  /\ value (readNullTerminatedString plain_link 122)
     = Returned (targetVolumeName
                   (object_after (refresh (Some plain_link) decoded_with_icon)))
  /\ value (readNullTerminatedString plain_link 124)
     = Returned (absoluteTargetPath
                   (object_after (refresh (Some plain_link) decoded_with_icon))).
Proof.
  destruct (refresh_local_target plain_link decoded_with_icon)
    as [Htype [Hserial [Hname Hpath]]].
  - vm_compute. reflexivity.
  - vm_compute. reflexivity.
  - split; [exact Htype |]. split; [exact Hserial |].
    split; [exact Hname | apply Hpath; vm_compute; reflexivity].
Defined.

(** ** The string section *)

(** One statement of [refresh], as [ensures_step], where a length-prefixed
    string that was read leaves the offset it returned in closed form. *)
Ltac string_section_step :=
  lazymatch goal with
  | |- ensures (mbind _ _) _ _ => apply ensures_bind
  | |- ensures (read (readInteger _ _ _)) _ _ =>
      let v := fresh "v" in let Hv := fresh "Hv" in
      apply ensures_read; intros v Hv;
      apply readInteger_Returned in Hv; destruct Hv as (_ & _ & ->)
  | |- ensures (read (readStringWithPrependedLength _ _)) _ _ =>
      let text := fresh "text" in let next := fresh "next" in
      let Hv := fresh "Hstring" in let Hnext := fresh "Hnext" in
      apply ensures_read; intros [text next] Hv;
      pose proof (readStringWithPrependedLength_Returned _ _ _ Hv) as [_ Hnext];
      cbn [fst snd] in *; subst next
  | |- ensures (read _) _ _ =>
      let v := fresh "v" in let Hv := fresh "Hread" in
      apply ensures_read; intros v Hv
  | |- ensures (assign _) _ _ => apply ensures_assign
  | |- ensures (mret _) _ _ => apply ensures_mret
  | |- ensures (mthrow _) _ _ => apply ensures_mthrow
  | |- ensures get_this _ _ => apply ensures_get_this
  | |- ensures (if ?c then _ else _) _ _ =>
      let E := fresh "E" in destruct c eqn:E
  end; fields.

(** X18.  When [refresh] returns, each of the five strings whose flag is set
    is what [readStringWithPrependedLength] reads at its offset: the
    description where the LinkInfo structure ends, and every later string
    where the last string present before it ended, in the order description,
    relative path, working directory, command line arguments, icon path.  With
    the custom-icon flag set, the icon index is the 32-bit value at offset 56,
    converted to [int]. *)
Theorem refresh_string_section (bytes : list byte) (this : LnkFileInfo) :
  result_of (refresh (Some bytes) this) = Returned tt ->
  (hasFlag bytes HasDescription = true ->
   value (readStringWithPrependedLength bytes (descriptionOffset bytes))
   = Returned (description (object_after (refresh (Some bytes) this)),
               relativePathOffset bytes))
  /\ (hasFlag bytes HasRelativePath = true ->
      value (readStringWithPrependedLength bytes (relativePathOffset bytes))
      = Returned (relativeTargetPath (object_after (refresh (Some bytes) this)),
                  workingDirectoryOffset bytes))
  /\ (hasFlag bytes HasWorkingDirectory = true ->
      value (readStringWithPrependedLength bytes (workingDirectoryOffset bytes))
      = Returned (workingDirectory (object_after (refresh (Some bytes) this)),
                  commandLineArgsOffset bytes))
  /\ (hasFlag bytes HasCommandLineArgs = true ->
      value (readStringWithPrependedLength bytes (commandLineArgsOffset bytes))
      = Returned (commandLineArgs (object_after (refresh (Some bytes) this)),
                  iconPathOffset bytes))
  /\ (hasFlag bytes HasCustomIcon = true ->
      value (readStringWithPrependedLength bytes (iconPathOffset bytes))
      = Returned (iconPath (object_after (refresh (Some bytes) this)),
                  afterString bytes (iconPathOffset bytes))
      /\ iconIndex (object_after (refresh (Some bytes) this))
         = to_int (little_endian uint32_t bytes 56)).
Proof.
  intros Hreturned.
  unfold iconPathOffset, commandLineArgsOffset, workingDirectoryOffset,
    relativePathOffset, descriptionOffset, afterString, hasFlag, flagByte,
    linkInfoStart, description, relativeTargetPath, workingDirectory,
    commandLineArgs, iconPath, iconIndex.
  by_ensures Hreturned.
  unfold refresh.
  repeat string_section_step;
    repeat (split; [intros Hflag; try discriminate Hflag; assumption |]);
    intros Hflag; try discriminate Hflag;
    (split; [assumption | reflexivity]).
Qed.

(** [link_with_strings]: the description [hi] at 129, no relative path and
    no working directory, the arguments [-v] at 135, the icon path [i.dll]
    at 141 and the icon index 8. *)
Lemma refresh_string_section_witness :
  value (readStringWithPrependedLength link_with_strings 129)
  = Returned (description
                (object_after (refresh (Some link_with_strings) decoded_with_icon)),
              135)
  /\ value (readStringWithPrependedLength link_with_strings 135)
     = Returned (commandLineArgs
                   (object_after (refresh (Some link_with_strings) decoded_with_icon)),
                 141)
  /\ value (readStringWithPrependedLength link_with_strings 141)
     = Returned (iconPath
                   (object_after (refresh (Some link_with_strings) decoded_with_icon)),
                 153)
  /\ iconIndex (object_after (refresh (Some link_with_strings) decoded_with_icon)) = 8.
Proof.
  destruct (refresh_string_section link_with_strings decoded_with_icon)
    as [Hdescription [_ [_ [Hargs Hicon]]]].
  - vm_compute. reflexivity.
  - destruct (Hicon eq_refl) as [Hpath Hindex].
    split; [exact (Hdescription eq_refl) |].
    split; [exact (Hargs eq_refl) |].
    split; [exact Hpath | exact Hindex].
Defined.

(** ** Strings that the file does not have *)

Lemma refresh_leaves_absent_strings (bytes : list byte) (this : LnkFileInfo) :
  result_of (refresh (Some bytes) this) = Returned tt ->
  (hasFlag bytes HasDescription = false ->
   _description (object_after (refresh (Some bytes) this)) = _description this)
  /\ (hasFlag bytes HasRelativePath = false ->
      _relativeTargetPath (object_after (refresh (Some bytes) this))
      = _relativeTargetPath this)
  /\ (hasFlag bytes HasWorkingDirectory = false ->
      _workingDirectory (object_after (refresh (Some bytes) this))
      = _workingDirectory this)
  /\ (hasFlag bytes HasCommandLineArgs = false ->
      _commandLineArgs (object_after (refresh (Some bytes) this))
      = _commandLineArgs this)
  /\ (hasFlag bytes HasCustomIcon = false ->
      _iconPath (object_after (refresh (Some bytes) this)) = _iconPath this).
Proof.
  intros Hreturned. unfold hasFlag, flagByte.
  by_ensures Hreturned.
  unfold refresh.
  repeat ensures_step;
    repeat (split; [intros Hflag; try discriminate Hflag; reflexivity |]);
    intros Hflag; try discriminate Hflag; reflexivity.
Qed.

(** X19.  In an object that the constructor returns, each of the five strings
    whose flag is not set in the file is empty, and without the custom-icon
    flag [hasCustomIcon] is false. *)
Theorem constructed_object_has_empty_absent_strings (storage : LnkFileInfo)
    (filePath : std_string) (bytes : list byte) (absolute : option std_string)
    (this : LnkFileInfo) :
  LnkFileInfo_ctor storage filePath (Some bytes) absolute = Returned this ->
  (hasFlag bytes HasDescription = false -> description this = [])
  /\ (hasFlag bytes HasRelativePath = false -> relativeTargetPath this = [])
  /\ (hasFlag bytes HasWorkingDirectory = false -> workingDirectory this = [])
  /\ (hasFlag bytes HasCommandLineArgs = false -> commandLineArgs this = [])
  /\ (hasFlag bytes HasCustomIcon = false ->
      iconPath this = [] /\ hasCustomIcon this = false).
Proof.
  unfold LnkFileInfo_ctor. intros H.
  destruct (result_of (refresh (Some bytes) (uninitialised storage filePath)))
    as [[] | e |] eqn:Hreturned; try discriminate.
  destruct (refresh_leaves_absent_strings _ _ Hreturned)
    as (Hd & Hr & Hw & Hc & Hi).
  remember (object_after (refresh (Some bytes) (uninitialised storage filePath)))
    as o eqn:Ho.
  clear Ho Hreturned.
  destruct absolute as [path |]; [| discriminate]. injection H as <-.
  unfold description, relativeTargetPath, workingDirectory, commandLineArgs,
    iconPath, hasCustomIcon.
  fields.
  split; [intros Hflag; rewrite (Hd Hflag); reflexivity |].
  split; [intros Hflag; rewrite (Hr Hflag); reflexivity |].
  split; [intros Hflag; rewrite (Hw Hflag); reflexivity |].
  split; [intros Hflag; rewrite (Hc Hflag); reflexivity |].
  intros Hflag. rewrite (Hi Hflag). split; reflexivity.
Qed.

(** [plain_link], whose flag byte is 0, constructed in storage that held an
    earlier object. *)
Lemma constructed_object_has_empty_absent_strings_witness :
  description
    (set_absoluteFilePath (text "C:\s.lnk")
       (object_after (refresh (Some plain_link)
                        (uninitialised decoded_with_icon (text "s.lnk"))))) = []
  /\ hasCustomIcon
       (set_absoluteFilePath (text "C:\s.lnk")
          (object_after (refresh (Some plain_link)
                           (uninitialised decoded_with_icon (text "s.lnk"))))) = false.
Proof.
  destruct (constructed_object_has_empty_absent_strings decoded_with_icon
              (text "s.lnk") plain_link (Some (text "C:\s.lnk"))
              (set_absoluteFilePath (text "C:\s.lnk")
                 (object_after (refresh (Some plain_link)
                                  (uninitialised decoded_with_icon (text "s.lnk"))))))
    as (Hd & _ & _ & _ & Hi).
  - vm_compute. reflexivity.
  - split; [apply Hd; reflexivity | apply Hi; reflexivity].
Defined.

(** ** The extended format, for any Latin-1 path *)

Lemma readNullTerminatedString_slice (bytes latin : list byte) (offset : Z) :
  0 <= offset ->
  slice bytes offset (size latin + 1) = latin ++ [x00] ->
  Forall (fun b => b <> x00) latin ->
  value (readNullTerminatedString bytes offset) = Returned (latin1_to_utf8 latin).
Proof.
  intros Hoffset Hslice Hnonzero.
  pose proof (size_nonneg latin) as Hlatin.
  destruct (slice_split bytes offset (size latin + 1)) as [pre [post [Hbytes Hpre]]];
    [exact Hoffset | lia | rewrite Hslice, size_app; reflexivity |].
  rewrite Hslice in Hbytes. unfold readNullTerminatedString.
  rewrite Hbytes at 1 2. rewrite <- Hpre, <- app_assoc. cbn [app].
  apply (readNullTerminatedString_while_latin1 latin pre post _ []); [exact Hnonzero |].
  rewrite !length_app. cbn [List.length]. lia.
Qed.

Lemma size_latin1_to_utf8 (latin : list byte) :
  size (latin1_to_utf8 latin)
  = size latin + size (filter (fun b => 0x80 <=? byte_value b) latin).
Proof.
  induction latin as [| b latin IH]; [reflexivity |].
  unfold latin1_to_utf8 in *. cbn [flat_map filter].
  rewrite size_app, IH, size_cons.
  pose proof (byte_value_range b) as Hb. unfold utf8_encode.
  destruct (Z.leb_spec 0x80 (byte_value b)), (Z.ltb_spec (byte_value b) 0x80);
    try lia.
  - destruct (Z.ltb_spec (byte_value b) 0x800); [| lia].
    rewrite !size_cons. change (size []) with 0. lia.
  - rewrite !size_cons. change (size []) with 0. lia.
Qed.

(** X20.  On a buffer whose structure-size byte is 0x24 and whose network bit
    is clear, when [refresh] returns and the Latin-1 path at the path offset
    is [latin], the target path is what [readFixedLengthString] reads at the
    path offset plus the size of the UTF-8 conversion of [latin], for twice
    that size: the code measures the path after its conversion, which has one
    byte more than [latin] for every character of [latin] from 0x80 on. *)
Theorem refresh_extended_target_path_latin1 (bytes : list byte)
    (this : LnkFileInfo) (latin : list byte) :
  result_of (refresh (Some bytes) this) = Returned tt ->
  structureSize bytes = 0x24 ->
  networkFlag bytes = false ->
  slice bytes (localPathOffset bytes) (size latin + 1) = latin ++ [x00] ->
  Forall (fun b => b <> x00) latin ->
  value (readFixedLengthString bytes
           (localPathOffset bytes + size (latin1_to_utf8 latin))
           (size (latin1_to_utf8 latin) * 2))
  = Returned (absoluteTargetPath (object_after (refresh (Some bytes) this)))
  /\ size (latin1_to_utf8 latin)
     = size latin + size (filter (fun b => 0x80 <=? byte_value b) latin).
Proof.
  intros Hreturned Hsize Hnetwork Hslice Hnonzero.
  split; [| apply size_latin1_to_utf8].
  pose proof (readNullTerminatedString_slice bytes latin (localPathOffset bytes)
                ltac:(apply cast_range) Hslice Hnonzero) as Hpath.
  clear Hslice Hnonzero.
  unfold networkFlag, structureSize, localPathOffset, linkInfoStart,
    absoluteTargetPath in *.
  revert Hsize Hnetwork Hpath.
  by_ensures Hreturned.
  unfold refresh.
  repeat ensures_step;
    intros Hsize Hnetwork Hpath; try congruence;
    try (rewrite Hsize in *; discriminate).
  all: match goal with
       | H : value (readNullTerminatedString _ _) = Returned ?v,
         H' : value (readNullTerminatedString _ _) = Returned (latin1_to_utf8 _) |- _ =>
           rewrite H in H'; injection H' as <-
       end; assumption.
Qed.

(** [extended_link_latin1]: the Latin-1 path is the one byte E4, whose
    UTF-8 conversion has two bytes; the UTF-16 text is read from 124 + 2 + 2
    on for four bytes, and is a with diaeresis followed by [b]. *)
Lemma refresh_extended_target_path_latin1_witness :
  value (readFixedLengthString extended_link_latin1 (124 + 2) (2 * 2))
  = Returned (absoluteTargetPath
                (object_after (refresh (Some extended_link_latin1) decoded_with_icon)))
  /\ absoluteTargetPath
       (object_after (refresh (Some extended_link_latin1) decoded_with_icon))
     = [xc3; xa4; x62].
Proof.
  destruct (refresh_extended_target_path_latin1 extended_link_latin1
              decoded_with_icon [xe4]) as [Hpath _].
  - vm_compute. reflexivity.
  - vm_compute. reflexivity.
  - vm_compute. reflexivity.
  - vm_compute. reflexivity.
  - repeat constructor; discriminate.
  - split; [exact Hpath | vm_compute; reflexivity].
Defined.

(** ** Texts stored in the buffer *)

Lemma before_zero_split (bytes : list byte) :
  exists tail,
    bytes = before_zero bytes ++ tail
    /\ Forall (fun b => b <> x00) (before_zero bytes)
    /\ (tail = [] \/ exists rest, tail = x00 :: rest).
Proof.
  induction bytes as [| b bytes [tail [Hsplit [Hnonzero Htail]]]].
  - exists []. split; [reflexivity |]. split; [constructor | left; reflexivity].
  - cbn [before_zero]. destruct (Z.eqb_spec (byte_value b) 0) as [Hzero | Hb].
    + exists (b :: bytes). split; [reflexivity |]. split; [constructor |].
      right. exists bytes. f_equal. apply byte_value_inj. exact Hzero.
    + exists tail. split; [cbn [app]; f_equal; exact Hsplit |].
      split; [| exact Htail].
      constructor; [intros ->; apply Hb; reflexivity | exact Hnonzero].
Qed.

Lemma byte_at_skipn (bytes : list byte) (offset k : Z) :
  0 <= offset -> 0 <= k ->
  byte_at (skipn (Z.to_nat offset) bytes) k = byte_at bytes (offset + k).
Proof.
  intros Hoffset Hk. unfold byte_at.
  rewrite nth_skipn. f_equal. f_equal. lia.
Qed.

Lemma size_skipn (bytes : list byte) (offset : Z) :
  0 <= offset <= size bytes ->
  size (skipn (Z.to_nat offset) bytes) = size bytes - offset.
Proof. intros H. unfold size in *. rewrite length_skipn. lia. Qed.

Lemma byte_at_nonzero (l : list byte) (k : Z) :
  Forall (fun b => b <> x00) l -> 0 <= k < size l -> byte_at l k <> 0.
Proof.
  intros Hnonzero Hk Hzero. unfold byte_at, size in *.
  rewrite Forall_forall in Hnonzero.
  apply (Hnonzero (nth (Z.to_nat k) l x00)); [apply nth_In; lia |].
  apply byte_value_inj. exact Hzero.
Qed.

(** The text stored at an offset ends inside the buffer exactly when a zero
    byte follows it. *)
Lemma stored_text_cases (bytes : list byte) (offset : Z) :
  0 <= offset ->
  (exists pre post,
      bytes = pre ++ stored_text bytes offset ++ x00 :: post
      /\ size pre = offset)
  \/ ((forall k, offset <= k < size bytes -> byte_at bytes k <> 0)
      /\ size bytes <= offset + size (stored_text bytes offset)).
Proof.
  intros Hoffset. unfold stored_text.
  destruct (before_zero_split (skipn (Z.to_nat offset) bytes))
    as [tail [Hsplit [Hnonzero [-> | [rest ->]]]]].
  - right. rewrite app_nil_r in Hsplit. rewrite <- Hsplit.
    destruct (Z.le_gt_cases offset (size bytes)) as [Hin | Hout].
    + rewrite size_skipn by lia. split; [| lia].
      intros k Hk. replace k with (offset + (k - offset)) by lia.
      rewrite <- byte_at_skipn by lia.
      apply byte_at_nonzero; [rewrite Hsplit; exact Hnonzero |].
      rewrite size_skipn by lia. lia.
    + pose proof (size_nonneg (skipn (Z.to_nat offset) bytes)).
      split; [intros k Hk; lia | lia].
  - left. exists (firstn (Z.to_nat offset) bytes), rest.
    rewrite <- Hsplit, firstn_skipn. split; [reflexivity |].
    assert (Hlen : (Z.to_nat offset <= List.length bytes)%nat).
    { destruct (Nat.le_gt_cases (Z.to_nat offset) (List.length bytes)) as [H | H];
        [exact H |].
      rewrite skipn_all2 in Hsplit by lia.
      destruct (before_zero []); discriminate Hsplit. }
    unfold size. rewrite length_firstn. lia.
Qed.

Lemma stored_text_nonzero (bytes : list byte) (offset : Z) :
  Forall (fun b => b <> x00) (stored_text bytes offset).
Proof.
  unfold stored_text.
  destruct (before_zero_split (skipn (Z.to_nat offset) bytes))
    as [tail [_ [Hnonzero _]]].
  exact Hnonzero.
Qed.

(** What [readNullTerminatedString] returns is the UTF-8 conversion of the
    text stored at its offset, which ends inside the buffer. *)
Lemma readNullTerminatedString_Returned (bytes : list byte) (offset : Z)
    (s : std_string) :
  value (readNullTerminatedString bytes offset) = Returned s ->
  0 <= offset
  /\ s = latin1_to_utf8 (stored_text bytes offset)
  /\ offset + size (stored_text bytes offset) + 1 <= size bytes.
Proof.
  intros H.
  assert (Hoffset : 0 <= offset).
  { destruct (Z.le_gt_cases 0 offset) as [Hle | Hneg]; [exact Hle |].
    unfold readNullTerminatedString in H.
    cbn [readNullTerminatedString_while] in H. rewrite value_bind in H.
    destruct (readInteger_cases uint8_t bytes offset) as [[_ E] | [[_ E] | [Hi _]]];
      [rewrite E in H; discriminate | rewrite E in H; discriminate | lia]. }
  split; [exact Hoffset |].
  destruct (stored_text_cases bytes offset Hoffset)
    as [[pre [post [Hbytes Hpre]]] | [Hnonzero _]].
  - pose proof (stored_text_nonzero bytes offset) as Hnonzero.
    set (latin := stored_text bytes offset) in *. clearbody latin.
    unfold readNullTerminatedString in H. subst bytes offset.
    rewrite readNullTerminatedString_while_latin1 in H;
      [| exact Hnonzero | rewrite !length_app; cbn [List.length]; lia].
    injection H as <-. split; [reflexivity |].
    rewrite !size_app, size_cons. pose proof (size_nonneg post). lia.
  - unfold readNullTerminatedString in H.
    rewrite readNullTerminatedString_while_unterminated in H;
      [discriminate | exact Hoffset | lia | unfold size; lia | exact Hnonzero].
Qed.

(** The converse: a terminated text is read. *)
Lemma readNullTerminatedString_stored (bytes : list byte) (offset : Z) :
  0 <= offset ->
  offset + size (stored_text bytes offset) + 1 <= size bytes ->
  value (readNullTerminatedString bytes offset)
  = Returned (latin1_to_utf8 (stored_text bytes offset)).
Proof.
  intros Hoffset Hend.
  destruct (stored_text_cases bytes offset Hoffset)
    as [[pre [post [Hbytes Hpre]]] | [_ Hout]]; [| lia].
  pose proof (stored_text_nonzero bytes offset) as Hnonzero.
  set (latin := stored_text bytes offset) in *. clearbody latin.
  unfold readNullTerminatedString. subst bytes offset.
  apply (readNullTerminatedString_while_latin1 latin pre post _ []);
    [exact Hnonzero | rewrite !length_app; cbn [List.length]; lia].
Qed.

(** The zero byte after the text stored at [offset']  also ends the text
    stored at any offset before [offset']. *)
Lemma stored_text_ends_before (bytes : list byte) (offset offset' : Z) :
  0 <= offset <= offset' ->
  offset' + size (stored_text bytes offset') + 1 <= size bytes ->
  offset + size (stored_text bytes offset)
  <= offset' + size (stored_text bytes offset').
Proof.
  intros Horder Hend.
  destruct (stored_text_cases bytes offset' ltac:(lia))
    as [[pre' [post' [Hbytes' Hpre']]] | [_ Hout]]; [| lia].
  destruct (stored_text_cases bytes offset ltac:(lia))
    as [[pre [post [Hbytes Hpre]]] | [Hnonzero Hout]].
  - destruct (Z.le_gt_cases (offset + size (stored_text bytes offset))
                (offset' + size (stored_text bytes offset'))) as [Hle | Hgt];
      [exact Hle | exfalso].
    pose proof (stored_text_nonzero bytes offset) as Hnonzero.
    pose proof (size_nonneg (stored_text bytes offset')) as Hsize'.
    set (latin := stored_text bytes offset) in *.
    set (latin' := stored_text bytes offset') in *.
    clearbody latin latin'.
    set (k := offset' + size latin' - offset).
    apply (byte_at_nonzero latin k Hnonzero); [unfold k; lia |].
    assert (Hat : byte_at bytes (offset + k) = byte_at latin k).
    { rewrite Hbytes at 1. rewrite <- Hpre. rewrite byte_at_app by (unfold k; lia).
      unfold byte_at. rewrite app_nth1 by (unfold k, size in *; lia). reflexivity. }
    rewrite <- Hat. unfold k.
    replace (offset + (offset' + size latin' - offset))
      with (size pre' + size latin') by lia.
    rewrite Hbytes' at 1. rewrite byte_at_app by lia.
    replace (size latin') with (size latin' + 0) by lia.
    rewrite byte_at_app by lia. reflexivity.
  - exfalso.
    pose proof (size_nonneg (stored_text bytes offset')) as Hsize'.
    apply (Hnonzero (offset' + size (stored_text bytes offset'))); [lia |].
    set (latin' := stored_text bytes offset') in *. clearbody latin'.
    rewrite <- Hpre'. rewrite Hbytes' at 1. rewrite byte_at_app by lia.
    replace (size latin') with (size latin' + 0) by lia.
    rewrite byte_at_app by lia. reflexivity.
Qed.

Lemma latin1_to_utf8_ascii (latin : list byte) :
  Forall is_ascii latin -> latin1_to_utf8 latin = latin.
Proof.
  induction 1 as [| b latin Hb _ IH]; [reflexivity |].
  unfold latin1_to_utf8 in *. cbn [flat_map]. rewrite IH.
  unfold is_ascii in Hb. unfold utf8_encode.
  destruct (Z.ltb_spec (byte_value b) 0x80); [| lia].
  rewrite to_char_byte_value. reflexivity.
Qed.

Lemma size_latin1_to_utf8_ge (latin : list byte) :
  size latin <= size (latin1_to_utf8 latin).
Proof.
  rewrite size_latin1_to_utf8.
  pose proof (size_nonneg (filter (fun b => 0x80 <=? byte_value b) latin)). lia.
Qed.

(** ** The texts of the network branch *)

Lemma cast_next (z : Z) :
  cast uint32_t (z + 20) + 1 < 2 ^ 32 ->
  cast uint32_t (z + 21) = cast uint32_t (z + 20) + 1.
Proof.
  unfold cast. cbn [sizeof]. change (2 ^ (8 * 4)) with (2 ^ 32). intros H.
  replace (z + 21) with (z + 20 + 1) by lia.
  rewrite <- Zplus_mod_idemp_l.
  pose proof (Z.mod_pos_bound (z + 20) (2 ^ 32) ltac:(lia)).
  apply Z.mod_small. lia.
Qed.

(** The three strings of the network branch, as [refresh] reads them: the
    share name, the drive where the converted share name would end, and the
    remainder where the converted drive would end. *)
Lemma network_strings_read (bytes : list byte) (nameOffset base : Z)
    (share drive remainder : std_string) :
  value (readNullTerminatedString bytes nameOffset) = Returned share ->
  value (readNullTerminatedString bytes (base + size share)) = Returned drive ->
  value (readNullTerminatedString bytes (base + size share + (size drive + 1)))
  = Returned remainder ->
  let driveOffset :=
    base + size (latin1_to_utf8 (stored_text bytes nameOffset)) in
  let remainderOffset :=
    driveOffset + (size (latin1_to_utf8 (stored_text bytes driveOffset)) + 1) in
  share = latin1_to_utf8 (stored_text bytes nameOffset)
  /\ drive = latin1_to_utf8 (stored_text bytes driveOffset)
  /\ remainder = latin1_to_utf8 (stored_text bytes remainderOffset).
Proof.
  intros Hshare Hdrive Hremainder.
  apply readNullTerminatedString_Returned in Hshare. destruct Hshare as (_ & -> & _).
  apply readNullTerminatedString_Returned in Hdrive. destruct Hdrive as (_ & -> & _).
  apply readNullTerminatedString_Returned in Hremainder.
  destruct Hremainder as (_ & -> & _).
  cbv zeta. auto.
Qed.

(** C9, for the share names and drives that the code measures rightly.
    When [refresh] returns on a buffer whose network bit is set, the volume
    type is [NetworkDrive] and the volume serial is 0.  When moreover the
    structure-size byte is 0x1C, and the share name stored twenty bytes into
    the share table and the drive stored after its terminator are plain
    ASCII, the target path is that drive, one backslash, and the UTF-8
    conversion of the Latin-1 remainder stored after the terminator of the
    drive. *)
Theorem refresh_network_target (bytes : list byte) (this : LnkFileInfo) :
  result_of (refresh (Some bytes) this) = Returned tt ->
  networkFlag bytes = true ->
  targetVolumeType (object_after (refresh (Some bytes) this)) = NetworkDrive
  /\ targetVolumeSerial (object_after (refresh (Some bytes) this)) = 0
  /\ (structureSize bytes = 0x1C ->
      shareNameOffset bytes + 1 < 2 ^ 32 ->
      let share := stored_text bytes (shareNameOffset bytes) in
      let driveOffset := shareNameOffset bytes + size share + 1 in
      let drive := stored_text bytes driveOffset in
      let remainder := stored_text bytes (driveOffset + size drive + 1) in
      Forall is_ascii share -> Forall is_ascii drive ->
      absoluteTargetPath (object_after (refresh (Some bytes) this))
      = drive ++ [x5c] ++ latin1_to_utf8 remainder).
Proof.
  intros Hreturned Hnetwork.
  unfold networkFlag, structureSize, shareNameOffset, networkVolumeOffset,
    linkInfoStart, absoluteTargetPath in *.
  revert Hnetwork.
  by_ensures Hreturned.
  unfold refresh.
  repeat ensures_step;
    intros Hnetwork; try congruence;
    (split; [reflexivity |]); (split; [reflexivity |]);
    intros Hsize; try (rewrite Hsize in *; discriminate);
    intros Hwrap; cbv zeta; intros Hshare Hdrive.
  all: rewrite (cast_next _ Hwrap) in *.
  all: match goal with
       | H : value (readNullTerminatedString _ ?o) = Returned ?s,
         H0 : value (readNullTerminatedString _ (?b + size ?s)) = Returned ?d,
         H1 : value (readNullTerminatedString _ (?b + size ?s + (size ?d + 1)))
              = Returned ?r |- _ =>
           destruct (network_strings_read _ _ _ _ _ _ H H0 H1) as (_ & -> & ->)
       end.
  all: rewrite (latin1_to_utf8_ascii _ Hshare).
  all: match goal with
       | |- context [stored_text _ (?a + 1 + ?n)] =>
           replace (a + 1 + n) with (a + n + 1) by lia
       end.
  all: rewrite (latin1_to_utf8_ascii _ Hdrive).
  all: match goal with
       | |- _ ++ _ ++ latin1_to_utf8 (stored_text _ ?x)
            = _ ++ _ ++ latin1_to_utf8 (stored_text _ ?y) =>
           replace x with y by lia
       end; reflexivity.
Qed.

(** The witness: [network_link], with the share name [SRV], the drive [D:]
    and a remainder whose second character is converted to two bytes. *)
Lemma refresh_network_target_witness :
  targetVolumeType
    (object_after (refresh (Some network_link) decoded_with_icon)) = NetworkDrive
  /\ targetVolumeSerial
       (object_after (refresh (Some network_link) decoded_with_icon)) = 0
  /\ absoluteTargetPath
       (object_after (refresh (Some network_link) decoded_with_icon))
     = text "D:\T" ++ [xc3; xa9].
Proof.
  destruct (refresh_network_target network_link decoded_with_icon)
    as [Htype [Hserial Hpath]].
  - vm_compute. reflexivity.
  - vm_compute. reflexivity.
  - split; [exact Htype |]. split; [exact Hserial |].
    rewrite Hpath.
    + vm_compute. reflexivity.
    + vm_compute. reflexivity.
    + vm_compute. reflexivity.
    + vm_compute. repeat constructor.
    + vm_compute. repeat constructor.
Defined.

(** X21.  When [refresh] returns on a buffer whose network bit is set, the
    volume name is the UTF-8 conversion of the Latin-1 share name stored
    twenty bytes into the share table.  The code takes the drive to start 21
    bytes into the share table plus the size of the converted share name,
    which is one byte more than the share name for each of its characters
    from 0x80 on, and the remainder to start after the size of the converted
    drive and one byte more.  With the structure-size byte 0x1C the target
    path is the conversion of the texts stored at these two offsets, joined
    by a backslash; with 0x24 it is what [readFixedLengthString] reads at the
    offset of the remainder plus the size of the joined path, for twice that
    size. *)
Theorem refresh_network_share_and_extended_path (bytes : list byte)
    (this : LnkFileInfo) :
  result_of (refresh (Some bytes) this) = Returned tt ->
  networkFlag bytes = true ->
  let share := stored_text bytes (shareNameOffset bytes) in
  let driveOffset :=
    cast uint32_t (networkVolumeOffset bytes + 21) + size (latin1_to_utf8 share) in
  let drive := stored_text bytes driveOffset in
  let remainderOffset := driveOffset + (size (latin1_to_utf8 drive) + 1) in
  let remainder := stored_text bytes remainderOffset in
  let joined := latin1_to_utf8 drive ++ [x5c] ++ latin1_to_utf8 remainder in
  targetVolumeName (object_after (refresh (Some bytes) this)) = latin1_to_utf8 share
  /\ size (latin1_to_utf8 share)
     = size share + size (filter (fun b => 0x80 <=? byte_value b) share)
  /\ (structureSize bytes = 0x1C ->
      absoluteTargetPath (object_after (refresh (Some bytes) this)) = joined)
  /\ (structureSize bytes = 0x24 ->
      value (readFixedLengthString bytes (remainderOffset + size joined)
               (size joined * 2))
      = Returned (absoluteTargetPath (object_after (refresh (Some bytes) this)))).
Proof.
  intros Hreturned Hnetwork. cbv zeta.
  unfold networkFlag, structureSize, shareNameOffset, networkVolumeOffset,
    linkInfoStart, targetVolumeName, absoluteTargetPath in *.
  revert Hnetwork.
  by_ensures Hreturned.
  unfold refresh.
  repeat ensures_step; intros Hnetwork; try congruence.
  all: match goal with
       | H : value (readNullTerminatedString _ ?o) = Returned ?s,
         H0 : value (readNullTerminatedString _ (?b + size ?s)) = Returned ?d,
         H1 : value (readNullTerminatedString _ (?b + size ?s + (size ?d + 1)))
              = Returned ?r |- _ =>
           destruct (network_strings_read _ _ _ _ _ _ H H0 H1) as (-> & -> & ->);
           clear H H0 H1
       end.
  all: (split; [reflexivity |]); (split; [apply size_latin1_to_utf8 |]);
    (split; intros Hsize; try (rewrite Hsize in *; discriminate));
    [reflexivity || assumption].
Qed.

(** [network_link_latin1_share]: the share name [E9] is converted to two
    bytes, so the drive is read from 125 on, one byte after where [D:]
    starts: the target path is [:\T]. *)
Lemma refresh_network_share_and_extended_path_witness :
  targetVolumeName
    (object_after (refresh (Some network_link_latin1_share) decoded_with_icon))
  = [xc3; xa9]
  /\ stored_text network_link_latin1_share 124 = text "D:"
  /\ absoluteTargetPath
       (object_after (refresh (Some network_link_latin1_share) decoded_with_icon))
     = text ":\T".
Proof.
  destruct (refresh_network_share_and_extended_path network_link_latin1_share
              decoded_with_icon) as (Hname & _ & Hpath & _).
  - vm_compute. reflexivity.
  - vm_compute. reflexivity.
  - split; [rewrite Hname; vm_compute; reflexivity |].
    split; [vm_compute; reflexivity |].
    rewrite Hpath; vm_compute; reflexivity.
Defined.

(** ** Truncated buffers, by the fields that the format requires *)

Lemma readStringWithPrependedLength_in_range (bytes : list byte) (i : Z)
    (data : std_string * Z) :
  value (readStringWithPrependedLength bytes i) = Returned data ->
  0 <= i /\ snd data = afterString bytes i /\ afterString bytes i <= size bytes.
Proof.
  intros H. pose proof (readStringWithPrependedLength_Returned _ _ _ H) as [Hi Hnext].
  unfold afterString. split; [exact Hi |]. split; [exact Hnext |].
  unfold readStringWithPrependedLength in H.
  apply bind_Returned in H. destruct H as [n [Hn H]].
  apply bind_Returned in H. destruct H as [result [Hloop _]].
  pose proof (readInteger_Returned_range _ _ _ _ Hn) as Hrange.
  apply readInteger_Returned in Hn. cbn [sizeof] in Hn, Hrange.
  destruct Hn as (_ & Hcount & <-).
  destruct (Z.eq_dec n 0) as [-> | Hpos]; [lia |].
  pose proof (readStringWithPrependedLength_while_reads_last _ _ _ _ _ _
                ltac:(replace (i + n * 2 - (i + 2)) with ((n - 1) * 2) by lia;
                      apply Z.mod_mul; lia) Hloop).
  lia.
Qed.

Lemma readFixedLengthString_in_range (bytes : list byte) (offset length : Z)
    (text : std_string) :
  value (readFixedLengthString bytes offset length) = Returned text ->
  0 < length -> offset + 2 + length <= size bytes.
Proof.
  intros H Hlength. unfold readFixedLengthString in H.
  destruct (readFixedLengthString_while_reads_last _ _ _ _ _ _ _ H Hlength).
  lia.
Qed.

Lemma afterString_eq (bytes : list byte) (location : Z) :
  afterString bytes location
  = location + 2 + 2 * little_endian uint16_t bytes location.
Proof. reflexivity. Qed.

(** A property that holds anyway is ensured. *)
Lemma ensures_anyway {A} (m : Method A) (this : LnkFileInfo) (P : Prop) :
  P -> ensures m this (fun _ _ => P).
Proof. intros H a _. exact H. Qed.

(** What the rest of a function ensures after any start is ensured. *)
Lemma ensures_after {A B} (m : Method A) (f : A -> Method B) (this : LnkFileInfo)
    (P : Prop) :
  (forall a this', ensures (f a) this' (fun _ _ => P)) ->
  ensures (mbind m f) this (fun _ _ => P).
Proof.
  intros H. apply ensures_bind. intros a _. apply H.
Qed.

(** One statement of [refresh]: a read that returned leaves what it returned
    in closed form, and the fact that what it read lies inside the buffer. *)
Ltac in_range_read :=
  lazymatch goal with
  | |- ensures (read (readInteger _ _ _)) _ _ =>
      let v := fresh "v" in let Hv := fresh "Hv" in
      apply ensures_read; intros v Hv;
      apply readInteger_Returned in Hv; destruct Hv as (? & ? & ->)
  | |- ensures (read (readNullTerminatedString ?bytes ?offset)) _ _ =>
      let v := fresh "v" in let Hv := fresh "Hv" in
      apply ensures_read; intros v Hv;
      apply readNullTerminatedString_Returned in Hv; destruct Hv as (? & -> & ?);
      pose proof (size_latin1_to_utf8_ge (stored_text bytes offset));
      pose proof (size_nonneg (stored_text bytes offset))
  | |- ensures (read (readStringWithPrependedLength _ _)) _ _ =>
      let text := fresh "text" in let next := fresh "next" in
      let Hv := fresh "Hv" in
      apply ensures_read; intros [text next] Hv;
      apply readStringWithPrependedLength_in_range in Hv;
      cbn [fst snd] in Hv; destruct Hv as (? & -> & ?)
  | |- ensures (read (readFixedLengthString _ _ _)) _ _ =>
      let v := fresh "v" in let Hv := fresh "Hv" in
      apply ensures_read; intros v Hv;
      pose proof (readFixedLengthString_in_range _ _ _ _ Hv); clear Hv
  end.

Ltac in_range_step :=
  lazymatch goal with
  | |- ensures (mbind _ _) _ _ => apply ensures_bind
  | |- ensures (read _) _ _ => in_range_read
  | |- ensures (assign _) _ _ => apply ensures_assign
  | |- ensures (mret _) _ _ => apply ensures_mret
  | |- ensures (mthrow _) _ _ => apply ensures_mthrow
  | |- ensures get_this _ _ => apply ensures_get_this
  | |- ensures (if ?c then _ else _) _ _ =>
      let E := fresh "E" in destruct c eqn:E
  end; fields.

(** The tests of a leaf of [refresh] decide the tests of the fields. *)
Ltac decide_tests :=
  repeat match goal with
    | H : ?c = true |- context [if ?c then _ else _] => rewrite H
    | H : ?c = false |- context [if ?c then _ else _] => rewrite H
    end.

Ltac each_field :=
  cbn [app]; unfold held;
  repeat (apply Forall_cons || apply Forall_nil); cbn [fst snd].

(** The drive and the remainder of a network link end where the code found
    the terminators of the texts that it read, or before. *)
Ltac network_texts :=
  match goal with
  | Hd : ?b + size (latin1_to_utf8 (stored_text ?bytes ?so))
         + size (stored_text ?bytes _) + 1 <= size ?bytes |- _ =>
      let sd := constr:(b + size (stored_text bytes so)) in
      let cd := constr:(b + size (latin1_to_utf8 (stored_text bytes so))) in
      assert (0 <= b) by apply cast_range;
      pose proof (stored_text_ends_before bytes sd cd ltac:(lia) Hd);
      pose proof (size_nonneg (stored_text bytes sd));
      let sr := constr:(sd + size (stored_text bytes sd) + 1) in
      let cr := constr:(cd + (size (latin1_to_utf8 (stored_text bytes cd)) + 1)) in
      match goal with
      | Hr : cr + size (stored_text bytes cr) + 1 <= size bytes |- _ =>
          pose proof (stored_text_ends_before bytes sr cr ltac:(lia) Hr)
      end
  end.

Lemma refresh_returned_holds_link_fields (bytes : list byte) (this : LnkFileInfo) :
  result_of (refresh (Some bytes) this) = Returned tt ->
  Forall (held bytes) (link_fields (cast uint16_t) (cast uint32_t) bytes).
Proof.
  intros Hreturned.
  cut (ensures (refresh (Some bytes)) this
         (fun _ _ => Forall (held bytes)
                       (link_fields (cast uint16_t) (cast uint32_t) bytes)));
    [intros H; exact (H tt Hreturned) |].
  unfold refresh, link_fields, text_field. cbv zeta.
  repeat lazymatch goal with
    | |- ensures (mbind (read (readInteger uint8_t _ 20)) _) _ _ =>
        apply ensures_anyway
    | |- _ => in_range_step
    end.
  all: cbn [sizeof] in *; decide_tests.
  all: try network_texts.
  all: each_field; lia.
Qed.

Lemma refresh_returned_holds_section_fields (bytes : list byte)
    (this : LnkFileInfo) :
  result_of (refresh (Some bytes) this) = Returned tt ->
  Forall (held bytes) (section_fields (cast uint16_t) (cast uint32_t) bytes).
Proof.
  intros Hreturned.
  cut (ensures (refresh (Some bytes)) this
         (fun _ _ => Forall (held bytes)
                       (section_fields (cast uint16_t) (cast uint32_t) bytes)));
    [intros H; exact (H tt Hreturned) |].
  unfold refresh, section_fields. cbv zeta.
  cbn [string_section_fields]. unfold hasFlag, flagByte, prefixed_string_fields.
  (* The target: nothing of it is needed. *)
  repeat lazymatch goal with
    | |- ensures (mbind (read (readInteger uint8_t _ 20)) _) _ _ => fail
    | |- ensures (mbind (if _ then _ else _) _) _ _ =>
        apply ensures_after; intros ? ?
    | |- _ => in_range_step
    end.
  (* The string section. *)
  repeat in_range_step.
  all: cbn [sizeof] in *; decide_tests.
  all: repeat match goal with
         | |- context [little_endian uint16_t ?b ?i] =>
             lazymatch goal with
             | _ : 0 <= little_endian uint16_t b i < _ |- _ => fail
             | _ => pose proof (little_endian_range uint16_t b i)
             end
         end.
  all: each_field; rewrite ?afterString_eq in *; lia.
Qed.

Lemma cast_small16 (z : Z) : 0 <= z < 2 ^ 16 -> cast uint16_t z = z.
Proof. intros H. apply Z.mod_small. exact H. Qed.

Lemma cast_small32 (z : Z) : 0 <= z < 2 ^ 32 -> cast uint32_t z = z.
Proof. intros H. apply Z.mod_small. exact H. Qed.

(** When no sum wraps around, the code computes the offsets that the format
    gives. *)
Lemma required_fields_located (bytes : list byte) :
  offsets_do_not_wrap bytes ->
  required_fields bytes = located_fields (cast uint16_t) (cast uint32_t) bytes.
Proof.
  unfold offsets_do_not_wrap, networkFlag, linkInfoStart. cbv zeta.
  pose proof (little_endian_range uint16_t bytes 76) as Hextra.
  cbn [sizeof] in Hextra. change (2 ^ (8 * 2)) with (2 ^ 16) in Hextra.
  intros (H16 & H32 & Hbranch).
  rewrite (cast_small16 (78 + little_endian uint16_t bytes 76)) in * by lia.
  unfold required_fields, located_fields, link_fields, section_fields. cbv zeta.
  rewrite (cast_small16 (78 + little_endian uint16_t bytes 76)) in * by lia.
  set (start := 78 + little_endian uint16_t bytes 76) in *.
  pose proof (little_endian_range uint32_t bytes start) as Hsize.
  pose proof (little_endian_range uint32_t bytes (start + 12)) as Hvolume.
  pose proof (little_endian_range uint32_t bytes (start + 16)) as Hpath.
  pose proof (little_endian_range uint32_t bytes (start + 20)) as Hshare.
  cbn [sizeof] in Hsize, Hvolume, Hpath, Hshare.
  rewrite (cast_small32 (start + little_endian uint32_t bytes start)) by lia.
  destruct (negb (Z.land (little_endian uint8_t bytes (start + 8)) 2 =? 0)).
  - rewrite (cast_small32 (start + little_endian uint32_t bytes (start + 20)))
      by lia.
    rewrite !cast_small32 by lia. reflexivity.
  - rewrite (cast_small32 (start + little_endian uint32_t bytes (start + 12)))
      by lia.
    rewrite (cast_small32 (start + little_endian uint32_t bytes (start + 16)))
      by lia.
    rewrite !cast_small32 by lia. reflexivity.
Qed.

(** C7, where no offset wraps around.  When none of the sums that locate a
    field wraps around and some field that the format requires passes the
    end of the buffer, [refresh] throws [InvalidLnkFile].  And whatever the
    buffer, [refresh] keeps to it: when any of the integers it asks for
    ([Request i w]) reaches past the end of the buffer, it throws
    [InvalidLnkFile]; every raw access [bytes.at(k)] it makes has [k] inside
    the buffer, and lies inside a request that passed the bounds check of
    [readInteger]; it throws nothing but [InvalidLnkFile]; and its loops
    terminate. *)
Theorem refresh_keeps_to_the_buffer (bytes : list byte) (this : LnkFileInfo) :
  (offsets_do_not_wrap bytes -> truncated bytes ->
   exists what,
     result_of (refresh (Some bytes) this) = Thrown (InvalidLnkFile what))
  /\ (forall i w, In (Request i w) (reads_of (refresh (Some bytes) this)) ->
                  size bytes < i + w ->
                  result_of (refresh (Some bytes) this)
                  = Thrown (InvalidLnkFile "Index out of range"))
  /\ (forall k, In (At k) (reads_of (refresh (Some bytes) this)) ->
                0 <= k < size bytes)
  /\ (forall k, In (At k) (reads_of (refresh (Some bytes) this)) ->
                exists i w, In (Request i w) (reads_of (refresh (Some bytes) this))
                            /\ i <= k < i + w /\ i + w <= size bytes)
  /\ (forall e, result_of (refresh (Some bytes) this) = Thrown e ->
                exists what, e = InvalidLnkFile what)
  /\ result_of (refresh (Some bytes) this) <> OutOfFuel.
Proof.
  destruct (refresh_checked bytes this) as [[Hat [Hreq [Hexc Hfuel]]] _].
  split; [| split; [exact Hreq |]; split; [exact Hat |];
            split; [exact (refresh_covered bytes this) |]; split; assumption].
  intros Hexact (offset & width & Hfield & Hpast).
  destruct (result_of (refresh (Some bytes) this)) as [[] | e |] eqn:Hresult.
  - exfalso.
    rewrite (required_fields_located bytes Hexact) in Hfield.
    unfold located_fields in Hfield. apply in_app_or in Hfield.
    pose proof (refresh_returned_holds_link_fields bytes this Hresult) as Hlink.
    pose proof (refresh_returned_holds_section_fields bytes this Hresult)
      as Hsection.
    rewrite Forall_forall in Hlink, Hsection.
    destruct Hfield as [Hfield | Hfield];
      [apply Hlink in Hfield | apply Hsection in Hfield];
      unfold held in Hfield; cbn [fst snd] in Hfield; lia.
  - destruct (Hexc e) as [what ->]; [exact Hresult |].
    exists what. reflexivity.
  - exfalso. apply Hfuel. exact Hresult.
Qed.

(** [cut_short_link] ends before the byte at 86 that holds the network bit,
    and no sum wraps around in it. *)
Lemma refresh_keeps_to_the_buffer_witness :
  exists what,
    result_of (refresh (Some cut_short_link) decoded_with_icon)
    = Thrown (InvalidLnkFile what).
Proof.
  apply (refresh_keeps_to_the_buffer cut_short_link decoded_with_icon).
  - vm_compute. repeat split.
  - exists 86, 1. split; [| vm_compute; reflexivity].
    vm_compute. do 5 right. left. reflexivity.
Defined.

(** C7 as stated fails when an offset wraps around.  The format puts the
    volume type of [aliased_link x00] four bytes into the volume table, at
    78 + FFFFFFC2 + 4, far past the 98 bytes of the buffer: the buffer is
    truncated.  The code reduces the sum 78 + FFFFFFC2 to 32 bits, reads the
    volume type at 20, and decodes the buffer. *)
Lemma wrapped_offset_hides_truncation :
  size (aliased_link x00) = 98
  /\ In (78 + 0xFFFFFFC2 + 4, 4) (required_fields (aliased_link x00))
  /\ truncated (aliased_link x00)
  /\ result_of (refresh (Some (aliased_link x00)) decoded_with_icon) = Returned tt
  /\ (exists this,
         LnkFileInfo_ctor decoded_with_icon (text "s.lnk")
           (Some (aliased_link x00)) (Some (text "C:\s.lnk")) = Returned this).
Proof.
  assert (Hfield : In (78 + 0xFFFFFFC2 + 4, 4) (required_fields (aliased_link x00))).
  { unfold required_fields, located_fields, link_fields. cbv zeta.
    apply in_or_app. left. apply in_or_app. right.
    match goal with
    | |- context [if ?c then _ else _] =>
        replace c with false by (vm_compute; reflexivity)
    end.
    apply in_or_app. left. right. left.
    f_equal; vm_compute; reflexivity. }
  split; [reflexivity |]. split; [exact Hfield |].
  split; [exists (78 + 0xFFFFFFC2 + 4), 4; split; [exact Hfield | reflexivity] |].
  split; [vm_compute; reflexivity |].
  eexists. vm_compute. reflexivity.
Qed.

(** ** What [refresh] writes does not depend on the object *)

Lemma overwrite_nothing (this : LnkFileInfo) : overwrite nothing_written this = this.
Proof. destruct this. reflexivity. Qed.

Lemma overwrite_twice (w : Written) (this : LnkFileInfo) :
  overwrite w (overwrite w this) = overwrite w this.
Proof.
  assert (Hpick : forall A (b : bool) (x y : A),
             (if b then x else if b then x else y) = if b then x else y)
    by (intros A [] x y; reflexivity).
  destruct w as [written values]. unfold overwrite. cbn [fst snd]. fields.
  rewrite !Hpick. reflexivity.
Qed.

Lemma overwrite_file_paths (w : Written) (this : LnkFileInfo) :
  _filePath (overwrite w this) = _filePath this
  /\ _absoluteFilePath (overwrite w this) = _absoluteFilePath this.
Proof. split; reflexivity. Qed.

(** The setters, recorded. *)
Create HintDb written.

Ltac recorded := intros [written values] this; reflexivity.

Lemma overwrite_set_targetPath (v : std_string) :
  forall w this, set_targetPath v (overwrite w this)
                 = overwrite (wrote member_targetPath (set_targetPath v) w) this.
Proof. recorded. Qed.
Lemma overwrite_set_targetVolumeName (v : std_string) :
  forall w this, set_targetVolumeName v (overwrite w this)
                 = overwrite (wrote member_targetVolumeName (set_targetVolumeName v) w) this.
Proof. recorded. Qed.
Lemma overwrite_set_description (v : std_string) :
  forall w this, set_description v (overwrite w this)
                 = overwrite (wrote member_description (set_description v) w) this.
Proof. recorded. Qed.
Lemma overwrite_set_relativeTargetPath (v : std_string) :
  forall w this, set_relativeTargetPath v (overwrite w this)
                 = overwrite (wrote member_relativeTargetPath (set_relativeTargetPath v) w) this.
Proof. recorded. Qed.
Lemma overwrite_set_workingDirectory (v : std_string) :
  forall w this, set_workingDirectory v (overwrite w this)
                 = overwrite (wrote member_workingDirectory (set_workingDirectory v) w) this.
Proof. recorded. Qed.
Lemma overwrite_set_commandLineArgs (v : std_string) :
  forall w this, set_commandLineArgs v (overwrite w this)
                 = overwrite (wrote member_commandLineArgs (set_commandLineArgs v) w) this.
Proof. recorded. Qed.
Lemma overwrite_set_iconPath (v : std_string) :
  forall w this, set_iconPath v (overwrite w this)
                 = overwrite (wrote member_iconPath (set_iconPath v) w) this.
Proof. recorded. Qed.
Lemma overwrite_set_targetSize (v : Z) :
  forall w this, set_targetSize v (overwrite w this)
                 = overwrite (wrote member_targetSize (set_targetSize v) w) this.
Proof. recorded. Qed.
Lemma overwrite_set_iconIndex (v : Z) :
  forall w this, set_iconIndex v (overwrite w this)
                 = overwrite (wrote member_iconIndex (set_iconIndex v) w) this.
Proof. recorded. Qed.
Lemma overwrite_set_targetVolumeSerial (v : Z) :
  forall w this, set_targetVolumeSerial v (overwrite w this)
                 = overwrite (wrote member_targetVolumeSerial (set_targetVolumeSerial v) w) this.
Proof. recorded. Qed.
Lemma overwrite_set_targetAttributes (v : Z) :
  forall w this, set_targetAttributes v (overwrite w this)
                 = overwrite (wrote member_targetAttributes (set_targetAttributes v) w) this.
Proof. recorded. Qed.
Lemma overwrite_set_targetVolumeType (v : VolumeType) :
  forall w this, set_targetVolumeType v (overwrite w this)
                 = overwrite (wrote member_targetVolumeType (set_targetVolumeType v) w) this.
Proof. recorded. Qed.
Lemma overwrite_set_targetIsOnNetwork (v : bool) :
  forall w this, set_targetIsOnNetwork v (overwrite w this)
                 = overwrite (wrote member_targetIsOnNetwork (set_targetIsOnNetwork v) w) this.
Proof. recorded. Qed.

#[export] Hint Resolve overwrite_set_targetPath overwrite_set_targetVolumeName
  overwrite_set_description overwrite_set_relativeTargetPath
  overwrite_set_workingDirectory overwrite_set_commandLineArgs
  overwrite_set_iconPath overwrite_set_targetSize overwrite_set_iconIndex
  overwrite_set_targetVolumeSerial overwrite_set_targetAttributes
  overwrite_set_targetVolumeType overwrite_set_targetIsOnNetwork : written.

(** The two members that [refresh] reads back, right after it wrote them. *)
Lemma written_targetIsOnNetwork (v : bool) (w : Written) (this : LnkFileInfo) :
  _targetIsOnNetwork
    (overwrite (wrote member_targetIsOnNetwork (set_targetIsOnNetwork v) w) this) = v.
Proof. destruct w. reflexivity. Qed.

Lemma written_targetPath (v : std_string) (w : Written) (this : LnkFileInfo) :
  _targetPath (overwrite (wrote member_targetPath (set_targetPath v) w) this) = v.
Proof. destruct w. reflexivity. Qed.

Lemma writes_bind {A B} (m : Method A) (f : A -> Method B) (w0 : Written)
    (Q : B -> Written -> Prop) :
  writes m w0 (fun a w1 => writes (f a) w1 Q) -> writes (mbind m f) w0 Q.
Proof.
  intros (w1 & t1 & r1 & Hm & HQ). destruct r1 as [a | e |].
  - destruct (HQ a eq_refl) as (w2 & t2 & r2 & Hf & HQ2).
    exists w2, (t1 ++ t2), r2. split; [| exact HQ2].
    intros this. unfold mbind. rewrite Hm. cbn [fst snd value events].
    rewrite Hf. reflexivity.
  - exists w1, t1, (Thrown e).
    split; [intros this; unfold mbind; rewrite Hm; reflexivity | discriminate].
  - exists w1, t1, OutOfFuel.
    split; [intros this; unfold mbind; rewrite Hm; reflexivity | discriminate].
Qed.

Lemma writes_read {A} (r : Read A) (w0 : Written) (Q : A -> Written -> Prop) :
  (forall a, value r = Returned a -> Q a w0) -> writes (read r) w0 Q.
Proof.
  intros H. exists w0, (events r), (value r).
  split; [intros this; destruct r; reflexivity | exact H].
Qed.

Lemma writes_assign (x : Member) (set : LnkFileInfo -> LnkFileInfo) (w0 : Written)
    (Q : unit -> Written -> Prop) :
  (forall w this, set (overwrite w this) = overwrite (wrote x set w) this) ->
  Q tt (wrote x set w0) -> writes (assign set) w0 Q.
Proof.
  intros Hset H. exists (wrote x set w0), [], (Returned tt).
  split; [intros this; unfold assign; rewrite Hset; reflexivity |].
  intros [] _. exact H.
Qed.

Lemma writes_mret {A} (a : A) (w0 : Written) (Q : A -> Written -> Prop) :
  Q a w0 -> writes (mret a) w0 Q.
Proof.
  intros H. exists w0, [], (Returned a).
  split; [reflexivity | intros a' Ha'; injection Ha' as <-; exact H].
Qed.

Lemma writes_mthrow {A} (e : Exception) (w0 : Written) (Q : A -> Written -> Prop) :
  writes (mthrow e) w0 Q.
Proof.
  exists w0, [], (Thrown e). split; [reflexivity | discriminate].
Qed.

Lemma mbind_get_this {B} (f : LnkFileInfo -> Method B) (this : LnkFileInfo) :
  mbind get_this f this = f this this.
Proof.
  unfold mbind, get_this. cbn [fst snd value events ret app].
  destruct (f this this) as [this' [trace result]]. reflexivity.
Qed.

Lemma writes_get_this {B} (f : LnkFileInfo -> Method B) (f' : Method B)
    (w0 : Written) (Q : B -> Written -> Prop) :
  (forall this, f (overwrite w0 this) (overwrite w0 this) = f' (overwrite w0 this)) ->
  writes f' w0 Q -> writes (mbind get_this f) w0 Q.
Proof.
  intros Hf (w & t & r & Hm & HQ). exists w, t, r. split; [| exact HQ].
  intros this. rewrite mbind_get_this, Hf. apply Hm.
Qed.

(** One statement of [refresh]: what it adds to what has been written. *)
Ltac writes_step :=
  lazymatch goal with
  | |- writes (mbind get_this _) _ _ =>
      eapply writes_get_this;
      [ let this := fresh "this" in
        intros this; cbv beta;
        rewrite ?written_targetIsOnNetwork, ?written_targetPath;
        match goal with
        | |- context [overwrite ?w this] => generalize (overwrite w this)
        end;
        intros ?; reflexivity
      | ]
  | |- writes (mbind _ _) _ _ => apply writes_bind
  | |- writes (read _) _ _ => apply writes_read; intros ? _
  | |- writes (assign _) _ _ => eapply writes_assign; [solve [auto with written] |]
  | |- writes (mret _) _ _ => apply writes_mret
  | |- writes (mthrow _) _ _ => apply writes_mthrow
  | |- writes (if ?c then _ else _) _ _ => destruct c
  | |- writes (match ?c with _ => _ end) _ _ => destruct c
  end.

Lemma refresh_writes (file : option (list byte)) :
  writes (refresh file) nothing_written (fun _ _ => True).
Proof.
  unfold refresh. repeat writes_step; exact I.
Qed.

(** [refresh] on a given file is one and the same overwriting of members,
    with the same reads and the same end, whatever the object. *)
Lemma refresh_overwrites (file : option (list byte)) :
  exists w trace result,
    forall this, refresh file this = (overwrite w this, (trace, result)).
Proof.
  destruct (refresh_writes file) as (w & t & r & H & _).
  exists w, t, r. intros this.
  rewrite <- (overwrite_nothing this) at 1. apply H.
Qed.

(** X22.  What [refresh] reads and how it ends (returning, or throwing which
    exception) depends on the file only, not on the object it is called on:
    not on what an earlier [refresh] left in it, and not on what the
    uninitialised members hold in the constructor. *)
Theorem refresh_ends_the_same_on_any_object (file : option (list byte))
    (this other : LnkFileInfo) :
  result_of (refresh file this) = result_of (refresh file other)
  /\ reads_of (refresh file this) = reads_of (refresh file other).
Proof.
  destruct (refresh_overwrites file) as (w & t & r & H).
  rewrite (H this), (H other). split; reflexivity.
Qed.

(** X23.  Calling [refresh] again on the same file content changes nothing:
    the object after the second call is the object after the first, also when
    the calls throw, and the second call ends as the first did. *)
Theorem refresh_twice_is_refresh_once (file : option (list byte))
    (this : LnkFileInfo) :
  object_after (refresh file (object_after (refresh file this)))
  = object_after (refresh file this)
  /\ result_of (refresh file (object_after (refresh file this)))
     = result_of (refresh file this).
Proof.
  destruct (refresh_overwrites file) as (w & t & r & H).
  rewrite (H this). unfold object_after at 2 4. cbn [fst].
  rewrite (H (overwrite w this)). unfold object_after, result_of. cbn [fst snd].
  rewrite overwrite_twice. split; reflexivity.
Qed.

Lemma std_string_eqb_eq (s s' : std_string) :
  std_string_eqb s s' = true <-> s = s'.
Proof.
  revert s'. induction s as [| c s IH]; intros [| c' s']; cbn [std_string_eqb];
    try (split; [discriminate | discriminate]); [split; reflexivity |].
  rewrite andb_true_iff, IH. split.
  - intros [Hc ->]. apply Byte.byte_dec_bl in Hc. rewrite Hc. reflexivity.
  - intros H. injection H as -> ->. split; [apply Byte.byte_dec_lb |]; reflexivity.
Qed.

Lemma std_string_eqb_refl (s : std_string) : std_string_eqb s s = true.
Proof. apply std_string_eqb_eq. reflexivity. Qed.

(** X24.  [refresh] never changes [filePath] and [absoluteFilePath], whatever
    the file and however the call ends, so that the object is equal, by
    [operator==], to the same objects before and after the call. *)
Theorem refresh_keeps_the_file_paths (file : option (list byte))
    (this other : LnkFileInfo) :
  filePath (object_after (refresh file this)) = filePath this
  /\ absoluteFilePath (object_after (refresh file this)) = absoluteFilePath this
  /\ operator_eq (object_after (refresh file this)) other = operator_eq this other
  /\ operator_ne (object_after (refresh file this)) other = operator_ne this other
  /\ operator_eq (object_after (refresh file this)) this = true.
Proof.
  destruct (refresh_overwrites file) as (w & t & r & H).
  rewrite (H this). unfold object_after, operator_ne, operator_eq, filePath,
    absoluteFilePath. cbn [fst].
  destruct (overwrite_file_paths w this) as [-> ->].
  repeat split. apply std_string_eqb_refl.
Qed.

(** ** The strings decoded are well-formed UTF-8 *)

Lemma well_formed_nil : well_formed_utf8 [].
Proof. exists []. split; [constructor | reflexivity]. Qed.

Lemma well_formed_app (s s' : std_string) :
  well_formed_utf8 s -> well_formed_utf8 s' -> well_formed_utf8 (s ++ s').
Proof.
  intros (cps & Hcps & ->) (cps' & Hcps' & ->). exists (cps ++ cps').
  split; [apply Forall_app; auto | rewrite flat_map_app; reflexivity].
Qed.

Lemma well_formed_encode (cp : Z) :
  is_scalar_value cp -> well_formed_utf8 (utf8_encode cp).
Proof.
  intros Hcp. exists [cp]. split; [constructor; [exact Hcp | constructor] |].
  cbn [flat_map]. rewrite app_nil_r. reflexivity.
Qed.

Lemma well_formed_backslash : well_formed_utf8 [x5c].
Proof. apply (well_formed_encode 0x5c). unfold is_scalar_value. lia. Qed.

Lemma readNullTerminatedString_while_well_formed (bytes : list byte) (fuel : nat)
    (i : Z) (result text : std_string) :
  well_formed_utf8 result ->
  value (readNullTerminatedString_while bytes fuel i result) = Returned text ->
  well_formed_utf8 text.
Proof.
  revert i result. induction fuel as [| fuel IH]; intros i result Hresult H;
    [discriminate |].
  cbn [readNullTerminatedString_while] in H.
  apply bind_Returned in H. destruct H as [c [Hc H]].
  pose proof (readInteger_Returned_range _ _ _ _ Hc) as Hrange.
  cbn [sizeof] in Hrange. change (2 ^ (8 * 1)) with 256 in Hrange.
  destruct (c =? 0); [injection H as <-; exact Hresult |].
  destruct (Z.ltb_spec c 0x80) as [Hascii | Hhigh];
    apply IH in H; try exact H; apply well_formed_app; try exact Hresult.
  - replace [to_char c] with (utf8_encode c)
      by (unfold utf8_encode; destruct (Z.ltb_spec c 0x80); [reflexivity | lia]).
    apply well_formed_encode. unfold is_scalar_value. lia.
  - rewrite latin1_two_bytes by lia.
    apply well_formed_encode. unfold is_scalar_value. lia.
Qed.

Lemma readNullTerminatedString_well_formed (bytes : list byte) (i : Z)
    (text : std_string) :
  value (readNullTerminatedString bytes i) = Returned text -> well_formed_utf8 text.
Proof.
  apply readNullTerminatedString_while_well_formed. apply well_formed_nil.
Qed.

Lemma readUtf16Codepoint_well_formed (bytes : list byte) (i end_ : Z)
    (text : std_string) (bytesRead : Z) :
  value (readUtf16Codepoint bytes i end_) = Returned (text, bytesRead) ->
  well_formed_utf8 text.
Proof.
  intros H.
  pose proof (readUtf16Codepoint_Returned _ _ _ _ _ H) as [Hi _].
  rewrite value_readUtf16Codepoint in H by exact Hi.
  apply utf16_step_Returned_scalar in H.
  destruct H as (cp & Hcp & -> & _). apply well_formed_encode. exact Hcp.
Qed.

Lemma readStringWithPrependedLength_well_formed (bytes : list byte) (i : Z)
    (data : std_string * Z) :
  value (readStringWithPrependedLength bytes i) = Returned data ->
  well_formed_utf8 (fst data).
Proof.
  intros H. unfold readStringWithPrependedLength in H.
  apply bind_Returned in H. destruct H as [n [_ H]].
  apply bind_Returned in H. destruct H as [result [Hloop H]].
  rewrite value_ret in H. injection H as <-. cbn [fst].
  revert Hloop. generalize (@nil byte), well_formed_nil.
  generalize (i + 2). generalize (Z.to_nat n) as fuel.
  induction fuel as [| fuel IH]; intros j text Htext H;
    cbn [readStringWithPrependedLength_while] in H;
    (destruct (j <=? i + n * 2); [| injection H as <-; exact Htext]);
    [discriminate |].
  apply bind_Returned in H. destruct H as [[codepoint bytesRead] [Hread H]].
  apply (IH _ _ (well_formed_app _ _ Htext
                   (readUtf16Codepoint_well_formed _ _ _ _ _ Hread)) H).
Qed.

Lemma readFixedLengthString_well_formed (bytes : list byte) (offset length : Z)
    (text : std_string) :
  value (readFixedLengthString bytes offset length) = Returned text ->
  well_formed_utf8 text.
Proof.
  unfold readFixedLengthString.
  generalize (@nil byte), well_formed_nil.
  generalize 0. generalize (Z.to_nat length) as fuel.
  induction fuel as [| fuel IH]; intros j result Hresult H;
    cbn [readFixedLengthString_while] in H;
    (destruct (j <? length); [| injection H as <-; exact Hresult]);
    [discriminate |].
  apply bind_Returned in H. destruct H as [[codepoint bytesRead] [Hread H]].
  apply (IH _ _ (well_formed_app _ _ Hresult
                   (readUtf16Codepoint_well_formed _ _ _ _ _ Hread)) H).
Qed.

(** The setters keep [utf8_members]. *)
Create HintDb utf8.

Ltac set_member := unfold keeps_utf8, utf8_members; intros; fields; tauto.

Lemma utf8_set_targetPath (v : std_string) :
  well_formed_utf8 v -> keeps_utf8 (set_targetPath v).
Proof. set_member. Qed.
Lemma utf8_set_targetVolumeName (v : std_string) :
  well_formed_utf8 v -> keeps_utf8 (set_targetVolumeName v).
Proof. set_member. Qed.
Lemma utf8_set_description (v : std_string) :
  well_formed_utf8 v -> keeps_utf8 (set_description v).
Proof. set_member. Qed.
Lemma utf8_set_relativeTargetPath (v : std_string) :
  well_formed_utf8 v -> keeps_utf8 (set_relativeTargetPath v).
Proof. set_member. Qed.
Lemma utf8_set_workingDirectory (v : std_string) :
  well_formed_utf8 v -> keeps_utf8 (set_workingDirectory v).
Proof. set_member. Qed.
Lemma utf8_set_commandLineArgs (v : std_string) :
  well_formed_utf8 v -> keeps_utf8 (set_commandLineArgs v).
Proof. set_member. Qed.
Lemma utf8_set_iconPath (v : std_string) :
  well_formed_utf8 v -> keeps_utf8 (set_iconPath v).
Proof. set_member. Qed.
Lemma utf8_set_targetSize (v : Z) : keeps_utf8 (set_targetSize v).
Proof. set_member. Qed.
Lemma utf8_set_iconIndex (v : Z) : keeps_utf8 (set_iconIndex v).
Proof. set_member. Qed.
Lemma utf8_set_targetVolumeSerial (v : Z) : keeps_utf8 (set_targetVolumeSerial v).
Proof. set_member. Qed.
Lemma utf8_set_targetAttributes (v : Z) : keeps_utf8 (set_targetAttributes v).
Proof. set_member. Qed.
Lemma utf8_set_targetVolumeType (v : VolumeType) : keeps_utf8 (set_targetVolumeType v).
Proof. set_member. Qed.
Lemma utf8_set_targetIsOnNetwork (v : bool) : keeps_utf8 (set_targetIsOnNetwork v).
Proof. set_member. Qed.
Lemma utf8_set_absoluteFilePath (v : std_string) : keeps_utf8 (set_absoluteFilePath v).
Proof. set_member. Qed.

#[export] Hint Resolve well_formed_nil well_formed_app well_formed_backslash
  utf8_set_targetPath utf8_set_targetVolumeName utf8_set_description
  utf8_set_relativeTargetPath utf8_set_workingDirectory utf8_set_commandLineArgs
  utf8_set_iconPath utf8_set_targetSize utf8_set_iconIndex
  utf8_set_targetVolumeSerial utf8_set_targetAttributes utf8_set_targetVolumeType
  utf8_set_targetIsOnNetwork utf8_set_absoluteFilePath : utf8.

Lemma kept_read {A B} (I : LnkFileInfo -> Prop) (r : Read A) (f : A -> Method B)
    (this : LnkFileInfo) :
  I this ->
  (forall a, value r = Returned a -> I this -> I (object_after (f a this))) ->
  I (object_after (mbind (read r) f this)).
Proof.
  intros Hthis Hf. rewrite object_mbind, result_read, object_read.
  destruct (value r) as [a | e |];
    [apply Hf; [reflexivity | exact Hthis] | exact Hthis | exact Hthis].
Qed.

Lemma kept_assign {B} (g : LnkFileInfo -> LnkFileInfo)
    (f : unit -> Method B) (this : LnkFileInfo) :
  utf8_members this -> keeps_utf8 g ->
  (utf8_members (g this) -> utf8_members (object_after (f tt (g this)))) ->
  utf8_members (object_after (mbind (assign g) f this)).
Proof. intros Hthis Hg Hf. rewrite object_mbind. apply Hf, Hg, Hthis. Qed.

Lemma kept_last_assign (g : LnkFileInfo -> LnkFileInfo) (this : LnkFileInfo) :
  utf8_members this -> keeps_utf8 g -> utf8_members (object_after (assign g this)).
Proof. intros Hthis Hg. apply Hg, Hthis. Qed.

(** One statement of [refresh], for [utf8_members]: the strings read come
    with their well-formedness, and [Hkept] is [utf8_members] of the object
    as it is now. *)
Ltac kept_step Hkept :=
  lazymatch goal with
  | |- utf8_members (object_after (mbind (mbind _ _) _ _)) => rewrite !mbind_assoc
  | |- utf8_members (object_after (mbind (mret _) _ _)) =>
      rewrite !mbind_mret; cbv beta
  | |- utf8_members (object_after (mbind (mthrow _) _ _)) =>
      rewrite mbind_mthrow; exact Hkept
  | |- utf8_members (object_after (mbind get_this _ _)) =>
      rewrite mbind_get_this; cbv beta;
      cbn [_targetPath _targetIsOnNetwork set_targetPath set_targetIsOnNetwork]
  | |- utf8_members (object_after (mbind (if ?c then _ else _) _ _)) => destruct c
  | |- utf8_members
         (object_after (mbind (read (readNullTerminatedString _ _)) _ _)) =>
      let v := fresh "text" in let Hv := fresh "Htext" in
      apply (kept_read utf8_members); [exact Hkept | clear Hkept];
      intros v Hv Hkept; apply readNullTerminatedString_well_formed in Hv
  | |- utf8_members
         (object_after (mbind (read (readFixedLengthString _ _ _)) _ _)) =>
      let v := fresh "text" in let Hv := fresh "Htext" in
      apply (kept_read utf8_members); [exact Hkept | clear Hkept];
      intros v Hv Hkept; apply readFixedLengthString_well_formed in Hv
  | |- utf8_members
         (object_after (mbind (read (readStringWithPrependedLength _ _)) _ _)) =>
      let v := fresh "data" in let Hv := fresh "Hdata" in
      apply (kept_read utf8_members); [exact Hkept | clear Hkept];
      intros v Hv Hkept; apply readStringWithPrependedLength_well_formed in Hv
  | |- utf8_members (object_after (mbind (read _) _ _)) =>
      apply (kept_read utf8_members); [exact Hkept | clear Hkept];
      intros ? _ Hkept
  | |- utf8_members (object_after (mbind (assign _) _ _)) =>
      apply kept_assign; [exact Hkept | solve [auto with utf8] | clear Hkept];
      intros Hkept
  | |- utf8_members (object_after ((if ?c then _ else _) _)) => destruct c
  | |- utf8_members (object_after (mret _ _)) => exact Hkept
  | |- utf8_members (object_after (mthrow _ _)) => exact Hkept
  | |- utf8_members (object_after (assign _ _)) =>
      apply kept_last_assign; [exact Hkept | solve [auto with utf8]]
  end.

Lemma refresh_bytes_keeps_utf8_members (bytes : list byte) (this : LnkFileInfo) :
  utf8_members this -> utf8_members (object_after (refresh (Some bytes) this)).
Proof.
  intros Hkept. unfold refresh. cbv beta iota zeta.
  repeat kept_step Hkept.
Qed.

(** X25.  When the seven strings that [refresh] decodes are well-formed UTF-8
    in the object before the call, they are well-formed UTF-8 after it,
    whatever the file holds, whether it could be opened or not, and whether
    the call returns or throws: every string that [refresh] assigns is the
    UTF-8 encoding of a sequence of Unicode scalar values. *)
Theorem refresh_keeps_strings_well_formed (file : option (list byte))
    (this : LnkFileInfo) :
  utf8_members this -> utf8_members (object_after (refresh file this)).
Proof.
  intros Hkept. destruct file as [bytes |].
  - apply refresh_bytes_keeps_utf8_members. exact Hkept.
  - unfold refresh. rewrite mbind_mthrow. exact Hkept.
Qed.

(** [link_with_strings] decoded into an object whose strings are empty. *)
Lemma refresh_keeps_strings_well_formed_witness :
  utf8_members
    (object_after (refresh (Some link_with_strings)
                     (uninitialised decoded_with_icon (text "s.lnk")))).
Proof.
  apply refresh_keeps_strings_well_formed.
  unfold utf8_members. cbn [uninitialised _targetPath _targetVolumeName _description
    _relativeTargetPath _workingDirectory _commandLineArgs _iconPath].
  repeat split; apply well_formed_nil.
Defined.

(** ** The constructor *)

(** X26.  How the constructor can end.  It returns an object only when the
    file could be read, [refresh] returned and the absolute path could be
    made; the object then has the file path given and that absolute path, and
    its decoded strings are well-formed UTF-8.  It throws [IoError] only when
    the file could not be opened or the absolute path could not be made, and
    [InvalidLnkFile] only on a file that could be read.  It throws nothing
    else, and it terminates. *)
Theorem constructor_outcomes (storage : LnkFileInfo) (path : std_string)
    (file : option (list byte)) (absolute : option std_string) :
  match LnkFileInfo_ctor storage path file absolute with
  | Returned this =>
      filePath this = path
      /\ absolute = Some (absoluteFilePath this)
      /\ utf8_members this
      /\ exists bytes,
           file = Some bytes
           /\ result_of (refresh (Some bytes) (uninitialised storage path))
              = Returned tt
  | Thrown (IoError _) => file = None \/ absolute = None
  | Thrown (InvalidLnkFile _) => exists bytes, file = Some bytes
  | Thrown std_out_of_range => False
  | OutOfFuel => False
  end.
Proof.
  unfold LnkFileInfo_ctor.
  destruct file as [bytes |]; [| left; reflexivity].
  pose proof (refresh_bytes_keeps_utf8_members bytes (uninitialised storage path))
    as Hutf8.
  destruct (refresh_overwrites (Some bytes)) as (w & t & r & H).
  destruct (refresh_checked bytes (uninitialised storage path))
    as [(_ & _ & Hexc & Hfuel) _].
  rewrite (H (uninitialised storage path)) in *.
  unfold result_of, object_after in *. cbn [fst snd value] in *.
  destruct r as [[] | e |].
  - destruct absolute as [absolutePath |]; [| right; reflexivity].
    split; [reflexivity |]. split; [reflexivity |].
    split; [| exists bytes; split; [reflexivity | rewrite H; reflexivity]].
    apply utf8_set_absoluteFilePath. apply Hutf8.
    unfold utf8_members. cbn [uninitialised _targetPath _targetVolumeName
      _description _relativeTargetPath _workingDirectory _commandLineArgs _iconPath].
    repeat split; apply well_formed_nil.
  - destruct (Hexc e eq_refl) as [what ->]. exists bytes. reflexivity.
  - apply Hfuel. reflexivity.
Qed.

(** * Properties of version 1.0.1 *)

(** ** The reads throw nothing but [std::runtime_error] *)

Lemma v1_safe_ret {A} (a : A) : v1_safe (V1.ret a).
Proof. split; [discriminate | discriminate]. Qed.

Lemma v1_safe_throw {A} (what : string) :
  v1_safe (@V1.throw A (V1.std_runtime_error what)).
Proof.
  split; [| discriminate]. intros e H. injection H as <-. eexists. reflexivity.
Qed.

Lemma v1_safe_bind {A B} (m : V1.Read A) (f : A -> V1.Read B) :
  v1_safe m -> (forall a, m = V1.Returned a -> v1_safe (f a)) ->
  v1_safe (V1.bind m f).
Proof.
  intros [Hexc Hfuel] Hf. destruct m as [a | e |]; cbn [V1.bind].
  - apply Hf. reflexivity.
  - split; [intros e' He'; injection He' as <-; apply Hexc; reflexivity | discriminate].
  - exfalso. apply Hfuel. reflexivity.
Qed.

Lemma v1_readInteger_for_Returned (T : IntegerType) (bytes : list byte) (i : Z)
    (n : nat) (j result : Z) :
  0 <= i + j -> i + j + Z.of_nat n <= size bytes ->
  0 <= result < 2 ^ (8 * sizeof T) ->
  exists v, V1.readInteger_for T bytes i n j result = V1.Returned v
            /\ 0 <= v < 2 ^ (8 * sizeof T).
Proof.
  revert j result. induction n as [| n IH]; intros j result Hlow Hhigh Hresult.
  - exists result. split; [reflexivity | exact Hresult].
  - cbn [V1.readInteger_for]. unfold V1.vector_at.
    destruct (Z.ltb_spec (i + j) 0); [lia |].
    destruct (nth_error bytes (Z.to_nat (i + j))) as [b |] eqn:E.
    + cbn [V1.bind V1.ret]. apply IH; [lia | lia | apply cast_range].
    + apply nth_error_None in E. unfold size in Hhigh. lia.
Qed.

Lemma v1_readInteger_cases (T : IntegerType) (bytes : list byte) (i : Z) :
  0 <= i ->
  V1.readInteger T bytes i = V1.Thrown (V1.std_runtime_error "Index out of range")
  \/ (i + sizeof T <= size bytes
      /\ exists v, V1.readInteger T bytes i = V1.Returned v
                   /\ 0 <= v < 2 ^ (8 * sizeof T)).
Proof.
  intros Hi. unfold V1.readInteger.
  destruct (Z.gtb_spec (i + sizeof T) (size bytes)) as [Hout | Hin];
    [left; reflexivity | right].
  split; [exact Hin |].
  apply v1_readInteger_for_Returned;
    [lia | destruct T; cbn [sizeof] in *; lia |].
  split; [lia | apply Z.pow_pos_nonneg; destruct T; cbn [sizeof]; lia].
Qed.

Lemma v1_safe_readInteger (T : IntegerType) (bytes : list byte) (i : Z) :
  0 <= i -> v1_safe (V1.readInteger T bytes i).
Proof.
  intros Hi. destruct (v1_readInteger_cases T bytes i Hi) as [-> | [_ [v [-> _]]]];
    [apply v1_safe_throw | apply v1_safe_ret].
Qed.

Lemma v1_readInteger_Returned (T : IntegerType) (bytes : list byte) (i v : Z) :
  0 <= i -> V1.readInteger T bytes i = V1.Returned v ->
  i + sizeof T <= size bytes /\ 0 <= v < 2 ^ (8 * sizeof T).
Proof.
  intros Hi H.
  destruct (v1_readInteger_cases T bytes i Hi) as [E | [Hin [v' [E Hv']]]];
    rewrite E in H; [discriminate |].
  injection H as <-. auto.
Qed.

Lemma v1_safe_readNullTerminatedString_while (bytes : list byte) (fuel : nat)
    (i : Z) (result : std_string) :
  0 <= i -> (1 <= fuel)%nat -> size bytes - i < Z.of_nat fuel ->
  v1_safe (V1.readNullTerminatedString_while bytes fuel i result).
Proof.
  revert i result. induction fuel as [| fuel IH]; intros i result Hi Hone Hfuel; [lia |].
  cbn [V1.readNullTerminatedString_while]. apply v1_safe_bind.
  - apply v1_safe_readInteger. exact Hi.
  - intros c Hc. apply v1_readInteger_Returned in Hc; [| exact Hi].
    cbn [sizeof] in Hc.
    destruct (c =? 0); [apply v1_safe_ret |]. apply IH; lia.
Qed.

Lemma v1_safe_readNullTerminatedString (bytes : list byte) (i : Z) :
  0 <= i -> v1_safe (V1.readNullTerminatedString bytes i).
Proof.
  intros Hi. apply v1_safe_readNullTerminatedString_while; unfold size; lia.
Qed.

Lemma v1_safe_readFixedLengthString_for (bytes : list byte) (end_ : Z)
    (fuel : nat) (i : Z) (result : std_string) :
  0 <= i -> end_ - i + 2 <= 2 * Z.of_nat fuel ->
  v1_safe (V1.readFixedLengthString_for bytes end_ fuel i result).
Proof.
  revert i result. induction fuel as [| fuel IH]; intros i result Hi Hfuel.
  - cbn [V1.readFixedLengthString_for].
    destruct (Z.leb_spec i end_); [lia | apply v1_safe_ret].
  - cbn [V1.readFixedLengthString_for].
    destruct (Z.leb_spec i end_); [| apply v1_safe_ret].
    apply v1_safe_bind; [apply v1_safe_readInteger; exact Hi |].
    intros high _.
    assert (Hnext : forall codepoint i',
               i <= i' -> v1_safe
                 (let numberOfBytes :=
                    if codepoint >? 0xFFFF then 4
                    else if codepoint >? 0x7FF then 3
                    else if codepoint >? 0x7F then 2 else 1 in
                  V1.readFixedLengthString_for bytes end_ fuel (i' + 2)
                    (result ++ utf8_for numberOfBytes (Z.to_nat numberOfBytes)
                                 codepoint 0x3F 0x80 [])))
      by (intros codepoint i' Hi'; cbv zeta; apply IH; lia).
    destruct (negb (_ =? GENERIC_SURROGATE_VALUE));
      [cbn [V1.bind V1.ret]; apply Hnext; lia |].
    destruct (_ || _); [cbn [V1.bind V1.ret]; apply Hnext; lia |].
    apply v1_safe_bind.
    + apply v1_safe_bind; [apply v1_safe_readInteger; lia |].
      intros low _. destruct (negb _); apply v1_safe_ret.
    + intros [codepoint i'] Hpair.
      destruct (V1.readInteger uint16_t bytes (i + 2)) as [low | e |];
        cbn [V1.bind] in Hpair; try discriminate.
      destruct (negb _); injection Hpair as <- <-; apply Hnext; lia.
Qed.

Lemma v1_readFixedLengthString_cases (bytes : list byte) (i : Z) :
  0 <= i ->
  v1_safe (V1.readFixedLengthString bytes i)
  /\ forall data, V1.readFixedLengthString bytes i = V1.Returned data ->
                  0 <= snd data.
Proof.
  intros Hi. unfold V1.readFixedLengthString.
  destruct (v1_readInteger_cases uint16_t bytes i Hi) as [-> | [_ [n [-> Hn]]]].
  - split; [apply v1_safe_throw | discriminate].
  - cbn [V1.bind sizeof] in *.
    pose proof (v1_safe_readFixedLengthString_for bytes (i + n * 2) (Z.to_nat n)
                  (i + 2) [] ltac:(lia) ltac:(lia)) as Hloop.
    destruct (V1.readFixedLengthString_for bytes (i + n * 2) (Z.to_nat n) (i + 2) [])
      as [result | e |]; cbn [V1.bind V1.ret].
    + split; [apply v1_safe_ret |]. intros data H. injection H as <-. cbn [snd]. lia.
    + destruct Hloop as [Hexc _]. destruct (Hexc e eq_refl) as [what ->].
      split; [apply v1_safe_throw | discriminate].
    + destruct Hloop as [_ Hfuel]. exfalso. apply Hfuel. reflexivity.
Qed.

(** ** The [try] block, statement by statement *)

Lemma v1_mbind_assoc {A B C} (m : V1.Method A) (f : A -> V1.Method B)
    (g : B -> V1.Method C) (this : V1.LnkFileInfo) :
  V1.mbind (V1.mbind m f) g this = V1.mbind m (fun x => V1.mbind (f x) g) this.
Proof.
  unfold V1.mbind. destruct (m this) as [this1 [x | e |]]; reflexivity.
Qed.

Lemma v1_sound_read {A B} (this o : V1.LnkFileInfo) (r : V1.Read A)
    (f : A -> V1.Method B) :
  v1_safe r -> v1_same_identity this o ->
  (forall a, r = V1.Returned a -> v1_sound this (f a o)) ->
  v1_sound this (V1.mbind (V1.read r) f o).
Proof.
  intros [Hexc Hfuel] Ho Hf. unfold V1.mbind, V1.read. cbn [fst snd].
  destruct r as [a | e |].
  - apply Hf. reflexivity.
  - split; [| exact Ho]. cbn [snd].
    split; [intros e' He'; injection He' as <-; apply Hexc; reflexivity | discriminate].
  - exfalso. apply Hfuel. reflexivity.
Qed.

Lemma v1_sound_assign {B} (this o : V1.LnkFileInfo)
    (g : V1.LnkFileInfo -> V1.LnkFileInfo) (f : unit -> V1.Method B) :
  v1_sound this (f tt (g o)) -> v1_sound this (V1.mbind (V1.assign g) f o).
Proof. intros H. exact H. Qed.

Lemma v1_sound_throw {A B} (this o : V1.LnkFileInfo) (what : string)
    (f : A -> V1.Method B) :
  v1_same_identity this o ->
  v1_sound this (V1.mbind (V1.mthrow (V1.std_runtime_error what)) f o).
Proof. intros Ho. split; [apply v1_safe_throw | exact Ho]. Qed.

Lemma v1_sound_done {A} (this o : V1.LnkFileInfo) (a : A) :
  v1_same_identity this o -> v1_sound this (o, V1.Returned a).
Proof. intros Ho. split; [apply v1_safe_ret | exact Ho]. Qed.

Ltac v1_fields :=
  cbn [V1._filePath V1._isValid V1._targetIsOnNetwork V1.set_isValid
       V1.set_targetAttributes V1.set_targetSize V1.set_targetIsOnNetwork
       V1.set_iconIndex V1.set_targetPath V1.set_targetVolumeType
       V1.set_targetVolumeSerial V1.set_targetVolumeName V1.set_description
       V1.set_relativeTargetPath V1.set_workingDirectory V1.set_commandLineArgs
       V1.set_iconPath].

(** The identity of the object as it is now, from the identity [Hthis] of
    the object at the start. *)
Ltac v1_identity Hthis := unfold v1_same_identity; v1_fields; exact Hthis.

Ltac v1_offset_nonneg :=
  repeat match goal with
    | |- context [cast ?T ?z] =>
        let H := fresh in pose proof (cast_range T z) as H;
        generalize dependent (cast T z); intros
    | |- context [size ?l] =>
        let H := fresh in pose proof (size_nonneg l) as H;
        generalize dependent (size l); intros
    end;
  cbn [sizeof] in *; lia.

(** One statement of the [try] block. *)
Ltac v1_step Hthis :=
  lazymatch goal with
  | |- v1_sound _ (V1.mbind (V1.mbind _ _) _ _) => rewrite !v1_mbind_assoc
  | |- v1_sound _ (V1.mbind (V1.mret _) _ _) =>
      change (V1.mbind (V1.mret ?x) ?f ?o) with (f x o); cbv beta
  | |- v1_sound _ (V1.mbind (V1.mthrow _) _ _) =>
      apply v1_sound_throw; v1_identity Hthis
  | |- v1_sound _ (V1.mbind V1.get_this _ _) =>
      change (V1.mbind V1.get_this ?f ?o) with (f o o); cbv beta; v1_fields
  | |- v1_sound _ (V1.mbind (if ?c then _ else _) _ _) => destruct c
  | |- v1_sound _ (V1.mbind (V1.read (V1.readInteger _ _ _)) _ _) =>
      let v := fresh "v" in let Hv := fresh "Hv" in
      apply v1_sound_read;
      [ apply v1_safe_readInteger; v1_offset_nonneg
      | v1_identity Hthis
      | intros v Hv; apply v1_readInteger_Returned in Hv;
        [destruct Hv as [_ Hv]; cbn [sizeof] in Hv | v1_offset_nonneg] ]
  | |- v1_sound _ (V1.mbind (V1.read (V1.readNullTerminatedString _ _)) _ _) =>
      apply v1_sound_read;
      [ apply v1_safe_readNullTerminatedString; v1_offset_nonneg
      | v1_identity Hthis
      | intros ? _ ]
  | |- v1_sound _ (V1.mbind (V1.read (V1.readFixedLengthString _ ?i)) _ _) =>
      let data := fresh "data" in let Hdata := fresh "Hdata" in
      let Hi := fresh "Hi" in
      assert (Hi : 0 <= i) by v1_offset_nonneg;
      apply v1_sound_read;
      [ apply (v1_readFixedLengthString_cases _ _ Hi)
      | v1_identity Hthis
      | intros data Hdata;
        apply (proj2 (v1_readFixedLengthString_cases _ _ Hi)) in Hdata ]
  | |- v1_sound _ (V1.mbind (V1.assign _) _ _) => apply v1_sound_assign
  | |- v1_sound _ ((if ?c then _ else _) _) => destruct c
  | |- v1_sound _ (V1.mret _ _) => apply v1_sound_done; v1_identity Hthis
  | |- v1_sound _ (V1.assign _ _) => apply v1_sound_done; v1_identity Hthis
  end.

Lemma v1_refresh_try_sound (file : option (list byte)) (this : V1.LnkFileInfo) :
  v1_sound this (V1.refresh_try file this).
Proof.
  assert (Hthis : V1._filePath this = V1._filePath this
                  /\ V1._isValid this = V1._isValid this) by (split; reflexivity).
  unfold V1.refresh_try. destruct file as [bytes |]; cbv beta iota zeta.
  - repeat v1_step Hthis.
  - repeat v1_step Hthis.
Qed.

(** ** [refresh] of version 1.0.1 *)

(** X27.  In version 1.0.1, [refresh] never throws and always terminates.
    When its [try] block returned, the object is as that block left it.  When
    the block threw, whatever it had assigned is discarded: the object is then
    a default-constructed one but for its file path, which is unchanged, so
    that no member holds a value of a decoding that was given up partway. *)
Theorem v1_refresh_is_all_or_nothing (file : option (list byte))
    (this : V1.LnkFileInfo) :
  V1.result_of (V1.refresh file this) = V1.Returned tt
  /\ ((V1.result_of (V1.refresh_try file this) = V1.Returned tt
       /\ V1.object_after (V1.refresh file this)
          = V1.object_after (V1.refresh_try file this))
      \/ ((exists what,
              V1.result_of (V1.refresh_try file this)
              = V1.Thrown (V1.std_runtime_error what))
          /\ V1.object_after (V1.refresh file this)
             = V1.mkLnkFileInfo (V1.filePath this) false 0 0 false 0 [] Unknown 0
                 [] [] [] [] [] [])).
Proof.
  destruct (v1_refresh_try_sound file this) as [[Hexc Hfuel] [Hpath _]].
  unfold V1.refresh, V1.result_of, V1.object_after, V1.filePath.
  destruct (V1.refresh_try file this) as [o [[] | e |]]; cbn [fst snd] in *.
  - split; [reflexivity |]. left. split; reflexivity.
  - destruct (Hexc e eq_refl) as [what ->].
    split; [reflexivity |]. right. split; [exists what; reflexivity |].
    rewrite <- Hpath. reflexivity.
  - exfalso. apply Hfuel. reflexivity.
Qed.

(** X28.  In version 1.0.1, [isValid] is true after [refresh] exactly when it
    was true before and the [try] block returned: the block never assigns
    [_isValid], and the handler sets it to false, so that an object that has
    become invalid stays invalid whatever the file holds later.  The
    constructor always returns an object; it has the file path given, and is
    valid exactly when the [try] block returned. *)
Theorem v1_refresh_never_makes_valid (file : option (list byte))
    (this storage : V1.LnkFileInfo) (path : std_string) :
  (V1.isValid (V1.object_after (V1.refresh file this)) = true
   <-> V1.isValid this = true
       /\ V1.result_of (V1.refresh_try file this) = V1.Returned tt)
  /\ exists o,
       V1.LnkFileInfo_ctor storage path file = V1.Returned o
       /\ V1.filePath o = path
       /\ (V1.isValid o = true
           <-> V1.result_of (V1.refresh_try file (V1.uninitialised storage path))
               = V1.Returned tt).
Proof.
  split.
  - destruct (v1_refresh_try_sound file this) as [[Hexc Hfuel] [_ Hvalid]].
    unfold V1.refresh, V1.result_of, V1.object_after, V1.isValid.
    destruct (V1.refresh_try file this) as [o [[] | e |]]; cbn [fst snd] in *.
    + rewrite Hvalid.
      split; [intros H; split; [exact H | reflexivity] | intros [H _]; exact H].
    + destruct (Hexc e eq_refl) as [what ->]. cbn.
      split; [discriminate | intros [_ H]; discriminate].
    + exfalso. apply Hfuel. reflexivity.
  - destruct (v1_refresh_try_sound file (V1.uninitialised storage path))
      as [[Hexc Hfuel] [Hpath Hvalid]].
    unfold V1.LnkFileInfo_ctor, V1.refresh, V1.result_of, V1.isValid, V1.filePath.
    destruct (V1.refresh_try file (V1.uninitialised storage path))
      as [o [[] | e |]]; cbn [fst snd] in *.
    + exists o. split; [reflexivity |]. split; [exact Hpath |].
      rewrite Hvalid. split; reflexivity.
    + destruct (Hexc e eq_refl) as [what ->]. cbn.
      eexists. split; [reflexivity |]. split; [exact Hpath |].
      split; discriminate.
    + exfalso. apply Hfuel. reflexivity.
Qed.

(** ** The readers of the two versions *)

Lemma v1_readInteger_for_agrees (T : IntegerType) (bytes : list byte) (i : Z)
    (n : nat) (j result : Z) :
  V1.readInteger_for T bytes i n j result
  = v1_outcome (value (readInteger_for T bytes i n j result)).
Proof.
  revert j result. induction n as [| n IH]; intros j result; [reflexivity |].
  cbn [V1.readInteger_for readInteger_for]. rewrite value_bind.
  unfold V1.vector_at, vector_at. rewrite value_bind. cbn [value emit snd].
  destruct (i + j <? 0); [reflexivity |].
  destruct (nth_error bytes (Z.to_nat (i + j))); [| reflexivity].
  cbn [V1.bind V1.ret value ret snd]. apply IH.
Qed.

Lemma v1_readInteger_agrees (T : IntegerType) (bytes : list byte) (i : Z) :
  V1.readInteger T bytes i = v1_outcome (value (readInteger T bytes i)).
Proof.
  unfold V1.readInteger, readInteger. rewrite value_bind. cbn [value emit snd].
  destruct (i + sizeof T >? size bytes); [reflexivity |].
  apply v1_readInteger_for_agrees.
Qed.

Lemma v1_bind_agrees {A B} (m : Read A) (f : A -> Read B) (g : A -> V1.Read B) :
  (forall a, g a = v1_outcome (value (f a))) ->
  V1.bind (v1_outcome (value m)) g = v1_outcome (value (bind m f)).
Proof.
  intros H. rewrite value_bind.
  destruct (value m) as [a | [what | what |] |]; cbn [v1_outcome V1.bind];
    [apply H | reflexivity..].
Qed.

Lemma v1_readFixedLengthString_for_agrees (bytes : list byte) (end_ : Z)
    (fuel : nat) (i : Z) (result : std_string) :
  V1.readFixedLengthString_for bytes end_ fuel i result
  = v1_outcome (value (readStringWithPrependedLength_while bytes end_ fuel i result)).
Proof.
  revert i result. induction fuel as [| fuel IH]; intros i result;
    cbn [V1.readFixedLengthString_for readStringWithPrependedLength_while];
    (destruct (i <=? end_); [| reflexivity]); [reflexivity |].
  unfold readUtf16Codepoint.
  rewrite v1_readInteger_agrees.
  rewrite value_bind, value_bind.
  destruct (value (readInteger uint16_t bytes i)) as [high | [what | what |] |];
    cbn [v1_outcome V1.bind]; try reflexivity.
  destruct (negb (Z.land high GENERIC_SURROGATE_MASK =? GENERIC_SURROGATE_VALUE)).
  { cbn [V1.bind V1.ret]. rewrite value_bind, value_ret, value_ret. apply IH. }
  destruct (negb (Z.land high SURROGATE_MASK =? HIGH_SURROGATE_VALUE)
            || (end_ <? i + 4)).
  { cbn [V1.bind V1.ret]. rewrite value_bind, value_ret, value_ret. apply IH. }
  rewrite v1_readInteger_agrees. rewrite value_bind, value_bind.
  destruct (value (readInteger uint16_t bytes (i + 2))) as [low | [what | what |] |];
    cbn [v1_outcome V1.bind]; try reflexivity.
  destruct (negb (Z.land low SURROGATE_MASK =? LOW_SURROGATE_VALUE)).
  - cbn [V1.bind V1.ret]. rewrite value_ret, value_ret. apply IH.
  - cbn [V1.bind V1.ret]. rewrite value_ret, value_ret.
    replace (i + 2 + 2) with (i + (2 + 2)) by lia. apply IH.
Qed.

(** X29.  The reader of length-prefixed strings of version 1.0.1,
    [readFixedLengthString] with its decoding written in the loop, and that of
    version 2.0.1, [readStringWithPrependedLength] with [readUtf16Codepoint],
    return the same string and the same next offset on every buffer at every
    offset, and fail on the same ones, with [std::runtime_error] in place of
    [InvalidLnkFile]. *)
Theorem v1_readFixedLengthString_agrees (bytes : list byte) (i : Z) :
  V1.readFixedLengthString bytes i
  = v1_outcome (value (readStringWithPrependedLength bytes i)).
Proof.
  unfold V1.readFixedLengthString, readStringWithPrependedLength.
  rewrite v1_readInteger_agrees. apply v1_bind_agrees. intros n. cbv zeta.
  rewrite v1_readFixedLengthString_for_agrees. apply v1_bind_agrees.
  intros result. reflexivity.
Qed.

Lemma v1_readNullTerminatedString_while_bytes (latin pre post : list byte)
    (fuel : nat) (result : std_string) :
  Forall (fun b => b <> x00) latin ->
  (List.length latin < fuel)%nat ->
  V1.readNullTerminatedString_while (pre ++ latin ++ x00 :: post) fuel
    (size pre) result
  = V1.Returned (result ++ latin).
Proof.
  revert pre fuel result.
  induction latin as [| b latin IH]; intros pre fuel result Hnonzero Hfuel;
    (destruct fuel as [| fuel]; [cbn [List.length] in Hfuel; lia |]);
    cbn [V1.readNullTerminatedString_while];
    rewrite v1_readInteger_agrees, value_readInteger by apply size_nonneg;
    cbn [sizeof]; pose proof (size_nonneg post).
  - cbn [app]. rewrite size_app, size_cons.
    destruct (Z.gtb_spec (size pre + 1) (size pre + (1 + size post))); [lia |].
    cbn [little_endian v1_outcome V1.bind]. rewrite <- (Z.add_0_r (size pre)) at 1.
    rewrite byte_at_app by lia. cbn. rewrite app_nil_r. reflexivity.
  - pose proof (size_nonneg latin).
    cbn [app]. rewrite size_app, size_cons, size_app, size_cons.
    destruct (Z.gtb_spec (size pre + 1)
                (size pre + (1 + (size latin + (1 + size post))))); [lia |].
    cbn [little_endian v1_outcome V1.bind].
    assert (Hbyte : byte_at (pre ++ b :: latin ++ x00 :: post) (size pre)
                    = byte_value b).
    { rewrite <- (Z.add_0_r (size pre)). rewrite byte_at_app by lia. reflexivity. }
    rewrite !Hbyte.
    pose proof (Forall_inv Hnonzero) as Hb.
    pose proof (Forall_inv_tail Hnonzero) as Hrest.
    destruct (Z.eqb_spec (byte_value b) 0) as [Hzero | _];
      [exfalso; apply Hb; apply byte_value_inj; rewrite Hzero; reflexivity |].
    rewrite to_char_byte_value.
    change (pre ++ b :: latin ++ x00 :: post)
      with (pre ++ [b] ++ latin ++ x00 :: post).
    rewrite app_assoc.
    replace (size pre + 1) with (size (pre ++ [b]))
      by (rewrite size_app; reflexivity).
    rewrite IH; [| exact Hrest | cbn [List.length] in Hfuel; lia].
    rewrite <- app_assoc. reflexivity.
Qed.

(** X30.  In version 1.0.1, [readNullTerminatedString] returns the bytes of a
    text stored before a zero byte as they are, with no conversion: a Latin-1
    text with a character from 0x80 on comes back as the same bytes, which
    version 2.0.1 converts to UTF-8. *)
Theorem v1_readNullTerminatedString_returns_the_bytes (latin pre post : list byte) :
  Forall (fun b => b <> x00) latin ->
  V1.readNullTerminatedString (pre ++ latin ++ x00 :: post) (size pre)
  = V1.Returned latin.
Proof.
  intros Hnonzero. unfold V1.readNullTerminatedString.
  apply (v1_readNullTerminatedString_while_bytes latin pre post _ []);
    [exact Hnonzero |].
  rewrite !length_app. cbn [List.length]. lia.
Qed.

(** The Latin-1 text [hä]: the byte E4 stays E4. *)
Lemma v1_readNullTerminatedString_returns_the_bytes_witness :
  V1.readNullTerminatedString ([x4c] ++ [x68; xe4] ++ x00 :: [x41]) (size [x4c])
  = V1.Returned [x68; xe4].
Proof.
  apply (v1_readNullTerminatedString_returns_the_bytes [x68; xe4] [x4c] [x41]).
  repeat constructor; discriminate.
Defined.
